(** * Weighted multiplayer Elo: a shallow embedding of [weighted_elo.py]

    The rating core of the script is embedded function by function:
    the two probability functions, the expected and the actual score of a
    multiplayer game, the rating changes of one game and the loop that
    folds the weighted changes of every observation into the ratings.

    Python floats are idealised as real numbers, Python [dict]s are
    association lists in insertion order with distinct keys, and Python
    exceptions are values of an error monad. *)

From Stdlib Require Import String.
From Stdlib Require Import Reals Lra Lia List ZArith Bool Permutation.
From Stdlib Require Import Sorting.Sorted.
From Equations Require Import Equations.
From Equations.Prop Require Import Logic.
Import ListNotations.

Set Implicit Arguments.

(** ** Exceptions

    An exception that nothing catches ends the script, so a computation
    that raises carries the exception and no state. *)

Inductive exn : Type :=
| KeyError (key : string)
| ZeroDivisionError
| StatisticsError.

Inductive result (A : Type) : Type :=
| Ok (a : A)
| Raise (e : exn).

Arguments Ok {A} a.
Arguments Raise {A} e.

Definition bind {A B : Type} (m : result A) (k : A -> result B) : result B :=
  match m with
  | Ok a => k a
  | Raise e => Raise e
  end.

Notation "x <- m ;; k" := (bind m (fun x => k))
  (at level 61, m at next level, right associativity).

(** A comprehension whose body may raise: the first exception stops it. *)
Fixpoint mapM {A B : Type} (f : A -> result B) (l : list A) : result (list B) :=
  match l with
  | [] => Ok []
  | a :: l' => b <- f a ;; bs <- mapM f l' ;; Ok (b :: bs)
  end.

(** A [for] loop that threads a state and may raise. *)
Fixpoint foldM {A S : Type} (f : S -> A -> result S) (l : list A) (s : S) : result S :=
  match l with
  | [] => Ok s
  | a :: l' => s' <- f s a ;; foldM f l' s'
  end.

(** ** Dictionaries *)

Module Dict.

Definition t (V : Type) : Type := list (string * V).

Section Ops.
Context {V : Type}.

Fixpoint get (k : string) (d : t V) : option V :=
  match d with
  | [] => None
  | (k', v) :: d' => if String.eqb k k' then Some v else get k d'
  end.

(** [d[k] = v]: an existing key keeps its position, a new key goes last. *)
Fixpoint set (k : string) (v : V) (d : t V) : t V :=
  match d with
  | [] => [(k, v)]
  | (k', v') :: d' =>
      if String.eqb k k' then (k, v) :: d' else (k', v') :: set k v d'
  end.

(** [dict(pairs)] and [{k: v for ...}]: the pairs are inserted in turn. *)
Definition of_items (l : list (string * V)) : t V :=
  fold_left (fun d kv => set (fst kv) (snd kv) d) l [].

Definition keys (d : t V) : list string := map fst d.
Definition values (d : t V) : list V := map snd d.
Definition items (d : t V) : list (string * V) := d.

(** The keys of a dictionary are distinct. *)
Definition wf (d : t V) : Prop := NoDup (keys d).

(** [d[k]] as an expression. *)
Definition getitem (k : string) (d : t V) : result V :=
  match get k d with
  | Some v => Ok v
  | None => Raise (KeyError k)
  end.

(** Python's [==] on dictionaries: same keys with the same values. *)
Definition equiv (d1 d2 : t V) : Prop := forall k, get k d1 = get k d2.
End Ops.

End Dict.

(** [{k: f(k) for k in ks}] *)
Definition dict_comp {V : Type} (ks : list string) (f : string -> result V)
  : result (Dict.t V) :=
  kvs <- mapM (fun k => v <- f k ;; Ok (k, v)) ks ;; Ok (Dict.of_items kvs).

(** ** Numbers *)

Open Scope R_scope.

(** [sum(l)]: starts from 0 and adds from the left. *)
Definition sum (l : list R) : R := fold_left Rplus l 0.

(** [x / y] *)
Definition py_div (x y : R) : result R :=
  if Req_dec_T y 0 then Raise ZeroDivisionError else Ok (x / y).

(** [statistics.mean] *)
Definition mean (data : list R) : result R :=
  match data with
  | [] => Raise StatisticsError
  | _ :: _ => Ok (sum data / INR (length data))
  end.

(** [math.comb] *)
Fixpoint comb (n k : nat) : nat :=
  match k, n with
  | O, _ => 1
  | S _, O => 0
  | S k', S n' => comb n' k' + comb n' k
  end%nat.

(** [l[start:stop]] for [0 <= start], [0 <= stop] *)
Definition slice {A : Type} (l : list A) (start stop : nat) : list A :=
  firstn (stop - start) (skipn start l).

(** [l[start:stop] = new] *)
Definition slice_assign {A : Type} (l : list A) (start stop : nat) (new : list A)
  : list A :=
  firstn start l ++ new ++ skipn (Nat.max start stop) l.

(** [sorted(items, key=lambda x: x[1])]: a stable sort, here by insertion. *)
Fixpoint insert_by_rank (x : string * Z) (l : list (string * Z)) : list (string * Z) :=
  match l with
  | [] => [x]
  | y :: l' =>
      if (snd x <=? snd y)%Z then x :: l else y :: insert_by_rank x l'
  end.

Fixpoint sorted_by_rank (l : list (string * Z)) : list (string * Z) :=
  match l with
  | [] => []
  | x :: l' => insert_by_rank x (sorted_by_rank l')
  end.

(** ** Actual scores: [get_actual_scores_multiplayer] *)

(** [[rank_vector[i] == rank_vector[i+1] for i in range(len(rank_vector) - 1)]] *)
Definition ties_vector_of (rank_vector : list Z) : list bool :=
  map (fun i => (nth i rank_vector 0 =? nth (i + 1) rank_vector 0)%Z)
      (seq 0 (length rank_vector - 1)).

(** The inner [while]: [pos] moves right as long as the next entry is a tie. *)
Equations extend_tie (ties_vector : list bool) (pos : nat) : nat
  by wf (length ties_vector - pos)%nat lt :=
  extend_tie ties_vector pos
    with inspect ((pos <? length ties_vector - 1)%nat && nth (pos + 1) ties_vector false) => {
    | exist _ true _ := extend_tie ties_vector (pos + 1);
    | exist _ false _ := pos }.
Next Obligation.
  apply andb_prop in e. destruct e as [e _].
  apply Nat.ltb_lt in e. lia.
Qed.

(** The outer [while]: collects the intervals [(slice_start, pos + 2)]. *)
Equations collect_ties (ties_vector : list bool) (pos : nat)
          (ties_intervals : list (nat * nat)) : list (nat * nat)
  by wf (length ties_vector - pos)%nat lt :=
  collect_ties ties_vector pos ties_intervals
    with inspect (pos <? length ties_vector)%nat => {
    | exist _ false _ := ties_intervals;
    | exist _ true _ with nth pos ties_vector false => {
      | true :=
          collect_ties ties_vector (extend_tie ties_vector pos + 1)
            (ties_intervals ++ [(pos, extend_tie ties_vector pos + 2)%nat]);
      | false := collect_ties ties_vector (pos + 1) ties_intervals } }.
Next Obligation.
  apply Nat.ltb_lt in e.
  assert (Hge : forall tv p, (p <= extend_tie tv p)%nat)
    by (clear; intros tv p; funelim (extend_tie tv p); lia).
  specialize (Hge ties_vector pos). lia.
Qed.
Next Obligation.
  apply Nat.ltb_lt in e. lia.
Qed.

(** The [for] loop over the intervals: every tie block takes its mean. *)
Fixpoint average_ties (ties_intervals : list (nat * nat)) (scores_raw : list R)
  : result (list R) :=
  match ties_intervals with
  | [] => Ok scores_raw
  | (start, stop) :: rest =>
      draw_result <- mean (slice scores_raw start stop) ;;
      average_ties rest
        (slice_assign scores_raw start stop (repeat draw_result (stop - start)))
  end.

Definition get_actual_scores_multiplayer (ranks : Dict.t Z) : result (Dict.t R) :=
  let ordered_ranks := Dict.of_items (sorted_by_rank (Dict.items ranks)) in
  let rank_vector := Dict.values ordered_ranks in
  let ties_vector := ties_vector_of rank_vector in
  let ties_intervals := collect_ties ties_vector 0 [] in
  let scores_raw := map INR (rev (seq 0 (length rank_vector))) in
  scores_raw <- average_ties ties_intervals scores_raw ;;
  scores_normalized <- mapM (fun i => py_div i (sum scores_raw)) scores_raw ;;
  Ok (Dict.of_items (combine (Dict.keys ordered_ranks) scores_normalized)).

(** ** Probability functions *)

(** The integrand of the error function. *)
Definition gauss (t : R) : R := exp (- (t * t)).

Definition gauss_integrable (x : R) : Riemann_integrable gauss 0 x.
Proof.
  assert (Hc : forall a b t : R, a <= t <= b -> continuity_pt gauss t).
  { intros a b t _. unfold gauss. reg. }
  destruct (Rle_dec 0 x) as [Hx | Hx].
  - exact (continuity_implies_RiemannInt Hx (Hc 0 x)).
  - apply RiemannInt_P1.
    assert (Hx' : x <= 0) by lra.
    exact (continuity_implies_RiemannInt Hx' (Hc x 0)).
Defined.

(** [math.erf]: [2 / sqrt PI] times the integral of [gauss] from 0 to [x]. *)
Definition erf (x : R) : R := 2 / sqrt PI * RiemannInt (gauss_integrable x).

Section Probability.

(** The globals [log_base] and [std_dev_coefficient]; the latter is a
    nonzero constant, so the divisions below do not raise. *)
Variables log_base std_dev_coefficient : R.

Definition p_normal (x : R) : R :=
  let standardized_x := x / (sqrt 2 * std_dev_coefficient) in
  1 / 2 * (1 + erf (standardized_x / sqrt 2)).

Definition p_logistic (x : R) : R :=
  1 / (1 + Rpower log_base (- x / std_dev_coefficient)).

End Probability.

(** ** Expected scores and rating changes *)

Section Core.

(** The global [p_function]. *)
Variable p_function : R -> R.

Definition get_expected_score_multiplayer (player : string) (ratings : Dict.t R)
  : result R :=
  score_differences_by_match_up <-
    mapM (fun opponent =>
            r <- Dict.getitem player ratings ;;
            r' <- Dict.getitem opponent ratings ;;
            Ok (r - r'))
         (filter (fun opponent => negb (String.eqb opponent player))
                 (Dict.keys ratings)) ;;
  let expected_scores_by_match_up :=
    map p_function score_differences_by_match_up in
  py_div (sum expected_scores_by_match_up) (INR (comb (length ratings) 2)).

Definition get_rating_changes_multiplayer
           (ratings : Dict.t R) (ranks : Dict.t Z) (game_points_coef : R)
  : result (Dict.t R) :=
  let players := Dict.keys ranks in
  initial_ratings <-
    dict_comp players (fun player => Dict.getitem player ratings) ;;
  expected_scores <-
    dict_comp players
      (fun player => get_expected_score_multiplayer player initial_ratings) ;;
  actual_scores <- get_actual_scores_multiplayer ranks ;;
  rating_changes_raw <-
    dict_comp players
      (fun player =>
         a <- Dict.getitem player actual_scores ;;
         e <- Dict.getitem player expected_scores ;;
         Ok (game_points_coef * (a - e))) ;;
  dict_comp players
    (fun player =>
       c <- Dict.getitem player rating_changes_raw ;;
       Ok ((INR (length players) - 1) * c)).

End Core.

Definition weight_function (weight change : R) : R := weight.

(** ** The rating loop *)

(** A row of [data_cleaned], with the two fields the loop reads. *)
Record observation : Type := {
  row_ranks : Dict.t Z;
  row_weight : R
}.

Section Loop.

Variable p_function : R -> R.
Variable game_points_coefficient : R.

(** The body of the loop for one [data_row]. *)
Definition update_ratings (elo_ratings : Dict.t R) (data_row : observation)
  : result (Dict.t R) :=
  rating_changes <-
    get_rating_changes_multiplayer p_function elo_ratings (row_ranks data_row)
      game_points_coefficient ;;
  let rating_changes_weighted :=
    Dict.of_items
      (map (fun oc : string * R =>
              (fst oc, weight_function (row_weight data_row) (snd oc) * snd oc))
           (Dict.items rating_changes)) in
  foldM (fun elo_ratings option =>
           r <- Dict.getitem option elo_ratings ;;
           c <- Dict.getitem option rating_changes_weighted ;;
           Ok (Dict.set option (r + c) elo_ratings))
        (Dict.keys rating_changes_weighted) elo_ratings.

(** The loop over [data_cleaned], from a copy of [elo_ratings_initial]. *)
Definition elo_ratings (elo_ratings_initial : Dict.t R)
           (data_cleaned : list observation) : result (Dict.t R) :=
  foldM update_ratings data_cleaned (Dict.of_items (Dict.items elo_ratings_initial)).

End Loop.

(** ** The configuration of the script *)

Definition log_base : R := sqrt 10.
Definition std_dev_coefficient : R := 200.
Definition game_points_coefficient : R := 32.
Definition p_function : R -> R := p_logistic log_base std_dev_coefficient.

(** ** The rows of the poll and their ranks *)

Definition elo_starting_score : R := 0.

(** A row of [data_formatted]. *)
Record poll_reply : Type := {
  reply_i : string;
  reply_best : string;
  reply_worst : string;
  reply_all_options : list string;
  reply_weight : R
}.

(** [x in l] for a list of strings *)
Definition str_in (x : string) (l : list string) : bool :=
  existsb (fun y => String.eqb y x) l.

Definition defective_observation_indices (data_formatted : list poll_reply)
  : list string :=
  map reply_i
      (filter (fun row =>
                 negb (str_in (reply_best row) (reply_all_options row))
                 || negb (str_in (reply_worst row) (reply_all_options row)))
              data_formatted).

Definition data_cleaned (data_formatted : list poll_reply) : list poll_reply :=
  filter (fun row =>
            negb (str_in (reply_i row) (defective_observation_indices data_formatted)))
         data_formatted.

(** [row["tied"]] *)
Definition tied_of (row : poll_reply) : list string :=
  filter (fun option =>
            negb (String.eqb option (reply_best row))
            && negb (String.eqb option (reply_worst row)))
         (reply_all_options row).

(** [{..., **d'}]: the items of [d'] are inserted in turn. *)
Definition dict_update {V : Type} (d d' : Dict.t V) : Dict.t V :=
  fold_left (fun acc kv => Dict.set (fst kv) (snd kv) acc) (Dict.items d') d.

(** [row["ranks"]] *)
Definition ranks_of (row : poll_reply) : Dict.t Z :=
  dict_update
    (Dict.of_items
       [(reply_best row, 1%Z);
        (reply_worst row, (Z.of_nat (length (reply_all_options row)) + 1)%Z)])
    (Dict.of_items (map (fun i => (i, 2%Z)) (tied_of row))).


(** The loop that gives every option of the poll its starting score. *)
Definition elo_ratings_initial (data_cleaned : list poll_reply) : Dict.t R :=
  fold_left
    (fun elo_ratings_initial row =>
       fold_left
         (fun elo_ratings_initial option =>
            match Dict.get option elo_ratings_initial with
            | None => Dict.set option elo_starting_score elo_ratings_initial
            | Some _ => elo_ratings_initial
            end)
         (reply_all_options row) elo_ratings_initial)
    data_cleaned [].


(** ** The test of the linear weights on single observations *)

Section WeighingTest.

Variable p_function : R -> R.
Variable game_points_coefficient : R.

(** The global [option_max_weight], an integer. *)
Variable option_max_weight : nat.

(** The loop that fills [obs_linear_rating_changes]; the rating differences
    it runs over are integers. *)
Definition obs_linear_rating_changes (possible_rating_differences : list Z)
  : result (list R) :=
  mapM (fun rating_difference =>
          obs_linear_rating_change <-
            get_rating_changes_multiplayer p_function
              [("winner", IZR rating_difference); ("loser", 0)]%string
              [("winner", 1); ("loser", 2)]%string%Z
              game_points_coefficient ;;
          c <- Dict.getitem "winner"%string obs_linear_rating_change ;;
          Ok (c * INR option_max_weight))
       possible_rating_differences.

(** The loop that fills [obs_true_rating_changes]. *)
Definition obs_true_rating_changes (possible_rating_differences : list Z)
  : result (list R) :=
  mapM (fun rating_difference =>
          ratings <-
            foldM (fun ratings (i : nat) =>
                     rating_changes <-
                       get_rating_changes_multiplayer p_function ratings
                         [("winner", 1); ("loser", 2)]%string%Z
                         game_points_coefficient ;;
                     foldM (fun ratings (kv : string * R) =>
                              r <- Dict.getitem (fst kv) ratings ;;
                              Ok (Dict.set (fst kv) (r + snd kv) ratings))
                           (Dict.items rating_changes) ratings)
                  (seq 0 option_max_weight)
                  [("winner", IZR rating_difference); ("loser", 0)]%string ;;
          w <- Dict.getitem "winner"%string ratings ;;
          Ok (w - IZR rating_difference))
       possible_rating_differences.

Definition per_observation_rating_change_differences
           (possible_rating_differences : list Z) : result (list R) :=
  obs_linear_rating_changes <- obs_linear_rating_changes possible_rating_differences ;;
  obs_true_rating_changes <- obs_true_rating_changes possible_rating_differences ;;
  Ok (map (fun i : R * R => snd i - fst i)
          (combine obs_true_rating_changes obs_linear_rating_changes)).

End WeighingTest.

Definition option_max_weight : nat := 2.

(** * Definitions for the statements and the proofs *)

(** ** Dictionaries of scores *)

(** The rating of a participant, read as a total function. *)
Definition rating_of (ratings : Dict.t R) (k : string) : R :=
  match Dict.get k ratings with
  | Some r => r
  | None => 0
  end.

(** The opponents of a player among the keys. *)
Definition opponents (player : string) (ks : list string) : list string :=
  filter (fun opponent => negb (String.eqb opponent player)) ks.

(** The sum of the pairwise probabilities of a player. *)
Definition pairwise_sum (P : R -> R) (r : string -> R) (ks : list string)
           (p : string) : R :=
  sum (map P (map (fun o => r p - r o) (opponents p ks))).

(** The scores before normalisation, for a rank vector [rv]. *)
Definition averaged_scores (rv : list Z) : result (list R) :=
  average_ties (collect_ties (ties_vector_of rv) 0 [])
               (map INR (rev (seq 0 (length rv)))).

(** The shape of the collected intervals, read from position [lo] on:
    they come in order, each starts at a tie and ends after an entry that
    is not one, and no tie lies between them. *)
Inductive tie_blocks (tv : list bool) : nat -> list (nat * nat) -> Prop :=
| tb_nil lo :
    (forall i, (lo <= i)%nat -> nth i tv false = false) ->
    tie_blocks tv lo []
| tb_cons lo start stop rest :
    (lo <= start)%nat ->
    (forall i, (lo <= i < start)%nat -> nth i tv false = false) ->
    nth start tv false = true ->
    (start + 2 <= stop)%nat ->
    (stop <= length tv + 1)%nat ->
    nth (stop - 1) tv false = false ->
    tie_blocks tv stop rest ->
    tie_blocks tv lo ((start, stop) :: rest).

(** The dictionaries that [get_rating_changes_multiplayer] builds on the
    way, for rated participants. *)
Definition initial_ratings_of (ratings : Dict.t R) (ranks : Dict.t Z) : Dict.t R :=
  map (fun p => (p, rating_of ratings p)) (Dict.keys ranks).

Definition expected_scores_of (P : R -> R) (ratings : Dict.t R) (ranks : Dict.t Z)
  : Dict.t R :=
  map (fun p => (p, pairwise_sum P (rating_of ratings) (Dict.keys ranks) p
                    / INR (comb (length ranks) 2)))
      (Dict.keys ranks).

(** The rating changes, as a function of the actual scores. *)
Definition rating_changes_of (P : R -> R) (K : R) (ratings : Dict.t R)
           (ranks : Dict.t Z) (actual : Dict.t R) : Dict.t R :=
  map (fun p => (p, (INR (length ranks) - 1)
                    * (K * (rating_of actual p
                            - rating_of (expected_scores_of P ratings ranks) p))))
      (Dict.keys ranks).

(** The unweighted change of one participant. *)
Definition change_of (P : R -> R) (K : R) (ratings : Dict.t R)
           (data_row : observation) (actual : Dict.t R) (p : string) : R :=
  (INR (length (row_ranks data_row)) - 1)
  * (K * (rating_of actual p
          - rating_of (expected_scores_of P ratings (row_ranks data_row)) p)).

(** The body of the innermost [for] loop of the rating loop. *)
Definition add_change (changes elo_ratings : Dict.t R) (option : string)
  : result (Dict.t R) :=
  r <- Dict.getitem option elo_ratings ;;
  c <- Dict.getitem option changes ;;
  Ok (Dict.set option (r + c) elo_ratings).

(** ** Integrals of continuous functions *)

Definition continuous_integrable (f : R -> R) (Hf : continuity f) (a b : R)
  : Riemann_integrable f a b.
Proof.
  destruct (Rle_dec a b) as [Hab | Hab].
  - apply continuity_implies_RiemannInt; [exact Hab | intros x _; apply Hf].
  - apply RiemannInt_P1.
    apply continuity_implies_RiemannInt; [lra | intros x _; apply Hf].
Defined.

Definition integral (f : R -> R) (Hf : continuity f) (a b : R) : R :=
  RiemannInt (continuous_integrable Hf a b).

(** The integral of [gauss] from 0, of which [erf] is a multiple. *)
Definition gauss_integral (x : R) : R := RiemannInt (gauss_integrable x).

(** A parametric integrand, its derivative in the parameter and its
    integral over [[0, 1]]: they link the integral of [gauss] to [PI]. *)
Definition phi (x t : R) : R := exp (- (x * x * (1 + t * t))) / (1 + t * t).
Definition psi (x t : R) : R := - 2 * x * exp (- (x * x * (1 + t * t))).

Definition phi_integrable (x : R) : Riemann_integrable (phi x) 0 1.
Proof.
  apply continuity_implies_RiemannInt; [lra |].
  intros t _. unfold phi. reg. nra.
Defined.

Definition phi_integral (x : R) : R := RiemannInt (phi_integrable x).

(** ** Counting the pairwise results *)

(** The tie blocks hold nothing but ties. *)
Definition blocks_full (tv : list bool) (ivs : list (nat * nat)) : Prop :=
  Forall (fun iv => forall i, (fst iv <= i)%nat -> (i + 2 <= snd iv)%nat ->
                              nth i tv false = true) ivs.

(** How many players a rank beats, and how many players hold it. *)
Definition beaten_by (ranks : Dict.t Z) (r : Z) : nat :=
  length (filter (fun q => (r <? snd q)%Z) ranks).

Definition tied_at (ranks : Dict.t Z) (r : Z) : nat :=
  length (filter (fun q => (snd q =? r)%Z) ranks).

(** ** The rows of the poll *)

(** A row is defective when its best or its worst option was not shown. *)
Definition defective (row : poll_reply) : bool :=
  negb (str_in (reply_best row) (reply_all_options row))
  || negb (str_in (reply_worst row) (reply_all_options row)).

(** The body of the inner loop that collects the options. *)
Definition add_option (elo_ratings_initial : Dict.t R) (option : string) : Dict.t R :=
  match Dict.get option elo_ratings_initial with
  | None => Dict.set option elo_starting_score elo_ratings_initial
  | Some _ => elo_ratings_initial
  end.

(** A row of a poll, and three rows of which the second names a best
    option that was not shown. *)
Definition reply_example : poll_reply :=
  {| reply_i := "1"; reply_best := "a"; reply_worst := "c";
     reply_all_options := ["a"; "b"; "c"; "d"; "e"]; reply_weight := 1 |}%string.

Definition poll_example : list poll_reply :=
  [ reply_example;
    {| reply_i := "2"; reply_best := "x"; reply_worst := "b";
       reply_all_options := ["a"; "b"; "c"; "d"; "f"]; reply_weight := 2 |};
    {| reply_i := "3"; reply_best := "f"; reply_worst := "a";
       reply_all_options := ["a"; "b"; "c"; "d"; "f"]; reply_weight := 0.5 |} ]%string.

(** ** Ratings and ranks moved together *)

(** Every rating moved by the same amount. *)
Definition shift_ratings (c : R) (ratings : Dict.t R) : Dict.t R :=
  map (fun kv => (fst kv, snd kv + c)) ratings.

(** The ranks renamed by [f]. *)
Definition relabel_ranks (f : Z -> Z) (ranks : Dict.t Z) : Dict.t Z :=
  map (fun kv => (fst kv, f (snd kv))) ranks.

(** ** Games played again *)

(** The ratings of the winner and of the loser after [n] games that the
    winner wins, from the ratings [a] and [b]. *)
Fixpoint replayed (P : R -> R) (K : R) (n : nat) (a b : R) : R * R :=
  match n with
  | O => (a, b)
  | S n' => replayed P K n' (a + K * (1 - P (a - b))) (b + K * (0 - P (b - a)))
  end.

(** ** Tactics *)

Ltac vm_eval t := let v := eval vm_compute in t in change t with v.

(** * Properties *)

(** ** The definitions at work *)

Example sorted_by_rank_is_stable :
  sorted_by_rank [("A", 2); ("B", 1); ("C", 2); ("D", 1)]%string%Z
  = [("B", 1); ("D", 1); ("A", 2); ("C", 2)]%string%Z.
Proof. reflexivity. Qed.

Example ties_vector_of_ex :
  ties_vector_of [1; 2; 2; 4]%Z = [false; true; false].
Proof. reflexivity. Qed.

Example collect_ties_ex :
  collect_ties [false; true; true; false; true] 0 [] = [(1, 4); (4, 6)]%nat.
Proof. reflexivity. Qed.

Example comb_ex : (comb 5 2 = 10 /\ comb 1 2 = 0 /\ comb 0 2 = 0)%nat.
Proof. repeat split. Qed.

Example dict_set_ex :
  Dict.set "B" 5%Z (Dict.set "C" 3%Z [("A", 1); ("B", 2)]%string%Z)
  = [("A", 1); ("B", 5); ("C", 3)]%string%Z.
Proof. reflexivity. Qed.

(** ** The error monad *)

Lemma mapM_total {A B : Type} (f : A -> result B) (g : A -> B) (l : list A) :
  (forall a, In a l -> f a = Ok (g a)) -> mapM f l = Ok (map g l).
Proof.
  induction l as [| a l IH]; intros H; simpl.
  - reflexivity.
  - rewrite (H a (or_introl eq_refl)). simpl.
    rewrite IH by (intros; apply H; now right). reflexivity.
Qed.

(** ** Sums *)

Lemma fold_left_Rplus (l : list R) (a : R) :
  fold_left Rplus l a = a + fold_left Rplus l 0.
Proof.
  revert a. induction l as [| x l IH]; intros a; simpl.
  - lra.
  - rewrite (IH (a + x)), (IH (0 + x)). lra.
Qed.

Lemma sum_nil : sum [] = 0.
Proof. reflexivity. Qed.

Lemma sum_cons (x : R) (l : list R) : sum (x :: l) = x + sum l.
Proof. unfold sum. simpl. rewrite fold_left_Rplus. lra. Qed.

Lemma sum_app (l1 l2 : list R) : sum (l1 ++ l2) = sum l1 + sum l2.
Proof.
  induction l1 as [| x l1 IH]; simpl.
  - rewrite sum_nil. lra.
  - rewrite !sum_cons, IH. lra.
Qed.

Lemma sum_repeat (x : R) (n : nat) : sum (repeat x n) = INR n * x.
Proof.
  induction n as [| n IH].
  - simpl. rewrite sum_nil. lra.
  - cbn [repeat]. rewrite sum_cons, IH, S_INR. lra.
Qed.

Lemma sum_map_div (l : list R) (c : R) :
  sum (map (fun i => i / c) l) = sum l / c.
Proof.
  induction l as [| x l IH]; simpl.
  - rewrite sum_nil. lra.
  - rewrite !sum_cons, IH. lra.
Qed.

Lemma sum_map_plus {A : Type} (f g : A -> R) (l : list A) :
  sum (map (fun a => f a + g a) l) = sum (map f l) + sum (map g l).
Proof.
  induction l as [| x l IH]; simpl.
  - rewrite sum_nil. lra.
  - rewrite !sum_cons, IH. lra.
Qed.

Lemma sum_map_scal {A : Type} (c : R) (f : A -> R) (l : list A) :
  sum (map (fun a => c * f a) l) = c * sum (map f l).
Proof.
  induction l as [| x l IH]; simpl.
  - rewrite sum_nil. lra.
  - rewrite !sum_cons, IH. lra.
Qed.

Lemma sum_map_const {A : Type} (c : R) (l : list A) :
  sum (map (fun _ => c) l) = INR (length l) * c.
Proof.
  induction l as [| x l IH].
  - simpl. rewrite sum_nil. lra.
  - cbn [map length]. rewrite sum_cons, IH, S_INR. lra.
Qed.

Lemma sum_map_ext {A : Type} (f g : A -> R) (l : list A) :
  (forall a, In a l -> f a = g a) -> sum (map f l) = sum (map g l).
Proof.
  intros H. f_equal. apply map_ext_in. exact H.
Qed.

Lemma sum_Permutation (l1 l2 : list R) :
  Permutation l1 l2 -> sum l1 = sum l2.
Proof.
  induction 1; rewrite ?sum_cons in *; lra.
Qed.

(** The raw scores [n-1, ..., 0] add up to [n (n-1) / 2]. *)
Lemma sum_scores_raw (n : nat) :
  sum (map INR (rev (seq 0 n))) = INR n * (INR n - 1) / 2.
Proof.
  induction n as [| n IH].
  - simpl. rewrite sum_nil. lra.
  - rewrite seq_S, rev_app_distr, map_app, sum_app, IH. simpl rev. simpl map.
    rewrite sum_cons, sum_nil, S_INR. lra.
Qed.

Ltac list_eq_lra :=
  repeat (f_equal; try (rewrite ?sum_cons, ?sum_nil; simpl; lra)).

Lemma py_div_ok (x y : R) : y <> 0 -> py_div x y = Ok (x / y).
Proof. intros H. unfold py_div. destruct (Req_dec_T y 0); [contradiction | reflexivity]. Qed.

Lemma py_div_zero (x : R) : py_div x 0 = Raise ZeroDivisionError.
Proof. unfold py_div. destruct (Req_dec_T 0 0); [reflexivity | contradiction]. Qed.

Lemma comb_2 (n : nat) : INR (comb n 2) = INR n * (INR n - 1) / 2.
Proof.
  assert (H1 : forall m, comb m 1 = m).
  { induction m as [| m IH]; simpl; [reflexivity |].
    rewrite IH. destruct m; reflexivity. }
  induction n as [| n IH].
  - simpl. lra.
  - change (comb (S n) 2) with (comb n 1 + comb n 2)%nat.
    rewrite plus_INR, IH, H1, S_INR. lra.
Qed.

(** ** Dictionaries *)

Section DictFacts.
Context {V : Type}.
Implicit Types (d : Dict.t V) (k : string) (v : V).

Lemma get_In k v d : Dict.get k d = Some v -> In (k, v) d.
Proof.
  induction d as [| [k' v'] d IH]; simpl; [discriminate |].
  destruct (String.eqb_spec k k') as [-> | Hne].
  - intros H. injection H as ->. now left.
  - intros H. right. now apply IH.
Qed.

Lemma get_None k d : Dict.get k d = None <-> ~ In k (Dict.keys d).
Proof.
  induction d as [| [k' v'] d IH]; simpl.
  - tauto.
  - destruct (String.eqb_spec k k') as [-> | Hne].
    + split; [discriminate | intros H; exfalso; apply H; now left].
    + rewrite IH. split; intros H; [intros [E | E]; [congruence | tauto] | tauto].
Qed.

Lemma In_get k v d : Dict.wf d -> In (k, v) d -> Dict.get k d = Some v.
Proof.
  unfold Dict.wf. induction d as [| [k' v'] d IH]; simpl; [tauto |].
  intros Hnd [E | Hin]; inversion Hnd as [| ? ? Hk Hd]; subst.
  - injection E as -> ->. now rewrite String.eqb_refl.
  - destruct (String.eqb_spec k k') as [-> | Hne].
    + exfalso. apply Hk. change k' with (fst (k', v)). now apply in_map.
    + now apply IH.
Qed.

Lemma get_Some_key k v d : Dict.get k d = Some v -> In k (Dict.keys d).
Proof.
  intros H. apply get_In in H. change k with (fst (k, v)). now apply in_map.
Qed.

Lemma In_keys_get k d : In k (Dict.keys d) -> exists v, Dict.get k d = Some v.
Proof.
  intros H. destruct (Dict.get k d) as [v |] eqn:E; [now exists v |].
  apply get_None in E. contradiction.
Qed.

Lemma set_fresh k v d : ~ In k (Dict.keys d) -> Dict.set k v d = d ++ [(k, v)].
Proof.
  induction d as [| [k' v'] d IH]; simpl; [reflexivity |].
  intros H. destruct (String.eqb_spec k k') as [-> | Hne]; [tauto |].
  rewrite IH by tauto. reflexivity.
Qed.

(** Pairs with distinct keys make the dictionary that lists them. *)
Lemma of_items_wf (l : list (string * V)) : NoDup (map fst l) -> Dict.of_items l = l.
Proof.
  unfold Dict.of_items.
  enough (H : forall acc, NoDup (map fst (acc ++ l)) ->
              fold_left (fun d kv => Dict.set (fst kv) (snd kv) d) l acc = acc ++ l).
  { intros Hnd. now apply (H []). }
  induction l as [| [k v] l IH]; intros acc Hnd; simpl.
  - now rewrite app_nil_r.
  - rewrite set_fresh.
    + rewrite IH; rewrite <- app_assoc; [reflexivity | exact Hnd].
    + rewrite map_app in Hnd. apply NoDup_remove_2 in Hnd.
      intros Hin. apply Hnd. apply in_or_app. now left.
Qed.

Lemma keys_set k v d : In k (Dict.keys d) -> Dict.keys (Dict.set k v d) = Dict.keys d.
Proof.
  induction d as [| [k' v'] d IH]; simpl; [tauto |].
  intros H. destruct (String.eqb_spec k k') as [-> | Hne]; simpl; [reflexivity |].
  f_equal. apply IH. destruct H; [congruence | assumption].
Qed.

Lemma get_set k k' v d :
  In k (Dict.keys d) ->
  Dict.get k' (Dict.set k v d) = if String.eqb k' k then Some v else Dict.get k' d.
Proof.
  induction d as [| [k0 v0] d IH]; simpl; [tauto |].
  intros H. destruct (String.eqb_spec k k0) as [-> | Hne]; simpl.
  - destruct (String.eqb_spec k' k0); reflexivity.
  - destruct (String.eqb_spec k' k0) as [-> | Hne'].
    + destruct (String.eqb_spec k0 k); [congruence | reflexivity].
    + apply IH. destruct H; [congruence | assumption].
Qed.

End DictFacts.

Lemma get_map_pair {V : Type} (ks : list string) (g : string -> V) (k : string) :
  Dict.get k (map (fun p => (p, g p)) ks) =
  if in_dec string_dec k ks then Some (g k) else None.
Proof.
  induction ks as [| k0 ks IH]; simpl; [reflexivity |].
  destruct (String.eqb_spec k k0) as [-> | Hne].
  - destruct (string_dec k0 k0); [reflexivity | congruence].
  - rewrite IH. destruct (string_dec k0 k); [congruence |].
    destruct (in_dec string_dec k ks); reflexivity.
Qed.

Lemma keys_map_pair {V : Type} (ks : list string) (g : string -> V) :
  Dict.keys (map (fun p => (p, g p)) ks) = ks.
Proof.
  unfold Dict.keys. rewrite map_map. simpl. apply map_id.
Qed.

(** A comprehension whose body succeeds on every key. *)
Lemma dict_comp_total {V : Type} (ks : list string) (f : string -> result V)
      (g : string -> V) :
  NoDup ks -> (forall k, In k ks -> f k = Ok (g k)) ->
  dict_comp ks f = Ok (map (fun k => (k, g k)) ks).
Proof.
  intros Hnd H. unfold dict_comp.
  rewrite (mapM_total _ (fun k => (k, g k))).
  - simpl. rewrite of_items_wf; [reflexivity |].
    rewrite map_map. simpl. now rewrite map_id.
  - intros k Hk. now rewrite H.
Qed.

(** ** Sorting by rank *)

Lemma insert_by_rank_perm (x : string * Z) (l : list (string * Z)) :
  Permutation (insert_by_rank x l) (x :: l).
Proof.
  induction l as [| y l IH]; simpl.
  - reflexivity.
  - destruct (snd x <=? snd y)%Z.
    + reflexivity.
    + rewrite IH. apply perm_swap.
Qed.

Lemma sorted_by_rank_perm (l : list (string * Z)) :
  Permutation (sorted_by_rank l) l.
Proof.
  induction l as [| x l IH]; simpl.
  - reflexivity.
  - rewrite insert_by_rank_perm. now apply perm_skip.
Qed.

Lemma sorted_by_rank_length (l : list (string * Z)) :
  length (sorted_by_rank l) = length l.
Proof. apply Permutation_length, sorted_by_rank_perm. Qed.

Lemma sorted_by_rank_wf (l : Dict.t Z) : Dict.wf l -> Dict.wf (sorted_by_rank l).
Proof.
  unfold Dict.wf, Dict.keys. intros H.
  eapply Permutation_NoDup; [| exact H].
  apply Permutation_map, Permutation_sym, sorted_by_rank_perm.
Qed.

Lemma insert_by_rank_sorted (x : string * Z) (l : list (string * Z)) :
  StronglySorted Z.le (map snd l) ->
  StronglySorted Z.le (map snd (insert_by_rank x l)).
Proof.
  induction l as [| y l IH]; simpl; intros Hs.
  - constructor; constructor.
  - inversion Hs as [| ? ? Hs' Hall]; subst.
    destruct (snd x <=? snd y)%Z eqn:E; simpl.
    + apply Z.leb_le in E. constructor; [exact Hs |].
      constructor; [exact E |].
      eapply Forall_impl; [| exact Hall]. intros z Hz. lia.
    + apply Z.leb_gt in E. constructor; [now apply IH |].
      eapply Permutation_Forall.
      * apply Permutation_map, Permutation_sym, insert_by_rank_perm.
      * simpl. constructor; [lia | exact Hall].
Qed.

Lemma sorted_by_rank_sorted (l : list (string * Z)) :
  StronglySorted Z.le (map snd (sorted_by_rank l)).
Proof.
  induction l as [| x l IH]; simpl.
  - constructor.
  - now apply insert_by_rank_sorted.
Qed.

(** A sorted list is determined by its elements. *)
Lemma sorted_perm_eq (l1 l2 : list Z) :
  StronglySorted Z.le l1 -> StronglySorted Z.le l2 -> Permutation l1 l2 -> l1 = l2.
Proof.
  revert l2. induction l1 as [| a l1 IH]; intros l2 H1 H2 HP.
  - apply Permutation_nil in HP. now subst.
  - destruct l2 as [| b l2].
    + apply Permutation_sym, Permutation_nil in HP. discriminate.
    + inversion H1 as [| ? ? H1' A1]; inversion H2 as [| ? ? H2' A2]; subst.
      assert (Hab : a = b).
      { assert (Ha : In a (b :: l2)) by (eapply Permutation_in; [exact HP | now left]).
        assert (Hb : In b (a :: l1))
          by (eapply Permutation_in; [apply Permutation_sym; exact HP | now left]).
        rewrite Forall_forall in A1, A2.
        destruct Ha as [Ha | Ha]; [congruence |].
        destruct Hb as [Hb | Hb]; [congruence |].
        specialize (A1 _ Hb). specialize (A2 _ Ha). lia. }
      subst b. f_equal. apply IH; try assumption.
      eapply Permutation_cons_inv; exact HP.
Qed.

Lemma sorted_nth_le (l : list Z) (i j : nat) :
  StronglySorted Z.le l -> (i <= j < length l)%nat ->
  (nth i l 0 <= nth j l 0)%Z.
Proof.
  intros Hs. revert i j. induction Hs as [| a l Hs IH Hall]; intros i j Hij.
  - simpl in Hij. lia.
  - destruct i as [| i], j as [| j]; simpl in *; try lia.
    + rewrite Forall_forall in Hall. apply Hall, nth_In. lia.
    + apply IH. lia.
Qed.

(** The rank vector of a dictionary does not depend on the insertion order. *)
Lemma rank_vector_perm (l1 l2 : list (string * Z)) :
  Permutation l1 l2 ->
  map snd (sorted_by_rank l1) = map snd (sorted_by_rank l2).
Proof.
  intros HP. apply sorted_perm_eq; try apply sorted_by_rank_sorted.
  apply Permutation_map. rewrite !sorted_by_rank_perm. exact HP.
Qed.

(** ** The tie intervals *)

Lemma extend_tie_eq (ties_vector : list bool) (pos : nat) :
  extend_tie ties_vector pos =
  if (pos <? length ties_vector - 1)%nat && nth (pos + 1) ties_vector false
  then extend_tie ties_vector (pos + 1) else pos.
Proof.
  funelim (extend_tie ties_vector pos); rewrite e; congruence.
Qed.

Lemma collect_ties_eq (ties_vector : list bool) (pos : nat) acc :
  collect_ties ties_vector pos acc =
  if (pos <? length ties_vector)%nat then
    if nth pos ties_vector false then
      collect_ties ties_vector (extend_tie ties_vector pos + 1)
        (acc ++ [(pos, extend_tie ties_vector pos + 2)%nat])
    else collect_ties ties_vector (pos + 1) acc
  else acc.
Proof.
  funelim (collect_ties ties_vector pos acc).
  all: rewrite e; try rewrite Heq; congruence.
Qed.

(** Where the inner loop stops: at or after [pos], inside the vector, and
    in front of an entry that is not a tie. *)
Lemma extend_tie_spec (tv : list bool) (pos : nat) :
  (pos <= extend_tie tv pos)%nat /\
  ((pos < length tv)%nat -> (extend_tie tv pos < length tv)%nat) /\
  nth (extend_tie tv pos + 1) tv false = false.
Proof.
  remember (length tv - pos)%nat as m eqn:Hm.
  revert pos Hm. induction m as [m IH] using lt_wf_ind. intros pos Hm.
  rewrite extend_tie_eq.
  destruct ((pos <? length tv - 1)%nat && nth (pos + 1) tv false) eqn:E.
  - apply andb_prop in E. destruct E as [E1 E2]. apply Nat.ltb_lt in E1.
    destruct (IH (length tv - (pos + 1))%nat ltac:(lia) (pos + 1)%nat eq_refl)
      as (H1 & H2 & H3).
    repeat split; [lia | intros _; apply H2; lia | exact H3].
  - repeat split; [lia | tauto |].
    apply andb_false_iff in E. destruct E as [E | E]; [| exact E].
    apply Nat.ltb_ge in E. apply nth_overflow. lia.
Qed.

Lemma tie_blocks_step (tv : list bool) (lo : nat) (ivs : list (nat * nat)) :
  nth lo tv false = false -> tie_blocks tv (lo + 1) ivs -> tie_blocks tv lo ivs.
Proof.
  intros Hlo H.
  inversion H as [? Hall | ? start stop rest Hle Hgap Hs Hlen Hstop Hend Hrest]; subst.
  - constructor. intros i Hle.
    destruct (Nat.eq_dec i lo) as [-> | Hne]; [exact Hlo | apply Hall; lia].
  - constructor; try assumption; [lia |].
    intros i [Hle' Hlt].
    destruct (Nat.eq_dec i lo) as [-> | Hne]; [exact Hlo | apply Hgap; lia].
Qed.

Lemma tie_blocks_skip (tv : list bool) (lo : nat) (ivs : list (nat * nat)) :
  nth lo tv false = false -> tie_blocks tv lo ivs -> tie_blocks tv (lo + 1) ivs.
Proof.
  intros Hlo H.
  inversion H as [? Hall | ? start stop rest Hle Hgap Hs Hlen Hstop Hend Hrest]; subst.
  - constructor. intros i Hle. apply Hall. lia.
  - assert (start <> lo) by congruence.
    constructor; try assumption; [lia |].
    intros i Hi. apply Hgap. lia.
Qed.

Lemma collect_ties_spec (tv : list bool) (pos : nat) (acc : list (nat * nat)) :
  exists ivs, collect_ties tv pos acc = acc ++ ivs /\ tie_blocks tv pos ivs.
Proof.
  remember (length tv - pos)%nat as m eqn:Hm.
  revert pos acc Hm. induction m as [m IH] using lt_wf_ind. intros pos acc Hm.
  rewrite collect_ties_eq.
  destruct (pos <? length tv)%nat eqn:E.
  - apply Nat.ltb_lt in E.
    destruct (nth pos tv false) eqn:Et.
    + destruct (extend_tie_spec tv pos) as (H1 & H2 & H3).
      specialize (H2 E).
      destruct (IH (length tv - (extend_tie tv pos + 1))%nat ltac:(lia)
                   (extend_tie tv pos + 1)%nat
                   (acc ++ [(pos, extend_tie tv pos + 2)%nat]) eq_refl)
        as (ivs & Heq & Hb).
      exists ((pos, extend_tie tv pos + 2)%nat :: ivs). split.
      * rewrite Heq, <- app_assoc. reflexivity.
      * constructor; try lia; try assumption.
        -- replace (extend_tie tv pos + 2 - 1)%nat with (extend_tie tv pos + 1)%nat
             by lia. exact H3.
        -- replace (extend_tie tv pos + 2)%nat with (extend_tie tv pos + 1 + 1)%nat
             by lia. apply tie_blocks_skip; assumption.
    + destruct (IH (length tv - (pos + 1))%nat ltac:(lia) (pos + 1)%nat acc eq_refl)
        as (ivs & Heq & Hb).
      exists ivs. split; [exact Heq |]. now apply tie_blocks_step.
  - apply Nat.ltb_ge in E. exists []. split; [now rewrite app_nil_r |].
    constructor. intros i Hi. apply nth_overflow. lia.
Qed.

(** ** Averaging the tie blocks *)

Lemma slice_length {A : Type} (l : list A) (start stop : nat) :
  (stop <= length l)%nat -> length (slice l start stop) = (stop - start)%nat.
Proof.
  intros H. unfold slice. rewrite length_firstn, length_skipn. lia.
Qed.

Lemma slice_split {A : Type} (l : list A) (start stop : nat) :
  (start <= stop)%nat ->
  l = firstn start l ++ slice l start stop ++ skipn stop l.
Proof.
  intros H. unfold slice.
  replace (skipn stop l) with (skipn (stop - start) (skipn start l)).
  - now rewrite !firstn_skipn.
  - rewrite skipn_skipn. f_equal. lia.
Qed.

Lemma slice_assign_length {A : Type} (l : list A) (start stop : nat) (x : A) :
  (start <= stop <= length l)%nat ->
  length (slice_assign l start stop (repeat x (stop - start))) = length l.
Proof.
  intros H. unfold slice_assign.
  rewrite !length_app, length_firstn, repeat_length, length_skipn. lia.
Qed.

Lemma slice_assign_nth {A : Type} (l : list A) (start stop : nat) (x d : A) (i : nat) :
  (start <= stop <= length l)%nat ->
  nth i (slice_assign l start stop (repeat x (stop - start))) d =
  if ((start <=? i) && (i <? stop))%nat then x else nth i l d.
Proof.
  intros H. unfold slice_assign. rewrite Nat.max_r by lia.
  destruct (start <=? i)%nat eqn:E1; simpl.
  - apply Nat.leb_le in E1.
    rewrite app_nth2; rewrite length_firstn, Nat.min_l by lia; [| lia].
    destruct (i <? stop)%nat eqn:E2.
    + apply Nat.ltb_lt in E2.
      rewrite app_nth1 by (rewrite repeat_length; lia).
      apply nth_repeat_lt. lia.
    + apply Nat.ltb_ge in E2.
      rewrite app_nth2; rewrite repeat_length; [| lia].
      rewrite nth_skipn. f_equal. lia.
  - apply Nat.leb_gt in E1.
    rewrite app_nth1 by (rewrite length_firstn; lia).
    rewrite nth_firstn. apply Nat.ltb_lt in E1. now rewrite E1.
Qed.

Lemma mean_ok (data : list R) :
  data <> [] -> mean data = Ok (sum data / INR (length data)).
Proof. destruct data; [congruence | reflexivity]. Qed.

(** Writing its mean over a block keeps the total. *)
Lemma slice_assign_sum (l : list R) (start stop : nat) :
  (start < stop <= length l)%nat ->
  sum (slice_assign l start stop
         (repeat (sum (slice l start stop) / INR (length (slice l start stop)))
                 (stop - start))) = sum l.
Proof.
  intros H.
  assert (Hl : sum l = sum (firstn start l) + sum (slice l start stop)
                       + sum (skipn stop l)).
  { rewrite (slice_split l (start := start) (stop := stop)) at 1 by lia.
    rewrite !sum_app. lra. }
  unfold slice_assign. rewrite Nat.max_r by lia.
  rewrite !sum_app, sum_repeat, slice_length, Hl by lia.
  assert (Hn : INR (stop - start) <> 0) by (apply not_0_INR; lia).
  field. exact Hn.
Qed.

(** The loop over the tie blocks succeeds, keeps the length and the total
    of the scores, leaves the positions in front of the blocks alone and
    makes the scores on both sides of every tie equal. *)
Lemma average_ties_spec (tv : list bool) (lo : nat) (ivs : list (nat * nat)) :
  tie_blocks tv lo ivs ->
  forall scores : list R,
    length scores = (length tv + 1)%nat ->
    exists res,
      average_ties ivs scores = Ok res /\
      length res = length scores /\
      sum res = sum scores /\
      (forall i, (i < lo)%nat -> nth i res 0 = nth i scores 0) /\
      (forall i, (lo <= i)%nat -> nth i tv false = true ->
                 nth i res 0 = nth (i + 1) res 0).
Proof.
  induction 1 as [lo Hall | lo start stop rest Hle Hgap Hs Hlen Hstop Hend Hrest IH];
    intros scores Hlength.
  - exists scores. simpl. repeat split; auto.
    intros i Hi Ht. rewrite Hall in Ht by exact Hi. discriminate.
  - simpl.
    assert (Hne : slice scores start stop <> []).
    { intros E. apply (f_equal (@length R)) in E.
      rewrite slice_length in E by lia. simpl in E. lia. }
    rewrite (mean_ok Hne). simpl.
    set (d := sum (slice scores start stop) / INR (length (slice scores start stop))).
    set (scores' := slice_assign scores start stop (repeat d (stop - start))).
    assert (Hl' : length scores' = length scores)
      by (apply slice_assign_length; lia).
    destruct (IH scores' ltac:(lia)) as (res & Hres & Hl & Hsum & Hlow & Hties).
    exists res. repeat split.
    + exact Hres.
    + lia.
    + rewrite Hsum. apply slice_assign_sum. lia.
    + intros i Hi. rewrite Hlow by lia. unfold scores'.
      rewrite slice_assign_nth by lia.
      replace (start <=? i)%nat with false by (symmetry; apply Nat.leb_gt; lia).
      reflexivity.
    + intros i Hi Ht.
      destruct (Nat.lt_ge_cases i start) as [Hlt | Hge].
      { rewrite Hgap in Ht by lia. discriminate. }
      destruct (Nat.lt_ge_cases i stop) as [Hlt' | Hge'].
      * assert (i <> stop - 1)%nat by congruence.
        rewrite !Hlow by lia. unfold scores'.
        rewrite !slice_assign_nth by lia.
        replace (start <=? i)%nat with true by (symmetry; apply Nat.leb_le; lia).
        replace (i <? stop)%nat with true by (symmetry; apply Nat.ltb_lt; lia).
        replace (start <=? i + 1)%nat with true by (symmetry; apply Nat.leb_le; lia).
        replace (i + 1 <? stop)%nat with true by (symmetry; apply Nat.ltb_lt; lia).
        reflexivity.
      * apply Hties; assumption.
Qed.

(** ** Actual scores *)

Lemma ties_vector_of_length (rv : list Z) :
  length (ties_vector_of rv) = (length rv - 1)%nat.
Proof. unfold ties_vector_of. now rewrite length_map, length_seq. Qed.

Lemma ties_vector_of_nth (rv : list Z) (i : nat) :
  (i + 1 < length rv)%nat ->
  nth i (ties_vector_of rv) false = (nth i rv 0 =? nth (i + 1) rv 0)%Z.
Proof.
  intros H. unfold ties_vector_of.
  rewrite (nth_indep _ false ((nth 0 rv 0 =? nth (0 + 1) rv 0)%Z))
    by (rewrite length_map, length_seq; lia).
  rewrite (map_nth (fun i => (nth i rv 0 =? nth (i + 1) rv 0)%Z)).
  rewrite seq_nth by lia. reflexivity.
Qed.

Lemma averaged_scores_spec (rv : list Z) :
  StronglySorted Z.le rv ->
  exists raw,
    averaged_scores rv = Ok raw /\
    length raw = length rv /\
    sum raw = INR (length rv) * (INR (length rv) - 1) / 2 /\
    (forall i j, (i <= j < length rv)%nat -> nth i rv 0%Z = nth j rv 0%Z ->
                 nth i raw 0 = nth j raw 0).
Proof.
  intros Hsorted. unfold averaged_scores.
  destruct rv as [| r0 rv'] eqn:Erv.
  { exists []. simpl. repeat split; [rewrite sum_nil; lra | intros; simpl in *; lia]. }
  rewrite <- Erv in *. assert (Hpos : (0 < length rv)%nat) by (subst; simpl; lia).
  clear Erv r0 rv'.
  destruct (collect_ties_spec (ties_vector_of rv) 0 []) as (ivs & -> & Hb). simpl.
  destruct (average_ties_spec Hb (map INR (rev (seq 0 (length rv)))))
    as (raw & Hraw & Hlen & Hsum & _ & Hties).
  { rewrite length_map, length_rev, length_seq, ties_vector_of_length. lia. }
  rewrite length_map, length_rev, length_seq in Hlen.
  exists raw. repeat split; try assumption.
  - rewrite Hsum. apply sum_scores_raw.
  - intros i j [Hij Hj] Heq.
    induction j as [| j IH].
    + replace i with 0%nat by lia. reflexivity.
    + destruct (Nat.eq_dec i (S j)) as [-> | Hne]; [reflexivity |].
      pose proof (@sorted_nth_le rv i j Hsorted ltac:(lia)) as H1.
      pose proof (@sorted_nth_le rv j (S j) Hsorted ltac:(lia)) as H2.
      rewrite IH by lia.
      replace (S j) with (j + 1)%nat in * by lia.
      apply Hties; [lia |].
      rewrite ties_vector_of_nth by lia. apply Z.eqb_eq. lia.
Qed.

Lemma combine_keys_wf {V : Type} (ks : list string) (vs : list V) :
  NoDup ks -> NoDup (map fst (combine ks vs)).
Proof.
  intros Hnd. revert vs. induction Hnd as [| k ks Hk Hnd IH]; intros vs; simpl.
  - constructor.
  - destruct vs as [| v vs]; simpl; constructor; [| apply IH].
    intros Hin. apply Hk. apply in_map_iff in Hin.
    destruct Hin as [[k' v'] [E Hin]]. simpl in E. subst k'.
    now apply in_combine_l in Hin.
Qed.

(** The function, unfolded for a dictionary with distinct keys. *)
Lemma get_actual_scores_unfold (ranks : Dict.t Z) :
  Dict.wf ranks ->
  get_actual_scores_multiplayer ranks =
  (scores_raw <- averaged_scores (map snd (sorted_by_rank ranks)) ;;
   scores_normalized <- mapM (fun i => py_div i (sum scores_raw)) scores_raw ;;
   Ok (combine (map fst (sorted_by_rank ranks)) scores_normalized)).
Proof.
  intros Hwf. unfold get_actual_scores_multiplayer, Dict.items, Dict.values, Dict.keys.
  rewrite (of_items_wf (sorted_by_rank ranks)) by (now apply sorted_by_rank_wf).
  unfold averaged_scores.
  destruct (average_ties _ _) as [raw |]; simpl; [| reflexivity].
  destruct (mapM _ raw) as [sc |]; simpl; [| reflexivity].
  rewrite of_items_wf; [reflexivity |].
  apply combine_keys_wf. now apply sorted_by_rank_wf.
Qed.

Lemma normalize_ok (raw : list R) :
  sum raw <> 0 ->
  mapM (fun i => py_div i (sum raw)) raw = Ok (map (fun i => i / sum raw) raw).
Proof.
  intros H. apply mapM_total. intros a _. now apply py_div_ok.
Qed.

Lemma normalize_zero (raw : list R) :
  raw <> [] -> sum raw = 0 ->
  mapM (fun i => py_div i (sum raw)) raw = Raise ZeroDivisionError.
Proof.
  intros Hne H. destruct raw as [| x raw]; [congruence |].
  simpl. rewrite H, py_div_zero. reflexivity.
Qed.

Lemma pair_sum_pos (n : nat) : (2 <= n)%nat -> 0 < INR n * (INR n - 1) / 2.
Proof.
  intros H. apply le_INR in H. simpl in H.
  assert (0 < INR n * (INR n - 1)) by nra. lra.
Qed.

Lemma combine_fst {A B : Type} (l : list A) (l' : list B) :
  length l = length l' -> map fst (combine l l') = l.
Proof.
  revert l'. induction l as [| a l IH]; intros [| b l'] H; simpl in *;
    try reflexivity; try discriminate.
  f_equal. apply IH. lia.
Qed.

Lemma combine_snd {A B : Type} (l : list A) (l' : list B) :
  length l = length l' -> map snd (combine l l') = l'.
Proof.
  revert l'. induction l as [| a l IH]; intros [| b l'] H; simpl in *;
    try reflexivity; try discriminate.
  f_equal. apply IH. lia.
Qed.

Lemma get_actual_scores_ok (ranks : Dict.t Z) :
  Dict.wf ranks -> (2 <= length ranks)%nat ->
  exists raw,
    averaged_scores (map snd (sorted_by_rank ranks)) = Ok raw /\
    length raw = length ranks /\
    sum raw = INR (length ranks) * (INR (length ranks) - 1) / 2 /\
    get_actual_scores_multiplayer ranks =
    Ok (combine (map fst (sorted_by_rank ranks)) (map (fun i => i / sum raw) raw)).
Proof.
  intros Hwf Hn.
  destruct (averaged_scores_spec (sorted_by_rank_sorted ranks))
    as (raw & Hraw & Hlen & Hsum & _).
  rewrite length_map, sorted_by_rank_length in Hlen, Hsum.
  exists raw. repeat split; try assumption.
  rewrite get_actual_scores_unfold, Hraw by assumption. simpl.
  rewrite normalize_ok; [reflexivity |].
  rewrite Hsum. apply Rgt_not_eq, Rlt_gt, pair_sum_pos, Hn.
Qed.

(** C2. With two or more participants and any ranks, the loop over the tie
    blocks keeps the total [n (n - 1) / 2] of the raw scores, the function
    returns, its keys are the participants and its scores add up to 1. *)
Theorem actual_scores_sum_to_one (ranks : Dict.t Z) :
  Dict.wf ranks -> (2 <= length ranks)%nat ->
  exists scores_raw scores,
    averaged_scores (Dict.values (sorted_by_rank ranks)) = Ok scores_raw /\
    sum scores_raw = INR (length ranks) * (INR (length ranks) - 1) / 2 /\
    get_actual_scores_multiplayer ranks = Ok scores /\
    Permutation (Dict.keys scores) (Dict.keys ranks) /\
    sum (Dict.values scores) = 1.
Proof.
  intros Hwf Hn.
  destruct (get_actual_scores_ok Hwf Hn) as (raw & Hraw & Hlen & Hsum & Hget).
  exists raw. eexists. repeat split; try eassumption.
  - unfold Dict.keys. rewrite combine_fst.
    + apply Permutation_map, sorted_by_rank_perm.
    + rewrite !length_map, sorted_by_rank_length. lia.
  - unfold Dict.values. rewrite combine_snd.
    + rewrite sum_map_div. apply Rdiv_diag.
      rewrite Hsum. apply Rgt_not_eq, Rlt_gt, pair_sum_pos, Hn.
    + rewrite !length_map, sorted_by_rank_length. lia.
Qed.

Lemma actual_scores_sum_to_one_witness :
  exists scores_raw scores,
    averaged_scores (Dict.values (sorted_by_rank [("A", 2); ("B", 1); ("C", 2)]%string%Z))
    = Ok scores_raw /\
    sum scores_raw = INR 3 * (INR 3 - 1) / 2 /\
    get_actual_scores_multiplayer [("A", 2); ("B", 1); ("C", 2)]%string%Z = Ok scores /\
    Permutation (Dict.keys scores) ["A"; "B"; "C"]%string /\
    sum (Dict.values scores) = 1.
Proof.
  apply (@actual_scores_sum_to_one [("A", 2); ("B", 1); ("C", 2)]%string%Z).
  - unfold Dict.wf. simpl. repeat constructor; simpl; intuition discriminate.
  - simpl. lia.
Defined.

(** C6. For the ranks [{A:1, B:2, C:2, D:4}] the raw scores [3, 2, 1, 0]
    become [3, 1.5, 1.5, 0] when the two positions of rank 2 take their
    mean, and the function returns [{A: 0.5, B: 0.25, C: 0.25, D: 0}]. *)
Theorem actual_scores_tie_for_second :
  map INR (rev (seq 0 4)) = [3; 2; 1; 0] /\
  averaged_scores (Dict.values (sorted_by_rank [("A", 1); ("B", 2); ("C", 2); ("D", 4)]%string%Z))
  = Ok [3; 1.5; 1.5; 0] /\
  sum [3; 1.5; 1.5; 0] = 6 /\
  get_actual_scores_multiplayer [("A", 1); ("B", 2); ("C", 2); ("D", 4)]%string%Z =
  Ok [("A", 0.5); ("B", 0.25); ("C", 0.25); ("D", 0)]%string.
Proof.
  split; [| split; [| split]].
  - simpl. list_eq_lra.
  - unfold averaged_scores.
    vm_eval (Dict.values (sorted_by_rank [("A", 1); ("B", 2); ("C", 2); ("D", 4)]%string%Z)).
    vm_eval (collect_ties (ties_vector_of [1; 2; 2; 4]%Z) 0 []).
    cbn [map length seq rev app average_ties slice slice_assign
         Nat.sub Nat.max skipn firstn repeat mean bind].
    list_eq_lra.
  - rewrite !sum_cons, sum_nil. lra.
  - unfold get_actual_scores_multiplayer.
    vm_eval (Dict.of_items (sorted_by_rank
               (Dict.items [("A", 1); ("B", 2); ("C", 2); ("D", 4)]%string%Z))).
    vm_eval (collect_ties
               (ties_vector_of
                  (Dict.values [("A", 1); ("B", 2); ("C", 2); ("D", 4)]%string%Z)) 0 []).
    cbn [Dict.values Dict.keys map snd fst length seq rev app average_ties slice
         slice_assign Nat.sub Nat.max skipn firstn repeat mean bind].
    assert (Hsum : sum [INR 3; sum [INR 2; INR 1] / INR 2;
                        sum [INR 2; INR 1] / INR 2; INR 0] = 6).
    { rewrite !sum_cons, sum_nil. simpl. lra. }
    rewrite normalize_ok by (rewrite Hsum; lra).
    rewrite Hsum. unfold Dict.of_items. simpl.
    list_eq_lra.
Qed.

Lemma get_combine_nth {V : Type} (ks : list string) (vs : list V) (i : nat) (d : V) :
  NoDup ks -> (i < length ks)%nat -> length vs = length ks ->
  Dict.get (nth i ks ""%string) (combine ks vs) = Some (nth i vs d).
Proof.
  intros Hnd. revert vs i.
  induction Hnd as [| k ks Hk Hnd IH]; intros vs i Hi Hlen; simpl in *; [lia |].
  destruct vs as [| v vs]; [discriminate |]. simpl.
  destruct i as [| i].
  - now rewrite String.eqb_refl.
  - destruct (String.eqb_spec (nth i ks ""%string) k) as [E | Hne].
    + exfalso. apply Hk. rewrite <- E. apply nth_In. lia.
    + apply IH; simpl in *; lia.
Qed.

Lemma get_combine_notin {V : Type} (ks : list string) (vs : list V) (k : string) :
  ~ In k ks -> Dict.get k (combine ks vs) = None.
Proof.
  intros H. apply get_None. intros Hin. apply H.
  unfold Dict.keys in Hin. apply in_map_iff in Hin.
  destruct Hin as [[k' v] [E Hin]]. simpl in E. subst k'.
  now apply in_combine_l in Hin.
Qed.

Lemma nth_pair {A B : Type} (l : list (A * B)) (i : nat) (a : A) (b : B) :
  nth i l (a, b) = (nth i (map fst l) a, nth i (map snd l) b).
Proof.
  revert i. induction l as [| [x y] l IH]; intros [| i]; simpl; auto.
Qed.

(** Where a key of a sorted dictionary sits, its rank is its rank in the
    dictionary. *)
Lemma sorted_position (ranks : Dict.t Z) (k : string) :
  Dict.wf ranks -> In k (Dict.keys ranks) ->
  exists i r,
    (i < length ranks)%nat /\
    nth i (map fst (sorted_by_rank ranks)) ""%string = k /\
    nth i (map snd (sorted_by_rank ranks)) 0%Z = r /\
    Dict.get k ranks = Some r.
Proof.
  intros Hwf Hin.
  assert (Hin' : In k (map fst (sorted_by_rank ranks))).
  { eapply Permutation_in; [| exact Hin].
    apply Permutation_map, Permutation_sym, sorted_by_rank_perm. }
  destruct (In_nth _ _ ""%string Hin') as (i & Hi & Hk).
  rewrite length_map, sorted_by_rank_length in Hi.
  exists i, (nth i (map snd (sorted_by_rank ranks)) 0%Z).
  repeat split; try assumption.
  apply In_get; [exact Hwf |].
  eapply Permutation_in; [apply sorted_by_rank_perm |].
  replace (k, nth i (map snd (sorted_by_rank ranks)) 0%Z)
    with (nth i (sorted_by_rank ranks) (""%string, 0%Z)).
  - apply nth_In. rewrite sorted_by_rank_length. exact Hi.
  - rewrite <- Hk. apply nth_pair.
Qed.

Lemma wf_perm_get {V : Type} (d1 d2 : Dict.t V) (k : string) :
  Dict.wf d1 -> Permutation d1 d2 -> Dict.get k d1 = Dict.get k d2.
Proof.
  intros Hwf HP.
  assert (Hwf2 : Dict.wf d2).
  { unfold Dict.wf, Dict.keys in *. eapply Permutation_NoDup; [| exact Hwf].
    now apply Permutation_map. }
  destruct (Dict.get k d1) as [v |] eqn:E1.
  - symmetry. apply In_get; [exact Hwf2 |].
    eapply Permutation_in; [exact HP |]. now apply get_In.
  - symmetry. apply get_None. apply get_None in E1. intros Hin. apply E1.
    eapply Permutation_in; [| exact Hin].
    apply Permutation_map, Permutation_sym, HP.
Qed.

Lemma nth_normalized (raw : list R) (t : R) (i : nat) :
  nth i (map (fun x => x / t) raw) 0 = nth i raw 0 / t.
Proof.
  replace 0 with (0 / t) at 1 by (unfold Rdiv; apply Rmult_0_l).
  apply (map_nth (fun x => x / t)).
Qed.

(** C7. Two rank dictionaries with the same pairs in a different insertion
    order get the same scores: the function raises the same exception on
    both or returns dictionaries that are equal key by key. *)
Theorem actual_scores_order_independent (ranks1 ranks2 : Dict.t Z) :
  Dict.wf ranks1 -> Permutation (Dict.items ranks1) (Dict.items ranks2) ->
  match get_actual_scores_multiplayer ranks1, get_actual_scores_multiplayer ranks2 with
  | Ok scores1, Ok scores2 => Dict.equiv scores1 scores2
  | Raise e1, Raise e2 => e1 = e2
  | _, _ => False
  end.
Proof.
  unfold Dict.items. intros Hwf1 HP.
  assert (Hwf2 : Dict.wf ranks2).
  { unfold Dict.wf, Dict.keys in *. eapply Permutation_NoDup; [| exact Hwf1].
    now apply Permutation_map. }
  rewrite !get_actual_scores_unfold by assumption.
  pose proof (rank_vector_perm HP) as Hrv.
  pose proof (Permutation_length HP) as Hn.
  destruct (averaged_scores_spec (sorted_by_rank_sorted ranks1))
    as (raw & Hraw & Hlen & _ & Heq).
  rewrite length_map, sorted_by_rank_length in Hlen, Heq.
  rewrite <- Hrv, Hraw. simpl.
  destruct raw as [| x raw'] eqn:Eraw.
  { simpl. intros k. destruct (map fst (sorted_by_rank ranks1)),
      (map fst (sorted_by_rank ranks2)); reflexivity. }
  rewrite <- Eraw in *. assert (Hne : raw <> []) by (subst; discriminate).
  clear Eraw x raw'.
  destruct (Req_dec (sum raw) 0) as [Hz | Hnz].
  { rewrite normalize_zero by assumption. reflexivity. }
  rewrite normalize_ok by assumption. simpl.
  intros k.
  assert (Hks1 : NoDup (map fst (sorted_by_rank ranks1)))
    by (now apply sorted_by_rank_wf).
  assert (Hks2 : NoDup (map fst (sorted_by_rank ranks2)))
    by (now apply sorted_by_rank_wf).
  destruct (in_dec string_dec k (Dict.keys ranks1)) as [Hin | Hnin].
  - assert (Hin2 : In k (Dict.keys ranks2)).
    { eapply Permutation_in; [| exact Hin]. now apply Permutation_map. }
    destruct (@sorted_position ranks1 k Hwf1 Hin) as (i1 & r1 & Hi1 & Hk1 & Hr1 & Hg1).
    destruct (@sorted_position ranks2 k Hwf2 Hin2) as (i2 & r2 & Hi2 & Hk2 & Hr2 & Hg2).
    rewrite (wf_perm_get k Hwf1 HP), Hg2 in Hg1. injection Hg1 as <-.
    rewrite <- Hrv in Hr2.
    set (sc := map (fun i => i / sum raw) raw).
    assert (Hsc : length sc = length ranks1) by (unfold sc; now rewrite length_map).
    transitivity (Some (nth i1 sc 0)); [| transitivity (Some (nth i2 sc 0))].
    { rewrite <- Hk1. apply get_combine_nth; try assumption;
        rewrite ?length_map, ?sorted_by_rank_length; lia. }
    2: { rewrite <- Hk2. symmetry. apply get_combine_nth; try assumption;
        rewrite ?length_map, ?sorted_by_rank_length; lia. }
    f_equal. unfold sc.
    rewrite !nth_normalized. f_equal.
    destruct (Nat.le_ge_cases i1 i2).
    + apply Heq; [lia | congruence].
    + symmetry. apply Heq; [lia | congruence].
  - rewrite !get_combine_notin; [reflexivity | |].
    + intros Hin. apply Hnin.
      eapply Permutation_in; [| exact Hin].
      apply Permutation_map. rewrite sorted_by_rank_perm. now apply Permutation_sym.
    + intros Hin. apply Hnin.
      eapply Permutation_in; [| exact Hin].
      apply Permutation_map, sorted_by_rank_perm.
Qed.

(** ** Integrals of continuous functions *)

Section Integral.

Variable f : R -> R.
Hypothesis Hf : continuity f.

Lemma integral_eq (a b : R) (pr : Riemann_integrable f a b) :
  RiemannInt pr = integral Hf a b.
Proof. apply RiemannInt_P5. Qed.

Lemma integral_refl (a : R) : integral Hf a a = 0.
Proof. apply RiemannInt_P9. Qed.

Lemma integral_chasles (a b c : R) :
  integral Hf a b + integral Hf b c = integral Hf a c.
Proof. apply RiemannInt_P26. Qed.

(** The fundamental theorem: the integral is a primitive of the integrand. *)
Lemma integral_derivable (a x : R) :
  derivable_pt_lim (fun y => integral Hf a y) x (f x).
Proof.
  assert (Hle : x - 1 <= x + 1) by lra.
  assert (C0 : forall y, x - 1 <= y <= x + 1 -> continuity_pt f y)
    by (intros y _; apply Hf).
  assert (Hprim : forall y, x - 1 <= y <= x + 1 ->
            integral Hf a y
            = integral Hf a (x - 1) + primitive Hle (FTC_P1 Hle C0) y).
  { intros y [H1 H2]. unfold primitive.
    destruct (Rle_dec (x - 1) y) as [r | n]; [| contradiction].
    destruct (Rle_dec y (x + 1)) as [r0 | n]; [| contradiction].
    rewrite (integral_eq (FTC_P1 Hle C0 r r0)).
    symmetry. apply integral_chasles. }
  pose proof (RiemannInt_P28 Hle C0 (x := x) ltac:(lra)) as Hd.
  intros eps Heps. destruct (Hd eps Heps) as [delta Hdelta].
  assert (Hmin : 0 < Rmin delta 1) by (apply Rmin_pos; [apply cond_pos | lra]).
  exists (mkposreal _ Hmin). simpl. intros h Hh0 Hh.
  assert (Hh1 : Rabs h < 1) by (eapply Rlt_le_trans; [exact Hh | apply Rmin_r]).
  assert (Hh2 : Rabs h < delta) by (eapply Rlt_le_trans; [exact Hh | apply Rmin_l]).
  apply Rabs_def2 in Hh1.
  rewrite (Hprim (x + h)), (Hprim x) by lra.
  replace (integral Hf a (x - 1) + primitive Hle (FTC_P1 Hle C0) (x + h)
           - (integral Hf a (x - 1) + primitive Hle (FTC_P1 Hle C0) x))
    with (primitive Hle (FTC_P1 Hle C0) (x + h) - primitive Hle (FTC_P1 Hle C0) x)
    by ring.
  apply Hdelta; assumption.
Qed.

End Integral.

(** A function whose derivative vanishes everywhere is constant. *)
Lemma null_derivative_const (g : R -> R) :
  (forall x, derivable_pt_lim g x 0) -> forall a b, g a = g b.
Proof.
  intros Hg.
  assert (Hlt : forall a b, a < b -> g a = g b).
  { intros a b Hab.
    destruct (MVT_cor2 g (fun _ => 0) a b Hab (fun c _ => Hg c)) as [c [Hc _]].
    lra. }
  intros a b. destruct (Rtotal_order a b) as [H | [-> | H]].
  - now apply Hlt.
  - reflexivity.
  - symmetry. now apply Hlt.
Qed.

(** The integral of a derivative. *)
Lemma integral_of_derivative (f : R -> R) (Hf : continuity f) (Phi : R -> R) :
  (forall t, derivable_pt_lim Phi t (f t)) ->
  forall a b, integral Hf a b = Phi b - Phi a.
Proof.
  intros HPhi a b.
  assert (H : forall x, derivable_pt_lim (fun y => integral Hf a y - Phi y) x 0).
  { intros x. replace 0 with (f x - f x) by ring.
    apply (derivable_pt_lim_minus (fun y => integral Hf a y) Phi).
    - apply integral_derivable.
    - apply HPhi. }
  pose proof (null_derivative_const H a b) as E. cbv beta in E.
  rewrite integral_refl in E. lra.
Qed.

(** ** The integral of [gauss] *)

Lemma gauss_continuous : continuity gauss.
Proof. unfold gauss. reg. Qed.

Lemma gauss_integral_eq (x : R) : gauss_integral x = integral gauss_continuous 0 x.
Proof. apply integral_eq. Qed.

Lemma erf_gauss_integral (x : R) : erf x = 2 / sqrt PI * gauss_integral x.
Proof. reflexivity. Qed.

Lemma gauss_pos (t : R) : 0 < gauss t.
Proof. apply exp_pos. Qed.

Lemma gauss_even (t : R) : gauss (- t) = gauss t.
Proof. unfold gauss. f_equal. ring. Qed.

Lemma gauss_integral_0 : gauss_integral 0 = 0.
Proof. apply RiemannInt_P9. Qed.

Lemma gauss_integral_derivable (x : R) :
  derivable_pt_lim gauss_integral x (gauss x).
Proof.
  apply derivable_pt_lim_ext with (f := fun y => integral gauss_continuous 0 y).
  - intros y. symmetry. apply gauss_integral_eq.
  - apply integral_derivable.
Qed.

Lemma gauss_integral_increasing (x y : R) :
  x < y -> gauss_integral x < gauss_integral y.
Proof.
  intros Hxy.
  destruct (MVT_cor2 gauss_integral gauss x y Hxy
                     (fun c _ => gauss_integral_derivable c)) as [c [Hc _]].
  pose proof (gauss_pos c). nra.
Qed.

Lemma gauss_integral_odd (x : R) : gauss_integral (- x) = - gauss_integral x.
Proof.
  assert (H : forall t,
             derivable_pt_lim (fun y => gauss_integral y + gauss_integral (- y)) t 0).
  { intros t. replace 0 with (gauss t + gauss (- t) * -1)
      by (rewrite gauss_even; ring).
    apply (derivable_pt_lim_plus gauss_integral (fun y => gauss_integral (- y))).
    - apply gauss_integral_derivable.
    - apply (derivable_pt_lim_comp Ropp gauss_integral).
      + apply (derivable_pt_lim_opp id). apply derivable_pt_lim_id.
      + apply gauss_integral_derivable. }
  pose proof (null_derivative_const H x 0) as E. cbv beta in E.
  rewrite Ropp_0, gauss_integral_0 in E. lra.
Qed.

(** ** The bound [sqrt PI / 2] on the integral of [gauss] *)

Lemma exp_quadratic (u : R) : u <= 1 / 2 -> 0 <= exp u - 1 - u <= 2 * (u * u).
Proof.
  intros Hu. split.
  - pose proof (exp_ineq1_le u). lra.
  - pose proof (exp_ineq1_le (- u)) as H1.
    assert (H2 : exp u * exp (- u) = 1)
      by (rewrite <- exp_plus, Rplus_opp_r; apply exp_0).
    pose proof (exp_pos u) as H3.
    assert (H4 : exp u * (1 - u) <= 1) by nra.
    assert (H5 : 1 <= (1 + u + 2 * (u * u)) * (1 - u)) by nra.
    assert (H6 : 0 <= (1 + u + 2 * (u * u) - exp u) * (1 - u)) by lra.
    assert (H7 : 0 <= 1 + u + 2 * (u * u) - exp u).
    { apply Rmult_le_reg_r with (1 - u); lra. }
    lra.
Qed.

Lemma exp_neg_le_1 (y : R) : 0 <= y -> 0 < exp (- y) <= 1.
Proof.
  intros Hy. split; [apply exp_pos |].
  pose proof (exp_ineq1_le y) as H1.
  assert (H2 : exp (- y) * exp y = 1)
    by (rewrite <- exp_plus, Rplus_opp_l; apply exp_0).
  pose proof (exp_pos (- y)). nra.
Qed.

(** The first-order expansion of [phi] in its first argument, with a
    remainder that is quadratic in the increment. *)
Lemma phi_expansion (x d t : R) :
  0 <= t <= 1 ->
  Rabs d <= 1 -> Rabs d * (4 * (2 * Rabs x + 1)) <= 1 ->
  Rabs (phi (x + d) t - phi x t - d * psi x t)
  <= (8 * ((2 * Rabs x + 1) * (2 * Rabs x + 1)) + 1) * (d * d).
Proof.
  intros Ht Hd1 Hd2.
  set (M := 2 * Rabs x + 1) in *.
  set (q := 1 + t * t).
  set (A := exp (- (x * x * q))).
  set (w := 2 * x * d + d * d).
  set (u := - (w * q)).
  assert (Hax : 0 <= Rabs x) by apply Rabs_pos.
  assert (Had : 0 <= Rabs d) by apply Rabs_pos.
  assert (HM : 1 <= M) by (unfold M; lra).
  assert (Hq : 1 <= q <= 2) by (unfold q; nra).
  assert (Hdd : d * d = Rabs d * Rabs d).
  { rewrite <- Rabs_mult. symmetry. apply Rabs_pos_eq. nra. }
  assert (HA : 0 < A <= 1) by (apply exp_neg_le_1; nra).
  assert (Hphi : phi (x + d) t = A * exp u / q).
  { unfold phi, A, u, w. fold q. rewrite <- exp_plus. do 2 f_equal. ring. }
  assert (Hsplit : phi (x + d) t - phi x t - d * psi x t
                   = A / q * (exp u - 1 - u) - A * (d * d)).
  { rewrite Hphi. unfold phi, psi, u, w. fold q. fold A. field. lra. }
  rewrite Hsplit.
  assert (Hw : Rabs w <= Rabs d * M).
  { unfold w, M.
    eapply Rle_trans; [apply Rabs_triang |].
    rewrite !Rabs_mult, (Rabs_pos_eq 2) by lra. nra. }
  assert (Hu : Rabs u <= 2 * (Rabs d * M)).
  { unfold u. rewrite Rabs_Ropp, Rabs_mult, (Rabs_pos_eq q) by lra.
    pose proof (Rabs_pos w). nra. }
  assert (Hu1 : u <= 1 / 2).
  { eapply Rle_trans; [apply Rle_abs |]. lra. }
  assert (Huu : u * u <= 4 * (M * M) * (d * d)).
  { replace (u * u) with (Rabs u * Rabs u).
    - pose proof (Rabs_pos u). rewrite Hdd. nra.
    - rewrite <- Rabs_mult. apply Rabs_pos_eq. nra. }
  pose proof (exp_quadratic Hu1) as [Hr0 Hr1].
  assert (HAq : 0 <= A / q <= 1).
  { split.
    - apply Rmult_le_pos; [lra |]. apply Rlt_le, Rinv_0_lt_compat. lra.
    - apply Rmult_le_reg_r with q; [lra |].
      unfold Rdiv. rewrite Rmult_assoc, Rinv_l by lra. lra. }
  assert (Hdd0 : 0 <= d * d) by nra.
  apply Rabs_le. split.
  - assert (0 <= A / q * (exp u - 1 - u)) by (apply Rmult_le_pos; lra).
    assert (A * (d * d) <= d * d) by nra.
    assert (0 <= M * M * (d * d)) by (apply Rmult_le_pos; nra).
    lra.
  - assert (A / q * (exp u - 1 - u) <= exp u - 1 - u) by nra.
    assert (0 <= A * (d * d)) by (apply Rmult_le_pos; lra).
    lra.
Qed.

Lemma phi_continuous (x : R) : continuity (phi x).
Proof. unfold phi. reg. intros; nra. Qed.

Lemma psi_continuous (x : R) : continuity (psi x).
Proof. unfold psi. reg. Qed.

Lemma continuity_linear (f g : R -> R) (l : R) :
  continuity f -> continuity g -> continuity (fun t => f t + l * g t).
Proof.
  intros Hf Hg.
  exact (continuity_plus f (mult_real_fct l g) Hf (continuity_scal g l Hg)).
Qed.

Lemma integral_linear (f g : R -> R) (l : R)
      (Hf : continuity f) (Hg : continuity g) (a b : R) :
  integral (continuity_linear l Hf Hg) a b
  = integral Hf a b + l * integral Hg a b.
Proof. apply RiemannInt_P13. Qed.

Lemma integral_bound (f : R -> R) (Hf : continuity f) (a b l u : R) :
  a <= b -> (forall t, a <= t <= b -> l <= f t <= u) ->
  l * (b - a) <= integral Hf a b <= u * (b - a).
Proof.
  intros Hab H. apply RiemannInt_const_bound; [exact Hab |].
  intros t Ht. apply H. lra.
Qed.

Lemma phi_integral_eq (x : R) : phi_integral x = integral (phi_continuous x) 0 1.
Proof. apply integral_eq. Qed.

Lemma psi_integral (x : R) :
  integral (psi_continuous x) 0 1 = - 2 * gauss x * gauss_integral x.
Proof.
  rewrite (@integral_of_derivative (psi x) (psi_continuous x)
             (fun t => - 2 * gauss x * gauss_integral (x * t))).
  - rewrite Rmult_1_r, Rmult_0_r, gauss_integral_0. ring.
  - intros t.
    replace (psi x t) with (- 2 * gauss x * (gauss (x * t) * (x * 1))).
    + apply (derivable_pt_lim_scal (fun t => gauss_integral (x * t))).
      apply (derivable_pt_lim_comp (fun t => x * t) gauss_integral).
      * apply (derivable_pt_lim_scal id). apply derivable_pt_lim_id.
      * apply gauss_integral_derivable.
    + unfold psi, gauss.
      replace (- (x * x * (1 + t * t))) with (- (x * x) + - (x * t * (x * t))) by ring.
      rewrite exp_plus. ring.
Qed.

Lemma phi_integral_derivable (x : R) :
  derivable_pt_lim phi_integral x (- 2 * gauss x * gauss_integral x).
Proof.
  set (M := 2 * Rabs x + 1).
  set (C := 8 * (M * M) + 1).
  assert (HM : 1 <= M) by (unfold M; pose proof (Rabs_pos x); lra).
  assert (HC : 1 <= C) by (unfold C; nra).
  assert (Hbound : forall d, Rabs d <= 1 -> Rabs d * (4 * M) <= 1 ->
             Rabs (phi_integral (x + d) - phi_integral x
                   - d * (- 2 * gauss x * gauss_integral x)) <= C * (d * d)).
  { intros d Hd1 Hd2. rewrite <- psi_integral, !phi_integral_eq.
    replace (integral (phi_continuous (x + d)) 0 1 - integral (phi_continuous x) 0 1
             - d * integral (psi_continuous x) 0 1)
      with (integral (continuity_linear (- d)
                        (continuity_linear (- 1) (phi_continuous (x + d))
                                           (phi_continuous x))
                        (psi_continuous x)) 0 1)
      by (rewrite !integral_linear; ring).
    assert (Hdd : 0 <= C * (d * d)) by nra.
    apply Rabs_le.
    replace (- (C * (d * d))) with (- (C * (d * d)) * (1 - 0)) by ring.
    replace (C * (d * d)) with (C * (d * d) * (1 - 0)) at 2 by ring.
    apply integral_bound; [lra |].
    intros t Ht.
    pose proof (@phi_expansion x d t Ht Hd1 Hd2) as He. fold M C in He.
    replace (phi (x + d) t + -1 * phi x t + - d * psi x t)
      with (phi (x + d) t - phi x t - d * psi x t) by ring.
    unfold Rabs in He. destruct (Rcase_abs _) in He; lra. }
  intros eps Heps.
  assert (Hdelta : 0 < Rmin (/ (4 * M)) (eps / (C + 1))).
  { apply Rmin_pos.
    - apply Rinv_0_lt_compat. lra.
    - apply Rdiv_lt_0_compat; lra. }
  exists (mkposreal _ Hdelta). simpl. intros d Hd0 Hd.
  assert (Hd1 : Rabs d < / (4 * M))
    by (eapply Rlt_le_trans; [exact Hd | apply Rmin_l]).
  assert (Hd2 : Rabs d < eps / (C + 1))
    by (eapply Rlt_le_trans; [exact Hd | apply Rmin_r]).
  assert (Had : 0 < Rabs d) by (now apply Rabs_pos_lt).
  assert (Hinv : / (4 * M) <= / 4).
  { apply Rinv_le_contravar; lra. }
  assert (Hd3 : Rabs d * (4 * M) <= 1).
  { apply Rlt_le in Hd1.
    apply Rmult_le_compat_r with (r := 4 * M) in Hd1; [| lra].
    rewrite Rinv_l in Hd1 by lra. exact Hd1. }
  specialize (Hbound d ltac:(lra) Hd3).
  replace ((phi_integral (x + d) - phi_integral x) / d
           - - 2 * gauss x * gauss_integral x)
    with ((phi_integral (x + d) - phi_integral x
           - d * (- 2 * gauss x * gauss_integral x)) / d)
    by (field; exact Hd0).
  unfold Rdiv. rewrite Rabs_mult, Rabs_inv.
  assert (Hdd : d * d = Rabs d * Rabs d).
  { rewrite <- Rabs_mult. symmetry. apply Rabs_pos_eq. nra. }
  rewrite Hdd in Hbound.
  apply Rle_lt_trans with (C * Rabs d).
  - apply Rmult_le_reg_r with (Rabs d); [exact Had |].
    rewrite Rmult_assoc, Rinv_l by lra. lra.
  - apply Rmult_lt_compat_r with (r := C + 1) in Hd2; [| lra].
    unfold Rdiv in Hd2. rewrite Rmult_assoc, Rinv_l in Hd2 by lra. nra.
Qed.

Lemma phi_integral_0 : phi_integral 0 = PI / 4.
Proof.
  rewrite phi_integral_eq.
  rewrite (@integral_of_derivative (phi 0) (phi_continuous 0) atan).
  - rewrite atan_1, atan_0. ring.
  - intros t. replace (phi 0 t) with (/ (1 + t ^ 2)).
    + apply derivable_pt_lim_atan.
    + unfold phi. replace (- (0 * 0 * (1 + t * t))) with 0 by ring.
      rewrite exp_0. unfold Rdiv. rewrite Rmult_1_l. f_equal. ring.
Qed.

Lemma phi_integral_nonneg (x : R) : 0 <= phi_integral x.
Proof.
  rewrite phi_integral_eq.
  destruct (@integral_bound (phi x) (phi_continuous x) 0 1 0 1 ltac:(lra)) as [H _].
  - intros t Ht. unfold phi.
    assert (Hq : 1 <= 1 + t * t) by nra.
    destruct (@exp_neg_le_1 (x * x * (1 + t * t)) ltac:(nra)) as [H1 H2].
    split.
    + apply Rmult_le_pos; [lra |]. apply Rlt_le, Rinv_0_lt_compat. lra.
    + apply Rmult_le_reg_r with (1 + t * t); [lra |].
      unfold Rdiv. rewrite Rmult_assoc, Rinv_l by lra. lra.
  - lra.
Qed.

(** The square of the Gaussian integral and the parametric integral add up
    to a constant. *)
Lemma gauss_integral_sqr (x : R) :
  gauss_integral x * gauss_integral x + phi_integral x = PI / 4.
Proof.
  assert (H : forall t,
             derivable_pt_lim
               (fun y => gauss_integral y * gauss_integral y + phi_integral y) t 0).
  { intros t.
    replace 0 with (gauss t * gauss_integral t + gauss_integral t * gauss t
                    + - 2 * gauss t * gauss_integral t) by ring.
    apply (derivable_pt_lim_plus (fun y => gauss_integral y * gauss_integral y)
                                 phi_integral).
    - apply (derivable_pt_lim_mult gauss_integral gauss_integral);
        apply gauss_integral_derivable.
    - apply phi_integral_derivable. }
  pose proof (null_derivative_const H x 0) as E. cbv beta in E.
  rewrite E, gauss_integral_0, phi_integral_0. ring.
Qed.

Lemma sqrt_PI_pos : 0 < sqrt PI.
Proof. apply sqrt_lt_R0, PI_RGT_0. Qed.

Lemma gauss_integral_le (x : R) : gauss_integral x <= sqrt PI / 2.
Proof.
  pose proof (gauss_integral_sqr x) as Hs.
  pose proof (phi_integral_nonneg x) as Hp.
  pose proof sqrt_PI_pos as Hpi.
  assert (Hsq : sqrt PI / 2 * (sqrt PI / 2) = PI / 4).
  { replace (sqrt PI / 2 * (sqrt PI / 2)) with (sqrt PI * sqrt PI / 4) by field.
    rewrite sqrt_sqrt by (apply Rlt_le, PI_RGT_0). reflexivity. }
  destruct (Rle_lt_dec (gauss_integral x) (sqrt PI / 2)) as [H | H]; [exact H |].
  exfalso. nra.
Qed.

Lemma gauss_integral_lt (x : R) : gauss_integral x < sqrt PI / 2.
Proof.
  apply Rlt_le_trans with (gauss_integral (x + 1)).
  - apply gauss_integral_increasing. lra.
  - apply gauss_integral_le.
Qed.

(** ** Properties of [erf] *)

Lemma erf_odd (x : R) : erf (- x) = - erf x.
Proof. rewrite !erf_gauss_integral, gauss_integral_odd. ring. Qed.

Lemma erf_increasing (x y : R) : x < y -> erf x < erf y.
Proof.
  intros Hxy. rewrite !erf_gauss_integral.
  apply Rmult_lt_compat_l.
  - apply Rdiv_lt_0_compat; [lra | apply sqrt_PI_pos].
  - now apply gauss_integral_increasing.
Qed.

Lemma erf_lt_1 (x : R) : erf x < 1.
Proof.
  rewrite erf_gauss_integral.
  pose proof (gauss_integral_lt x) as H.
  pose proof sqrt_PI_pos as Hpi.
  apply Rmult_lt_reg_r with (sqrt PI / 2); [lra |].
  replace (2 / sqrt PI * gauss_integral x * (sqrt PI / 2))
    with (gauss_integral x) by (field; lra).
  lra.
Qed.

Lemma erf_0 : erf 0 = 0.
Proof.
  pose proof (erf_odd 0) as H. rewrite Ropp_0 in H. lra.
Qed.

Lemma erf_gt_m1 (x : R) : -1 < erf x.
Proof.
  pose proof (erf_lt_1 (- x)) as H. rewrite erf_odd in H. lra.
Qed.

(** ** The probability functions *)

Section ProbabilityFacts.

Variables b c : R.
Hypothesis c_pos : 0 < c.
Hypothesis b_gt_1 : 1 < b.

Lemma sqrt2_pos : 0 < sqrt 2.
Proof. apply sqrt_lt_R0. lra. Qed.

Lemma p_normal_range (x : R) : 0 < p_normal c x < 1.
Proof.
  unfold p_normal. cbv zeta.
  pose proof (erf_lt_1 (x / (sqrt 2 * c) / sqrt 2)).
  pose proof (erf_gt_m1 (x / (sqrt 2 * c) / sqrt 2)).
  lra.
Qed.

Lemma p_normal_increasing (x y : R) : x < y -> p_normal c x < p_normal c y.
Proof.
  intros Hxy. unfold p_normal. cbv zeta.
  pose proof sqrt2_pos as Hs.
  assert (H : x / (sqrt 2 * c) / sqrt 2 < y / (sqrt 2 * c) / sqrt 2).
  { unfold Rdiv. apply Rmult_lt_compat_r; [now apply Rinv_0_lt_compat |].
    apply Rmult_lt_compat_r; [| exact Hxy].
    apply Rinv_0_lt_compat. nra. }
  apply erf_increasing in H. lra.
Qed.

Lemma p_normal_0 : p_normal c 0 = 0.5.
Proof.
  unfold p_normal. cbv zeta.
  replace (0 / (sqrt 2 * c) / sqrt 2) with 0 by (unfold Rdiv; ring).
  rewrite erf_0. lra.
Qed.

Lemma p_normal_sym (x : R) : p_normal c (- x) = 1 - p_normal c x.
Proof.
  unfold p_normal. cbv zeta.
  replace (- x / (sqrt 2 * c) / sqrt 2) with (- (x / (sqrt 2 * c) / sqrt 2))
    by (unfold Rdiv; ring).
  rewrite erf_odd. lra.
Qed.

Lemma Rpower_pos (x y : R) : 0 < Rpower x y.
Proof. unfold Rpower. apply exp_pos. Qed.

Lemma p_logistic_range (x : R) : 0 < p_logistic b c x < 1.
Proof.
  unfold p_logistic.
  pose proof (Rpower_pos b (- x / c)) as Hu.
  set (u := Rpower b (- x / c)) in *.
  split.
  - apply Rdiv_lt_0_compat; lra.
  - apply Rmult_lt_reg_r with (1 + u); [lra |].
    unfold Rdiv. rewrite Rmult_assoc, Rinv_l by lra. lra.
Qed.

Lemma p_logistic_increasing (x y : R) : x < y -> p_logistic b c x < p_logistic b c y.
Proof.
  intros Hxy. unfold p_logistic.
  pose proof (Rpower_pos b (- x / c)) as Hu.
  pose proof (Rpower_pos b (- y / c)) as Hv.
  assert (H : Rpower b (- y / c) < Rpower b (- x / c)).
  { apply Rpower_lt; [exact b_gt_1 |].
    unfold Rdiv. apply Rmult_lt_compat_r; [now apply Rinv_0_lt_compat | lra]. }
  unfold Rdiv. rewrite !Rmult_1_l.
  apply Rinv_lt_contravar; [nra | lra].
Qed.

Lemma p_logistic_0 : p_logistic b c 0 = 0.5.
Proof.
  unfold p_logistic.
  replace (- 0 / c) with 0 by (unfold Rdiv; ring).
  rewrite Rpower_O by lra. lra.
Qed.

Lemma p_logistic_sym (x : R) : p_logistic b c (- x) = 1 - p_logistic b c x.
Proof.
  unfold p_logistic.
  replace (- - x / c) with (- (- x / c)) by (unfold Rdiv; ring).
  rewrite Rpower_Ropp.
  pose proof (Rpower_pos b (- x / c)) as Hu.
  set (u := Rpower b (- x / c)) in *.
  field. split; lra.
Qed.

(** C4. With a spread coefficient [c > 0] and a base [b > 1], both
    probability functions take their values strictly between 0 and 1,
    are increasing, give one half at [0] and satisfy
    [P (- x) = 1 - P x]. *)
Theorem probability_contract (P : R -> R) :
  P = p_normal c \/ P = p_logistic b c ->
  (forall x, 0 < P x < 1) /\
  (forall x y, x < y -> P x < P y) /\
  P 0 = 0.5 /\
  (forall x, P (- x) = 1 - P x).
Proof.
  intros [-> | ->].
  - repeat split; try apply p_normal_range.
    + apply p_normal_increasing.
    + apply p_normal_0.
    + apply p_normal_sym.
  - repeat split; try apply p_logistic_range.
    + apply p_logistic_increasing.
    + apply p_logistic_0.
    + apply p_logistic_sym.
Qed.

End ProbabilityFacts.

(** ** Expected scores *)

Lemma opponents_notin (p : string) (ks : list string) :
  ~ In p ks -> opponents p ks = ks.
Proof.
  induction ks as [| k ks IH]; simpl; intros H; [reflexivity |].
  destruct (String.eqb_spec k p) as [-> | Hne]; simpl.
  - exfalso. apply H. now left.
  - f_equal. apply IH. tauto.
Qed.

Section ExpectedFacts.

Variable P : R -> R.

Lemma expected_score_ok (ratings : Dict.t R) (player : string) :
  In player (Dict.keys ratings) -> (2 <= length ratings)%nat ->
  get_expected_score_multiplayer P player ratings =
  Ok (pairwise_sum P (rating_of ratings) (Dict.keys ratings) player
      / INR (comb (length ratings) 2)).
Proof.
  intros Hin Hn. unfold get_expected_score_multiplayer.
  fold (opponents player (Dict.keys ratings)).
  rewrite (mapM_total _ (fun o => rating_of ratings player - rating_of ratings o)).
  - simpl. apply py_div_ok. rewrite comb_2.
    apply Rgt_not_eq, Rlt_gt, pair_sum_pos, Hn.
  - intros o Ho. apply filter_In in Ho. destruct Ho as [Ho _].
    unfold rating_of, Dict.getitem.
    destruct (In_keys_get _ _ Hin) as [r ->].
    destruct (In_keys_get _ _ Ho) as [r' ->]. reflexivity.
Qed.

Hypothesis P_sym : forall x, P (- x) = 1 - P x.

(** Every unordered pair contributes 1 to the pairwise sums. *)
Lemma pairwise_sum_total (r : string -> R) (ks : list string) :
  NoDup ks ->
  sum (map (pairwise_sum P r ks) ks) = INR (length ks) * (INR (length ks) - 1) / 2.
Proof.
  induction 1 as [| a ks Ha Hnd IH].
  - simpl. rewrite sum_nil. lra.
  - cbn [map length]. rewrite sum_cons, S_INR.
    assert (Hhead : pairwise_sum P r (a :: ks) a = sum (map (fun o => P (r a - r o)) ks)).
    { unfold pairwise_sum, opponents. simpl. rewrite String.eqb_refl. simpl.
      fold (opponents a ks). rewrite opponents_notin by assumption.
      now rewrite map_map. }
    assert (Htail : sum (map (pairwise_sum P r (a :: ks)) ks) =
                    sum (map (fun p => P (r p - r a)) ks)
                    + sum (map (pairwise_sum P r ks) ks)).
    { rewrite <- sum_map_plus. apply sum_map_ext. intros p Hp.
      unfold pairwise_sum, opponents. simpl.
      destruct (String.eqb_spec a p) as [-> | Hne]; [contradiction |].
      simpl. now rewrite sum_cons. }
    rewrite Hhead, Htail, IH, <- Rplus_assoc, <- sum_map_plus.
    rewrite (sum_map_ext _ (fun _ => 1)), sum_map_const.
    + lra.
    + intros o _. replace (r o - r a) with (- (r a - r o)) by ring.
      rewrite P_sym. lra.
Qed.

Lemma expected_scores_total (ratings : Dict.t R) :
  Dict.wf ratings -> (2 <= length ratings)%nat ->
  exists expected,
    mapM (fun player => get_expected_score_multiplayer P player ratings)
         (Dict.keys ratings) = Ok expected /\
    sum expected = 1.
Proof.
  intros Hwf Hn. eexists. split.
  - apply mapM_total. intros p Hp. now apply expected_score_ok.
  - set (C := INR (comb (length ratings) 2)).
    rewrite <- (map_map (pairwise_sum P (rating_of ratings) (Dict.keys ratings))
                        (fun s => s / C)).
    rewrite sum_map_div, pairwise_sum_total by exact Hwf.
    unfold C, Dict.keys. rewrite length_map, comb_2.
    apply Rdiv_diag, Rgt_not_eq, Rlt_gt, pair_sum_pos, Hn.
Qed.

End ExpectedFacts.

(** C3. For a rating dictionary of two or more participants and either
    probability function, the expected score of every participant is
    computed and the expected scores add up to 1. *)
Theorem expected_scores_sum_to_one (b c : R) (P : R -> R) (ratings : Dict.t R) :
  0 < c -> 1 < b -> P = p_normal c \/ P = p_logistic b c ->
  Dict.wf ratings -> (2 <= length ratings)%nat ->
  exists expected,
    mapM (fun player => get_expected_score_multiplayer P player ratings)
         (Dict.keys ratings) = Ok expected /\
    (forall i, (i < length ratings)%nat ->
       nth i expected 0 =
       sum (map P (map (fun o => rating_of ratings (nth i (Dict.keys ratings) ""%string)
                                 - rating_of ratings o)
                       (opponents (nth i (Dict.keys ratings) ""%string)
                                  (Dict.keys ratings))))
       / INR (comb (length ratings) 2)) /\
    sum expected = 1.
Proof.
  intros Hc Hb HP Hwf Hn.
  assert (Hsym : forall x, P (- x) = 1 - P x).
  { destruct HP as [-> | ->]; [apply p_normal_sym | now apply p_logistic_sym]. }
  destruct (expected_scores_total P Hsym Hwf Hn) as (expected & Hex & Hsum).
  exists expected. repeat split; try assumption.
  intros i Hi.
  rewrite (mapM_total _ (fun p => pairwise_sum P (rating_of ratings) (Dict.keys ratings) p
                                  / INR (comb (length ratings) 2))) in Hex.
  - injection Hex as <-.
    rewrite (nth_indep _ 0 (pairwise_sum P (rating_of ratings) (Dict.keys ratings) ""%string
                            / INR (comb (length ratings) 2)))
      by (unfold Dict.keys; rewrite !length_map; exact Hi).
    rewrite (map_nth (fun p => pairwise_sum P (rating_of ratings) (Dict.keys ratings) p
                               / INR (comb (length ratings) 2))).
    reflexivity.
  - intros p Hp. now apply expected_score_ok.
Qed.

(** ** Rating changes *)

Lemma rating_of_map_pair (ks : list string) (g : string -> R) (k : string) :
  In k ks -> rating_of (map (fun p => (p, g p)) ks) k = g k.
Proof.
  intros H. unfold rating_of. rewrite get_map_pair.
  destruct (in_dec string_dec k ks); [reflexivity | contradiction].
Qed.

Lemma getitem_map_pair (ks : list string) (g : string -> R) (k : string) :
  In k ks -> Dict.getitem k (map (fun p => (p, g p)) ks) = Ok (g k).
Proof.
  intros H. unfold Dict.getitem. rewrite get_map_pair.
  destruct (in_dec string_dec k ks); [reflexivity | contradiction].
Qed.

Lemma getitem_rating_of (d : Dict.t R) (k : string) :
  In k (Dict.keys d) -> Dict.getitem k d = Ok (rating_of d k).
Proof.
  intros H. unfold Dict.getitem, rating_of.
  destruct (In_keys_get _ _ H) as [v ->]. reflexivity.
Qed.

Lemma get_rating_of (d : Dict.t R) (k : string) :
  In k (Dict.keys d) -> Dict.get k d = Some (rating_of d k).
Proof.
  intros H. unfold rating_of.
  destruct (In_keys_get _ _ H) as [v ->]. reflexivity.
Qed.

Lemma pairwise_sum_ext (P : R -> R) (r r' : string -> R) (ks : list string) (p : string) :
  In p ks -> (forall k, In k ks -> r k = r' k) ->
  pairwise_sum P r ks p = pairwise_sum P r' ks p.
Proof.
  intros Hp H. unfold pairwise_sum. f_equal. f_equal.
  apply map_ext_in. intros o Ho. apply filter_In in Ho.
  rewrite (H p Hp), (H o (proj1 Ho)). reflexivity.
Qed.

Section ChangesFacts.

Variable P : R -> R.
Variable K : R.
Variables (ratings : Dict.t R) (ranks : Dict.t Z).

Hypothesis ranks_wf : Dict.wf ranks.
Hypothesis two_players : (2 <= length ranks)%nat.
Hypothesis players_rated :
  forall p, In p (Dict.keys ranks) -> In p (Dict.keys ratings).

Lemma initial_ratings_ok :
  dict_comp (Dict.keys ranks) (fun player => Dict.getitem player ratings)
  = Ok (initial_ratings_of ratings ranks).
Proof.
  apply dict_comp_total; [exact ranks_wf |].
  intros k Hk. apply getitem_rating_of. now apply players_rated.
Qed.

Lemma expected_scores_ok :
  dict_comp (Dict.keys ranks)
    (fun player => get_expected_score_multiplayer P player (initial_ratings_of ratings ranks))
  = Ok (expected_scores_of P ratings ranks).
Proof.
  apply dict_comp_total; [exact ranks_wf |].
  intros k Hk. rewrite expected_score_ok.
  - unfold initial_ratings_of. rewrite keys_map_pair, length_map.
    unfold Dict.keys at 3. rewrite length_map. do 2 f_equal.
    apply pairwise_sum_ext; [exact Hk |].
    intros k' Hk'. now apply rating_of_map_pair.
  - unfold initial_ratings_of. now rewrite keys_map_pair.
  - unfold initial_ratings_of, Dict.keys. now rewrite !length_map.
Qed.

Lemma actual_scores_keys (actual : Dict.t R) :
  get_actual_scores_multiplayer ranks = Ok actual ->
  Dict.wf actual /\ Permutation (Dict.keys actual) (Dict.keys ranks).
Proof.
  destruct (get_actual_scores_ok ranks_wf two_players) as (raw & _ & Hlen & _ & ->).
  intros H. injection H as <-.
  assert (Hk : Dict.keys (combine (map fst (sorted_by_rank ranks))
                                  (map (fun i => i / sum raw) raw))
               = map fst (sorted_by_rank ranks)).
  { apply combine_fst. rewrite !length_map, sorted_by_rank_length. lia. }
  unfold Dict.wf. rewrite Hk. split.
  - now apply sorted_by_rank_wf.
  - apply Permutation_map, sorted_by_rank_perm.
Qed.

Lemma rating_changes_ok (actual : Dict.t R) :
  get_actual_scores_multiplayer ranks = Ok actual ->
  get_rating_changes_multiplayer P ratings ranks K = Ok (rating_changes_of P K ratings ranks actual).
Proof.
  intros Hact. unfold get_rating_changes_multiplayer.
  rewrite initial_ratings_ok. cbn [bind].
  rewrite expected_scores_ok. cbn [bind]. rewrite Hact. cbn [bind].
  destruct (actual_scores_keys Hact) as [Hwf HP].
  rewrite (@dict_comp_total _ (Dict.keys ranks) _
             (fun p => K * (rating_of actual p - rating_of (expected_scores_of P ratings ranks) p))
             ranks_wf).
  - cbn [bind]. unfold rating_changes_of.
    apply dict_comp_total; [exact ranks_wf |].
    intros k Hk. rewrite getitem_map_pair by exact Hk. cbn [bind].
    unfold Dict.keys. now rewrite length_map.
  - intros k Hk. rewrite getitem_rating_of.
    + cbn [bind]. rewrite getitem_rating_of; [reflexivity |].
      unfold expected_scores_of. now rewrite keys_map_pair.
    + eapply Permutation_in; [apply Permutation_sym; exact HP | exact Hk].
Qed.

End ChangesFacts.

Lemma sum_rating_of_keys (d : Dict.t R) :
  Dict.wf d -> sum (map (rating_of d) (Dict.keys d)) = sum (Dict.values d).
Proof.
  unfold Dict.wf. induction d as [| [k v] d IH]; simpl; intros Hnd.
  - reflexivity.
  - inversion Hnd as [| ? ? Hk Hnd']; subst. rewrite !sum_cons.
    unfold rating_of at 1. simpl. rewrite String.eqb_refl. f_equal.
    rewrite <- IH by assumption. apply sum_map_ext. intros k' Hk'.
    unfold rating_of. simpl.
    destruct (String.eqb_spec k' k) as [-> | Hne]; [contradiction | reflexivity].
Qed.

Section ChangesSum.

Variable P : R -> R.
Variable K : R.
Variables (ratings : Dict.t R) (ranks : Dict.t Z).

Hypothesis P_sym : forall x, P (- x) = 1 - P x.
Hypothesis ranks_wf : Dict.wf ranks.
Hypothesis two_players : (2 <= length ranks)%nat.

Lemma sum_expected_scores_of :
  sum (map (rating_of (expected_scores_of P ratings ranks)) (Dict.keys ranks)) = 1.
Proof.
  unfold expected_scores_of.
  rewrite (sum_map_ext _ (fun p => pairwise_sum P (rating_of ratings) (Dict.keys ranks) p
                                   / INR (comb (length ranks) 2))).
  - rewrite <- (map_map (pairwise_sum P (rating_of ratings) (Dict.keys ranks))
                        (fun s => s / INR (comb (length ranks) 2))).
    rewrite sum_map_div, pairwise_sum_total by assumption.
    unfold Dict.keys. rewrite length_map, comb_2.
    apply Rdiv_diag, Rgt_not_eq, Rlt_gt, pair_sum_pos, two_players.
  - intros p Hp. now rewrite rating_of_map_pair.
Qed.

Lemma sum_actual_scores (actual : Dict.t R) :
  get_actual_scores_multiplayer ranks = Ok actual ->
  sum (map (rating_of actual) (Dict.keys ranks)) = 1.
Proof.
  intros Hact.
  destruct (actual_scores_keys ranks_wf two_players Hact) as [Hwf HP].
  rewrite <- (sum_Permutation (Permutation_map (rating_of actual) HP)).
  rewrite sum_rating_of_keys by exact Hwf.
  destruct (get_actual_scores_ok ranks_wf two_players) as (raw & _ & Hlen & Hsum & E).
  rewrite E in Hact. injection Hact as <-.
  unfold Dict.values. rewrite combine_snd.
  - rewrite sum_map_div. apply Rdiv_diag.
    rewrite Hsum. apply Rgt_not_eq, Rlt_gt, pair_sum_pos, two_players.
  - rewrite !length_map, sorted_by_rank_length. lia.
Qed.

Lemma sum_rating_changes_of (actual : Dict.t R) :
  get_actual_scores_multiplayer ranks = Ok actual ->
  sum (Dict.values (rating_changes_of P K ratings ranks actual)) = 0.
Proof.
  intros Hact. unfold rating_changes_of, Dict.values. rewrite map_map. simpl.
  rewrite (sum_map_scal (INR (length ranks) - 1)
             (fun p => K * (rating_of actual p
                            - rating_of (expected_scores_of P ratings ranks) p))).
  rewrite (sum_map_scal K
             (fun p => rating_of actual p
                       - rating_of (expected_scores_of P ratings ranks) p)).
  rewrite (sum_map_ext _ (fun p => rating_of actual p
                          + -1 * rating_of (expected_scores_of P ratings ranks) p))
    by (intros; ring).
  rewrite sum_map_plus, sum_map_scal, sum_actual_scores, sum_expected_scores_of
    by assumption.
  ring.
Qed.

End ChangesSum.

(** ** The update of the ratings *)

Lemma rating_of_set (d : Dict.t R) (k k' : string) (v : R) :
  In k (Dict.keys d) ->
  rating_of (Dict.set k v d) k' = if String.eqb k' k then v else rating_of d k'.
Proof.
  intros H. unfold rating_of. rewrite get_set by exact H.
  destruct (String.eqb k' k); reflexivity.
Qed.

Lemma sum_values_set (d : Dict.t R) (k : string) (v : R) :
  In k (Dict.keys d) ->
  sum (Dict.values (Dict.set k v d)) = sum (Dict.values d) - rating_of d k + v.
Proof.
  induction d as [| [k0 v0] d IH]; simpl; [tauto |].
  intros H. unfold rating_of. simpl.
  destruct (String.eqb_spec k k0) as [-> | Hne]; simpl; rewrite !sum_cons.
  - lra.
  - rewrite IH by (destruct H; [congruence | assumption]). unfold rating_of. lra.
Qed.

Section UpdateLoop.

Variable changes : Dict.t R.

Lemma update_loop_spec (ks : list string) :
  NoDup ks -> (forall k, In k ks -> In k (Dict.keys changes)) ->
  forall elo : Dict.t R,
    (forall k, In k ks -> In k (Dict.keys elo)) ->
    exists elo',
      foldM (add_change changes) ks elo = Ok elo' /\
      Dict.keys elo' = Dict.keys elo /\
      (forall k, rating_of elo' k =
                 if in_dec string_dec k ks
                 then rating_of elo k + rating_of changes k
                 else rating_of elo k) /\
      sum (Dict.values elo') =
      sum (Dict.values elo) + sum (map (rating_of changes) ks).
Proof.
  induction 1 as [| k ks Hk Hnd IH]; intros Hch elo Hin.
  - exists elo. simpl. rewrite sum_nil. repeat split; auto; lra.
  - cbn [foldM]. unfold add_change at 1.
    rewrite (getitem_rating_of elo k) by (apply Hin; now left). cbn [bind].
    rewrite (getitem_rating_of changes k) by (apply Hch; now left). cbn [bind].
    set (elo1 := Dict.set k (rating_of elo k + rating_of changes k) elo).
    assert (Hkeys1 : Dict.keys elo1 = Dict.keys elo)
      by (apply keys_set, Hin; now left).
    destruct (IH (fun k' H' => Hch k' (or_intror H')) elo1) as (elo' & Hf & Hkeys & Hget & Hsum).
    { intros k' Hk'. rewrite Hkeys1. apply Hin. now right. }
    exists elo'. repeat split.
    + exact Hf.
    + congruence.
    + intros k'. rewrite Hget. unfold elo1.
      rewrite rating_of_set by (apply Hin; now left).
      destruct (String.eqb_spec k' k) as [-> | Hne];
        destruct (in_dec string_dec _ ks) as [Hi | Hni];
        destruct (in_dec string_dec _ (k :: ks)) as [Hi' | Hni'];
        try reflexivity; try contradiction.
      * exfalso. apply Hni'. now left.
      * exfalso. apply Hni'. now right.
      * exfalso. destruct Hi' as [E | Hi']; [congruence | contradiction].
    + rewrite Hsum. unfold elo1. rewrite sum_values_set by (apply Hin; now left).
      cbn [map]. rewrite sum_cons. lra.
Qed.

End UpdateLoop.

Section UpdateFacts.

Variable P : R -> R.
Variable K : R.
Variables (ratings : Dict.t R) (data_row : observation).

Hypothesis ranks_wf : Dict.wf (row_ranks data_row).
Hypothesis two_players : (2 <= length (row_ranks data_row))%nat.
Hypothesis players_rated :
  forall p, In p (Dict.keys (row_ranks data_row)) -> In p (Dict.keys ratings).

Lemma weighted_changes_eq (actual : Dict.t R) :
  Dict.of_items
    (map (fun oc : string * R =>
            (fst oc, weight_function (row_weight data_row) (snd oc) * snd oc))
         (Dict.items (rating_changes_of P K ratings (row_ranks data_row) actual)))
  = map (fun p => (p, row_weight data_row * change_of P K ratings data_row actual p))
        (Dict.keys (row_ranks data_row)).
Proof.
  unfold Dict.items, rating_changes_of. rewrite map_map. simpl.
  apply of_items_wf. rewrite map_map. simpl. rewrite map_id. exact ranks_wf.
Qed.

Lemma update_ratings_ok (actual : Dict.t R) :
  get_actual_scores_multiplayer (row_ranks data_row) = Ok actual ->
  exists elo',
    update_ratings P K ratings data_row = Ok elo' /\
    Dict.keys elo' = Dict.keys ratings /\
    (forall k, rating_of elo' k =
               if in_dec string_dec k (Dict.keys (row_ranks data_row))
               then rating_of ratings k + row_weight data_row * change_of P K ratings data_row actual k
               else rating_of ratings k) /\
    sum (Dict.values elo') =
    sum (Dict.values ratings)
    + row_weight data_row
      * sum (Dict.values (rating_changes_of P K ratings (row_ranks data_row) actual)).
Proof.
  intros Hact. unfold update_ratings.
  rewrite (@rating_changes_ok P K ratings (row_ranks data_row) ranks_wf two_players
             players_rated actual Hact).
  cbn [bind]. rewrite weighted_changes_eq, keys_map_pair.
  set (changes := map (fun p => (p, row_weight data_row * change_of P K ratings data_row actual p))
                      (Dict.keys (row_ranks data_row))).
  destruct (@update_loop_spec changes (Dict.keys (row_ranks data_row)) ranks_wf)
    with (elo := ratings) as (elo' & Hf & Hkeys & Hget & Hsum).
  { intros k Hk. unfold changes. now rewrite keys_map_pair. }
  { exact players_rated. }
  exists elo'. repeat split.
  - exact Hf.
  - exact Hkeys.
  - intros k. rewrite Hget.
    destruct (in_dec string_dec k (Dict.keys (row_ranks data_row))) as [Hi | Hni];
      [| reflexivity].
    unfold changes. now rewrite rating_of_map_pair.
  - rewrite Hsum. f_equal.
    rewrite (sum_map_ext _ (fun p => row_weight data_row * change_of P K ratings data_row actual p)).
    + rewrite sum_map_scal. f_equal.
      unfold rating_changes_of, Dict.values. rewrite map_map. reflexivity.
    + intros p Hp. unfold changes. now rewrite rating_of_map_pair.
Qed.

End UpdateFacts.

(** ** Two participants *)

Lemma two_player_actual_scores (a b : string) (ra rb : Z) (ranks : Dict.t Z) :
  a <> b -> (ra < rb)%Z ->
  ranks = [(a, ra); (b, rb)] \/ ranks = [(b, rb); (a, ra)] ->
  get_actual_scores_multiplayer ranks = Ok [(a, 1); (b, 0)].
Proof.
  intros Hab Hlt Hranks.
  assert (Hwf : Dict.wf ranks).
  { unfold Dict.wf. destruct Hranks as [-> | ->]; simpl;
      repeat constructor; simpl; intuition congruence. }
  assert (Hsorted : sorted_by_rank ranks = [(a, ra); (b, rb)]).
  { destruct Hranks as [-> | ->]; simpl.
    - replace (ra <=? rb)%Z with true by (symmetry; apply Z.leb_le; lia). reflexivity.
    - replace (rb <=? ra)%Z with false by (symmetry; apply Z.leb_gt; lia). reflexivity. }
  rewrite get_actual_scores_unfold by exact Hwf.
  rewrite Hsorted. unfold averaged_scores, ties_vector_of. simpl.
  replace (ra =? rb)%Z with false by (symmetry; apply Z.eqb_neq; lia).
  vm_eval (collect_ties [false] 0 []). simpl.
  assert (Hsum : sum [1; 0] = 1) by (rewrite !sum_cons, sum_nil; lra).
  rewrite Hsum, !py_div_ok by lra. simpl.
  list_eq_lra.
Qed.

(** C5. In a game of two participants with ratings [r] and [0] where the
    first has the lower rank, the rating change of the winner is
    [K * (1 - P r)]; with both ratings 0, ranks [{A:1, B:2}], [K = 32] and
    the logistic function of the script the changes are +16 and -16, and
    with weight 1 the new ratings are 16 and -16. *)
Theorem two_player_classical_elo :
  (forall (P : R -> R) (K r : R) (a b : string) (ra rb : Z)
          (ratings : Dict.t R) (ranks : Dict.t Z),
      a <> b -> (ra < rb)%Z ->
      ranks = [(a, ra); (b, rb)] \/ ranks = [(b, rb); (a, ra)] ->
      Dict.get a ratings = Some r -> Dict.get b ratings = Some 0 ->
      exists changes,
        get_rating_changes_multiplayer P ratings ranks K = Ok changes /\
        Dict.get a changes = Some (K * (1 - P r))) /\
  get_rating_changes_multiplayer p_function
    [("A", 0); ("B", 0)]%string [("A", 1); ("B", 2)]%string%Z game_points_coefficient
  = Ok [("A", 16); ("B", -16)]%string /\
  update_ratings p_function game_points_coefficient [("A", 0); ("B", 0)]%string
    {| row_ranks := [("A", 1); ("B", 2)]%string%Z; row_weight := 1 |}
  = Ok [("A", 16); ("B", -16)]%string.
Proof.
  assert (General :
    forall (P : R -> R) (K : R) (a b : string) (ra rb : Z)
           (ratings : Dict.t R) (ranks : Dict.t Z),
      a <> b -> (ra < rb)%Z ->
      ranks = [(a, ra); (b, rb)] \/ ranks = [(b, rb); (a, ra)] ->
      In a (Dict.keys ratings) -> In b (Dict.keys ratings) ->
      exists changes,
        get_rating_changes_multiplayer P ratings ranks K = Ok changes /\
        Dict.get a changes
        = Some (K * (1 - P (rating_of ratings a - rating_of ratings b))) /\
        Dict.get b changes
        = Some (K * (0 - P (rating_of ratings b - rating_of ratings a)))).
  { intros P K a b ra rb ratings ranks Hab Hlt Hranks Ha Hb.
    pose proof (two_player_actual_scores Hab Hlt Hranks) as Hact.
    assert (Hwf : Dict.wf ranks).
    { unfold Dict.wf. destruct Hranks as [-> | ->]; simpl;
        repeat constructor; simpl; intuition congruence. }
    assert (Hn : length ranks = 2%nat) by (destruct Hranks as [-> | ->]; reflexivity).
    assert (Hrated : forall p, In p (Dict.keys ranks) -> In p (Dict.keys ratings)).
    { intros p Hp. destruct Hranks as [-> | ->]; simpl in Hp;
        destruct Hp as [<- | [<- | []]]; assumption. }
    eexists. split.
    - apply (@rating_changes_ok P K ratings ranks Hwf ltac:(lia) Hrated _ Hact).
    - assert (Hne : String.eqb b a = false)
        by (apply String.eqb_neq; congruence).
      assert (Hne' : String.eqb a b = false)
        by (apply String.eqb_neq; congruence).
      unfold rating_changes_of. rewrite !get_map_pair.
      assert (Hia : In a (Dict.keys ranks))
        by (destruct Hranks as [-> | ->]; simpl; auto).
      assert (Hib : In b (Dict.keys ranks))
        by (destruct Hranks as [-> | ->]; simpl; auto).
      destruct (in_dec string_dec a (Dict.keys ranks)); [| contradiction].
      destruct (in_dec string_dec b (Dict.keys ranks)); [| contradiction].
      unfold expected_scores_of. rewrite !rating_of_map_pair by assumption.
      rewrite Hn.
      assert (Hact_a : rating_of [(a, 1); (b, 0)] a = 1)
        by (unfold rating_of; simpl; now rewrite String.eqb_refl).
      assert (Hact_b : rating_of [(a, 1); (b, 0)] b = 0)
        by (unfold rating_of; simpl; now rewrite Hne, String.eqb_refl).
      rewrite Hact_a, Hact_b.
      assert (Hpa : pairwise_sum P (rating_of ratings) (Dict.keys ranks) a
                    = P (rating_of ratings a - rating_of ratings b)).
      { unfold pairwise_sum, opponents.
        destruct Hranks as [-> | ->]; simpl;
          rewrite ?String.eqb_refl, ?Hne, ?Hne'; simpl;
          rewrite sum_cons, sum_nil; lra. }
      assert (Hpb : pairwise_sum P (rating_of ratings) (Dict.keys ranks) b
                    = P (rating_of ratings b - rating_of ratings a)).
      { unfold pairwise_sum, opponents.
        destruct Hranks as [-> | ->]; simpl;
          rewrite ?String.eqb_refl, ?Hne, ?Hne'; simpl;
          rewrite sum_cons, sum_nil; lra. }
      rewrite Hpa, Hpb. simpl. split; f_equal; field. }
  assert (Hp0 : p_function 0 = 0.5).
  { unfold p_function, log_base, std_dev_coefficient. apply p_logistic_0.
    rewrite <- sqrt_1 at 1. apply sqrt_lt_1; lra. }
  assert (Hchanges :
    get_rating_changes_multiplayer p_function
      [("A", 0); ("B", 0)]%string [("A", 1); ("B", 2)]%string%Z game_points_coefficient
    = Ok [("A", 16); ("B", -16)]%string).
  { rewrite (@rating_changes_ok p_function game_points_coefficient
               [("A", 0); ("B", 0)]%string [("A", 1); ("B", 2)]%string%Z)
      with (actual := [("A", 1); ("B", 0)]%string).
    - unfold rating_changes_of, expected_scores_of, pairwise_sum, opponents, rating_of.
      simpl. rewrite !sum_cons, !sum_nil.
      replace (0 - 0) with 0 by lra. rewrite Hp0.
      unfold game_points_coefficient. list_eq_lra.
    - unfold Dict.wf. simpl. repeat constructor; simpl; intuition discriminate.
    - simpl. lia.
    - intros p Hp. exact Hp.
    - apply (@two_player_actual_scores "A" "B" 1 2)%string%Z;
        [discriminate | lia | now left]. }
  split; [| split].
  - intros P K r a b ra rb ratings ranks Hab Hlt Hranks Hga Hgb.
    destruct (General P K a b ra rb ratings ranks Hab Hlt Hranks)
      as (changes & Hch & Hca & _).
    + eapply get_Some_key; exact Hga.
    + eapply get_Some_key; exact Hgb.
    + exists changes. split; [exact Hch |].
      rewrite Hca. unfold rating_of. rewrite Hga, Hgb. f_equal. f_equal. f_equal.
      f_equal. lra.
  - exact Hchanges.
  - unfold update_ratings. cbn [row_ranks row_weight]. rewrite Hchanges. cbn [bind].
    unfold weight_function, Dict.of_items, Dict.items, Dict.getitem. simpl.
    list_eq_lra.
Qed.

Lemma two_player_classical_elo_witness :
  exists changes,
    get_rating_changes_multiplayer p_function [("A", 100); ("B", 0)]%string
      [("B", 2); ("A", 1)]%string%Z 32 = Ok changes /\
    Dict.get "A"%string changes = Some (32 * (1 - p_function 100)).
Proof.
  apply (proj1 two_player_classical_elo p_function 32 100
               "A"%string "B"%string 1%Z 2%Z
               [("A", 100); ("B", 0)]%string [("B", 2); ("A", 1)]%string%Z).
  - discriminate.
  - lia.
  - right. reflexivity.
  - reflexivity.
  - reflexivity.
Defined.

(** ** The weighted update *)

(** C1. For an observation with two or more rated participants the loop
    body succeeds, and it adds to the rating of every participant [p] the
    product [weight_function weight raw * raw] with
    [raw = (n - 1) * K * (actual[p] - expected[p])]; the weight function
    returns its first argument whatever the change, so the amount added is
    [weight * (n - 1) * K * (actual[p] - expected[p])]. *)
Theorem weighted_change_applied
        (P : R -> R) (K : R) (ratings : Dict.t R) (data_row : observation) :
  let players := Dict.keys (row_ranks data_row) in
  let n := INR (length players) in
  Dict.wf (row_ranks data_row) ->
  (2 <= length players)%nat ->
  (forall p, In p players -> In p (Dict.keys ratings)) ->
  (forall weight change, weight_function weight change = weight) /\
  exists initial_ratings expected_scores actual_scores elo_ratings',
    dict_comp players (fun player => Dict.getitem player ratings) = Ok initial_ratings /\
    dict_comp players
      (fun player => get_expected_score_multiplayer P player initial_ratings)
    = Ok expected_scores /\
    get_actual_scores_multiplayer (row_ranks data_row) = Ok actual_scores /\
    update_ratings P K ratings data_row = Ok elo_ratings' /\
    (forall p, ~ In p players -> Dict.get p elo_ratings' = Dict.get p ratings) /\
    forall p, In p players ->
      exists r a e,
        Dict.get p ratings = Some r /\
        Dict.get p actual_scores = Some a /\
        Dict.get p expected_scores = Some e /\
        let raw := (n - 1) * K * (a - e) in
        Dict.get p elo_ratings'
        = Some (r + weight_function (row_weight data_row) raw * raw) /\
        Dict.get p elo_ratings'
        = Some (r + row_weight data_row * (n - 1) * K * (a - e)).
Proof.
  intros players n Hwf Hn Hrated.
  assert (Hlen : length players = length (row_ranks data_row))
    by (unfold players, Dict.keys; apply length_map).
  split; [reflexivity |].
  destruct (@get_actual_scores_ok (row_ranks data_row) Hwf ltac:(lia))
    as (raw & _ & _ & _ & Hact).
  destruct (@update_ratings_ok P K ratings data_row Hwf ltac:(lia) Hrated _ Hact)
    as (elo' & Hupd & Hkeys & Hget & _).
  destruct (@actual_scores_keys (row_ranks data_row) Hwf ltac:(lia) _ Hact)
    as [Hawf Haperm].
  exists (initial_ratings_of ratings (row_ranks data_row)),
         (expected_scores_of P ratings (row_ranks data_row)).
  eexists. exists elo'.
  split; [now apply initial_ratings_ok |].
  split; [apply expected_scores_ok; first [exact Hwf | exact Hrated | lia] |].
  split; [exact Hact |].
  split; [exact Hupd |].
  split.
  - intros p Hp. specialize (Hget p).
    destruct (in_dec string_dec p (Dict.keys (row_ranks data_row))); [contradiction |].
    destruct (in_dec string_dec p (Dict.keys ratings)) as [Hi | Hni].
    + rewrite !get_rating_of by (rewrite ?Hkeys; exact Hi). now f_equal.
    + assert (Hn1 : Dict.get p ratings = None) by (now apply get_None).
      assert (Hn2 : Dict.get p elo' = None) by (apply get_None; now rewrite Hkeys).
      congruence.
  - intros p Hp. specialize (Hget p).
    destruct (in_dec string_dec p (Dict.keys (row_ranks data_row))); [| contradiction].
    eexists. eexists. eexists.
    split; [apply get_rating_of, Hrated, Hp |].
    split; [apply get_rating_of;
            eapply Permutation_in; [apply Permutation_sym; exact Haperm | exact Hp] |].
    split; [apply get_rating_of; unfold expected_scores_of;
            rewrite keys_map_pair; exact Hp |].
    cbv zeta. unfold weight_function.
    rewrite get_rating_of by (rewrite Hkeys; now apply Hrated).
    rewrite Hget. unfold change_of, n. rewrite Hlen.
    split; f_equal; ring.
Qed.

Lemma weighted_change_applied_witness :
  (forall weight change, weight_function weight change = weight) /\
  exists initial_ratings expected_scores actual_scores elo_ratings',
    dict_comp ["A"; "B"; "C"]%string
      (fun player =>
         Dict.getitem player [("A", 10); ("B", 0); ("C", -5); ("D", 3)]%string)
    = Ok initial_ratings /\
    dict_comp ["A"; "B"; "C"]%string
      (fun player => get_expected_score_multiplayer p_function player initial_ratings)
    = Ok expected_scores /\
    get_actual_scores_multiplayer [("A", 1); ("B", 2); ("C", 2)]%string%Z
    = Ok actual_scores /\
    update_ratings p_function 32 [("A", 10); ("B", 0); ("C", -5); ("D", 3)]%string
      {| row_ranks := [("A", 1); ("B", 2); ("C", 2)]%string%Z; row_weight := 2 |}
    = Ok elo_ratings' /\
    (forall p, ~ In p ["A"; "B"; "C"]%string ->
               Dict.get p elo_ratings'
               = Dict.get p [("A", 10); ("B", 0); ("C", -5); ("D", 3)]%string) /\
    forall p, In p ["A"; "B"; "C"]%string ->
      exists r a e,
        Dict.get p [("A", 10); ("B", 0); ("C", -5); ("D", 3)]%string = Some r /\
        Dict.get p actual_scores = Some a /\
        Dict.get p expected_scores = Some e /\
        Dict.get p elo_ratings'
        = Some (r + weight_function 2 ((INR 3 - 1) * 32 * (a - e))
                    * ((INR 3 - 1) * 32 * (a - e))) /\
        Dict.get p elo_ratings' = Some (r + 2 * (INR 3 - 1) * 32 * (a - e)).
Proof.
  apply (@weighted_change_applied p_function 32
           [("A", 10); ("B", 0); ("C", -5); ("D", 3)]%string
           {| row_ranks := [("A", 1); ("B", 2); ("C", 2)]%string%Z; row_weight := 2 |}).
  - unfold Dict.wf. simpl. repeat constructor; simpl; intuition discriminate.
  - simpl. lia.
  - simpl. intuition.
Defined.

(** ** Conservation of the ratings *)

Lemma p_function_sym (b c : R) (P : R -> R) :
  0 < c -> 1 < b -> P = p_normal c \/ P = p_logistic b c ->
  forall x, P (- x) = 1 - P x.
Proof.
  intros Hc Hb [-> | ->] x; [apply p_normal_sym | now apply p_logistic_sym].
Qed.


(** C10. With two or more rated participants, any ranks and any ratings,
    the rating changes of a game add up to 0, and the loop body, which
    scales all of them by the weight of the observation, leaves the sum of
    all ratings as it was. *)
Theorem rating_changes_sum_to_zero
        (b c : R) (P : R -> R) (K : R) (ratings : Dict.t R) (data_row : observation) :
  0 < c -> 1 < b -> P = p_normal c \/ P = p_logistic b c ->
  Dict.wf (row_ranks data_row) ->
  (2 <= length (row_ranks data_row))%nat ->
  (forall p, In p (Dict.keys (row_ranks data_row)) -> In p (Dict.keys ratings)) ->
  exists rating_changes elo_ratings',
    get_rating_changes_multiplayer P ratings (row_ranks data_row) K = Ok rating_changes /\
    Dict.keys rating_changes = Dict.keys (row_ranks data_row) /\
    sum (Dict.values rating_changes) = 0 /\
    update_ratings P K ratings data_row = Ok elo_ratings' /\
    Dict.keys elo_ratings' = Dict.keys ratings /\
    sum (Dict.values elo_ratings') = sum (Dict.values ratings).
Proof.
  intros Hc Hb HP Hwf Hn Hrated.
  pose proof (p_function_sym Hc Hb HP) as Hsym.
  destruct (get_actual_scores_ok Hwf Hn) as (raw & _ & _ & _ & Hact).
  destruct (@update_ratings_ok P K ratings data_row Hwf Hn Hrated _ Hact)
    as (elo' & Hupd & Hkeys & _ & Hsum).
  pose proof (@sum_rating_changes_of P K ratings (row_ranks data_row) Hsym Hwf Hn _ Hact)
    as Hzero.
  eexists. exists elo'.
  split; [apply (@rating_changes_ok P K ratings (row_ranks data_row) Hwf Hn Hrated _ Hact) |].
  split; [unfold rating_changes_of; apply keys_map_pair |].
  split; [exact Hzero |].
  split; [exact Hupd |].
  split; [exact Hkeys |].
  rewrite Hsum, Hzero. ring.
Qed.

Lemma rating_changes_sum_to_zero_witness :
  exists rating_changes elo_ratings',
    get_rating_changes_multiplayer p_function
      [("A", 10); ("B", 0); ("C", -5); ("D", 3)]%string
      [("A", 1); ("B", 2); ("C", 2)]%string%Z 32 = Ok rating_changes /\
    Dict.keys rating_changes = ["A"; "B"; "C"]%string /\
    sum (Dict.values rating_changes) = 0 /\
    update_ratings p_function 32 [("A", 10); ("B", 0); ("C", -5); ("D", 3)]%string
      {| row_ranks := [("A", 1); ("B", 2); ("C", 2)]%string%Z; row_weight := 2 |}
    = Ok elo_ratings' /\
    Dict.keys elo_ratings' = ["A"; "B"; "C"; "D"]%string /\
    sum (Dict.values elo_ratings')
    = sum (Dict.values [("A", 10); ("B", 0); ("C", -5); ("D", 3)]%string).
Proof.
  apply (@rating_changes_sum_to_zero log_base std_dev_coefficient p_function 32
           [("A", 10); ("B", 0); ("C", -5); ("D", 3)]%string
           {| row_ranks := [("A", 1); ("B", 2); ("C", 2)]%string%Z; row_weight := 2 |}).
  - unfold std_dev_coefficient. lra.
  - unfold log_base. rewrite <- sqrt_1 at 1. apply sqrt_lt_1; lra.
  - right. reflexivity.
  - unfold Dict.wf. simpl. repeat constructor; simpl; intuition discriminate.
  - simpl. lia.
  - simpl. intuition.
Defined.

(** ** Weights and games that the specification rejects *)

Lemma p_function_0 : p_function 0 = 0.5.
Proof.
  unfold p_function, log_base, std_dev_coefficient. apply p_logistic_0.
  rewrite <- sqrt_1 at 1. apply sqrt_lt_1; lra.
Qed.

(** C8, as the specification states it, fails: an observation of weight -1
    is processed, and the winner loses 16 points. *)
Lemma negative_weight_is_applied :
  row_weight {| row_ranks := [("A", 1); ("B", 2)]%string%Z; row_weight := -1 |} < 0 /\
  update_ratings p_function game_points_coefficient [("A", 0); ("B", 0)]%string
    {| row_ranks := [("A", 1); ("B", 2)]%string%Z; row_weight := -1 |}
  = Ok [("A", -16); ("B", 16)]%string.
Proof.
  split; [simpl; lra |].
  unfold update_ratings. cbn [row_ranks row_weight].
  rewrite (@rating_changes_ok p_function game_points_coefficient
             [("A", 0); ("B", 0)]%string [("A", 1); ("B", 2)]%string%Z)
    with (actual := [("A", 1); ("B", 0)]%string).
  - cbn [bind].
    unfold rating_changes_of, expected_scores_of, pairwise_sum, opponents, rating_of.
    unfold weight_function, Dict.of_items, Dict.items, Dict.getitem. simpl.
    rewrite !sum_cons, !sum_nil.
    replace (0 - 0) with 0 by lra. rewrite p_function_0.
    unfold game_points_coefficient. list_eq_lra.
  - unfold Dict.wf. simpl. repeat constructor; simpl; intuition discriminate.
  - simpl. lia.
  - intros p Hp. exact Hp.
  - apply (@two_player_actual_scores "A" "B" 1 2)%string%Z;
      [discriminate | lia | now left].
Qed.

(** C8, amended. The weight is not checked: an observation with two or
    more rated participants and a negative weight is processed, and the
    rating of every participant moves by the weight times its rating
    change. *)
Theorem negative_weight_not_rejected
        (P : R -> R) (K : R) (ratings : Dict.t R) (data_row : observation) :
  row_weight data_row < 0 ->
  Dict.wf (row_ranks data_row) ->
  (2 <= length (row_ranks data_row))%nat ->
  (forall p, In p (Dict.keys (row_ranks data_row)) -> In p (Dict.keys ratings)) ->
  exists rating_changes elo_ratings',
    get_rating_changes_multiplayer P ratings (row_ranks data_row) K = Ok rating_changes /\
    update_ratings P K ratings data_row = Ok elo_ratings' /\
    forall p change,
      Dict.get p rating_changes = Some change ->
      exists r,
        Dict.get p ratings = Some r /\
        Dict.get p elo_ratings' = Some (r + row_weight data_row * change).
Proof.
  intros _ Hwf Hn Hrated.
  destruct (get_actual_scores_ok Hwf Hn) as (raw & _ & _ & _ & Hact).
  destruct (@update_ratings_ok P K ratings data_row Hwf Hn Hrated _ Hact)
    as (elo' & Hupd & Hkeys & Hget & _).
  eexists. exists elo'.
  split; [apply (@rating_changes_ok P K ratings (row_ranks data_row) Hwf Hn Hrated _ Hact) |].
  split; [exact Hupd |].
  intros p change Hp.
  assert (Hin : In p (Dict.keys (row_ranks data_row))).
  { apply get_Some_key in Hp. unfold rating_changes_of in Hp.
    now rewrite keys_map_pair in Hp. }
  unfold rating_changes_of in Hp. rewrite get_map_pair in Hp.
  specialize (Hget p).
  destruct (in_dec string_dec p (Dict.keys (row_ranks data_row))); [| contradiction].
  injection Hp as <-.
  exists (rating_of ratings p). split.
  - apply get_rating_of, Hrated, Hin.
  - rewrite get_rating_of by (rewrite Hkeys; now apply Hrated).
    rewrite Hget. reflexivity.
Qed.

Lemma negative_weight_not_rejected_witness :
  exists rating_changes elo_ratings',
    get_rating_changes_multiplayer p_function [("A", 10); ("B", 0); ("C", -5)]%string
      [("A", 1); ("B", 2); ("C", 2)]%string%Z 32 = Ok rating_changes /\
    update_ratings p_function 32 [("A", 10); ("B", 0); ("C", -5)]%string
      {| row_ranks := [("A", 1); ("B", 2); ("C", 2)]%string%Z; row_weight := -3 |}
    = Ok elo_ratings' /\
    forall p change,
      Dict.get p rating_changes = Some change ->
      exists r,
        Dict.get p [("A", 10); ("B", 0); ("C", -5)]%string = Some r /\
        Dict.get p elo_ratings' = Some (r + -3 * change).
Proof.
  apply (@negative_weight_not_rejected p_function 32
           [("A", 10); ("B", 0); ("C", -5)]%string
           {| row_ranks := [("A", 1); ("B", 2); ("C", 2)]%string%Z; row_weight := -3 |}).
  - simpl. lra.
  - unfold Dict.wf. simpl. repeat constructor; simpl; intuition discriminate.
  - simpl. lia.
  - simpl. intuition.
Defined.

(** C9, as the specification states it, fails: an observation without
    participants is processed; it produces no rating change and leaves the
    ratings as they were. *)
Lemma empty_game_is_processed :
  (length (row_ranks {| row_ranks := []; row_weight := 1 |}) < 2)%nat /\
  get_actual_scores_multiplayer [] = Ok [] /\
  get_rating_changes_multiplayer p_function [("A", 0); ("B", 0)]%string []
    game_points_coefficient = Ok [] /\
  update_ratings p_function game_points_coefficient [("A", 0); ("B", 0)]%string
    {| row_ranks := []; row_weight := 1 |}
  = Ok [("A", 0); ("B", 0)]%string.
Proof.
  assert (Hact : get_actual_scores_multiplayer [] = Ok []) by reflexivity.
  assert (Hch : forall ratings,
             get_rating_changes_multiplayer p_function ratings []
               game_points_coefficient = Ok []).
  { intros ratings. unfold get_rating_changes_multiplayer. rewrite Hact. reflexivity. }
  split; [simpl; lia |].
  split; [exact Hact |].
  split; [apply Hch |].
  unfold update_ratings. cbn [row_ranks]. rewrite Hch. reflexivity.
Qed.

(** C9, amended. An observation with fewer than two participants either
    has none, and then the loop body returns the ratings unchanged, or it
    has one, and then the loop body raises: [KeyError] when the
    participant has no rating, [ZeroDivisionError] (from the division by
    [math.comb(1, 2)]) when it has one. On such dictionaries the expected
    score always raises [ZeroDivisionError], and the actual scores do so
    for one participant. *)
Theorem small_game_outcome
        (P : R -> R) (K : R) (ratings : Dict.t R) (data_row : observation) :
  (length (row_ranks data_row) < 2)%nat ->
  (row_ranks data_row = [] /\
   get_actual_scores_multiplayer (row_ranks data_row) = Ok [] /\
   (forall player,
       get_expected_score_multiplayer P player [] = Raise ZeroDivisionError) /\
   get_rating_changes_multiplayer P ratings (row_ranks data_row) K = Ok [] /\
   update_ratings P K ratings data_row = Ok ratings)
  \/
  (exists player rank,
      row_ranks data_row = [(player, rank)] /\
      get_actual_scores_multiplayer (row_ranks data_row) = Raise ZeroDivisionError /\
      (forall r,
          get_expected_score_multiplayer P player [(player, r)]
          = Raise ZeroDivisionError) /\
      get_rating_changes_multiplayer P ratings (row_ranks data_row) K
      = update_ratings P K ratings data_row /\
      update_ratings P K ratings data_row
      = match Dict.get player ratings with
        | Some _ => Raise ZeroDivisionError
        | None => Raise (KeyError player)
        end).
Proof.
  intros Hn. destruct data_row as [ranks w]. cbn [row_ranks] in *.
  assert (Hexp : forall player r,
             get_expected_score_multiplayer P player [(player, r)]
             = Raise ZeroDivisionError).
  { intros player r. unfold get_expected_score_multiplayer. simpl.
    rewrite String.eqb_refl. simpl. apply py_div_zero. }
  destruct ranks as [| [player rank] [| ? ?]]; simpl in Hn; [| | lia].
  - left.
    assert (Hact : get_actual_scores_multiplayer [] = Ok []) by reflexivity.
    assert (Hch : get_rating_changes_multiplayer P ratings [] K = Ok []).
    { unfold get_rating_changes_multiplayer. rewrite Hact. reflexivity. }
    split; [reflexivity |].
    split; [exact Hact |].
    split; [| split; [exact Hch |]].
    + intros player. unfold get_expected_score_multiplayer. simpl. apply py_div_zero.
    + unfold update_ratings. cbn [row_ranks]. rewrite Hch. reflexivity.
  - right. exists player, rank.
    assert (Hch : get_rating_changes_multiplayer P ratings [(player, rank)] K
                  = match Dict.get player ratings with
                    | Some _ => Raise ZeroDivisionError
                    | None => Raise (KeyError player)
                    end).
    { unfold get_rating_changes_multiplayer, dict_comp, Dict.getitem. simpl.
      destruct (Dict.get player ratings) as [r |]; simpl; [| reflexivity].
      unfold Dict.of_items. simpl. rewrite Hexp. reflexivity. }
    assert (Hupd : update_ratings P K ratings {| row_ranks := [(player, rank)];
                                                 row_weight := w |}
                   = get_rating_changes_multiplayer P ratings [(player, rank)] K).
    { unfold update_ratings. cbn [row_ranks]. rewrite Hch.
      destruct (Dict.get player ratings); reflexivity. }
    split; [reflexivity |].
    split; [| split; [apply Hexp | split; [now rewrite Hupd | now rewrite Hupd]]].
    unfold get_actual_scores_multiplayer, Dict.of_items. simpl.
    vm_eval (collect_ties (ties_vector_of [rank]) 0 []). simpl.
    unfold sum. simpl. rewrite Rplus_0_l, py_div_zero. reflexivity.
Qed.

Lemma small_game_outcome_witness :
  (row_ranks {| row_ranks := [("A", 1)]%string%Z; row_weight := 1 |} = [] /\
   get_actual_scores_multiplayer [("A", 1)]%string%Z = Ok [] /\
   (forall player,
       get_expected_score_multiplayer p_function player [] = Raise ZeroDivisionError) /\
   get_rating_changes_multiplayer p_function [("A", 0)]%string
     [("A", 1)]%string%Z 32 = Ok [] /\
   update_ratings p_function 32 [("A", 0)]%string
     {| row_ranks := [("A", 1)]%string%Z; row_weight := 1 |} = Ok [("A", 0)]%string)
  \/
  (exists player rank,
      [("A", 1)]%string%Z = [(player, rank)] /\
      get_actual_scores_multiplayer [("A", 1)]%string%Z = Raise ZeroDivisionError /\
      (forall r,
          get_expected_score_multiplayer p_function player [(player, r)]
          = Raise ZeroDivisionError) /\
      get_rating_changes_multiplayer p_function [("A", 0)]%string [("A", 1)]%string%Z 32
      = update_ratings p_function 32 [("A", 0)]%string
          {| row_ranks := [("A", 1)]%string%Z; row_weight := 1 |} /\
      update_ratings p_function 32 [("A", 0)]%string
        {| row_ranks := [("A", 1)]%string%Z; row_weight := 1 |}
      = match Dict.get player [("A", 0)]%string with
        | Some _ => Raise ZeroDivisionError
        | None => Raise (KeyError player)
        end).
Proof.
  apply (@small_game_outcome p_function 32 [("A", 0)]%string
           {| row_ranks := [("A", 1)]%string%Z; row_weight := 1 |}).
  simpl. lia.
Defined.

(** ** Instances for the configuration of the script *)

Lemma log_base_gt_1 : 1 < log_base.
Proof. unfold log_base. rewrite <- sqrt_1 at 1. apply sqrt_lt_1; lra. Qed.

Lemma std_dev_coefficient_pos : 0 < std_dev_coefficient.
Proof. unfold std_dev_coefficient. lra. Qed.

Lemma probability_contract_witness :
  (forall x, 0 < p_function x < 1) /\
  (forall x y, x < y -> p_function x < p_function y) /\
  p_function 0 = 0.5 /\
  (forall x, p_function (- x) = 1 - p_function x).
Proof.
  apply (@probability_contract log_base std_dev_coefficient).
  - exact std_dev_coefficient_pos.
  - exact log_base_gt_1.
  - right. reflexivity.
Defined.

Lemma expected_scores_sum_to_one_witness :
  exists expected,
    mapM (fun player =>
            get_expected_score_multiplayer (p_normal 200) player
              [("A", 10); ("B", 0); ("C", -5)]%string)
         (Dict.keys [("A", 10); ("B", 0); ("C", -5)]%string) = Ok expected /\
    (forall i, (i < 3)%nat ->
       nth i expected 0 =
       sum (map (p_normal 200)
                (map (fun o =>
                        rating_of [("A", 10); ("B", 0); ("C", -5)]%string
                          (nth i (Dict.keys [("A", 10); ("B", 0); ("C", -5)]%string)
                               ""%string)
                        - rating_of [("A", 10); ("B", 0); ("C", -5)]%string o)
                     (opponents
                        (nth i (Dict.keys [("A", 10); ("B", 0); ("C", -5)]%string)
                             ""%string)
                        (Dict.keys [("A", 10); ("B", 0); ("C", -5)]%string))))
       / INR (comb (length [("A", 10); ("B", 0); ("C", -5)]%string) 2)) /\
    sum expected = 1.
Proof.
  apply (@expected_scores_sum_to_one 2 200 (p_normal 200)
           [("A", 10); ("B", 0); ("C", -5)]%string).
  - lra.
  - lra.
  - left. reflexivity.
  - unfold Dict.wf. simpl. repeat constructor; simpl; intuition discriminate.
  - simpl. lia.
Defined.

Lemma actual_scores_order_independent_witness :
  match get_actual_scores_multiplayer [("A", 2); ("B", 1); ("C", 2)]%string%Z,
        get_actual_scores_multiplayer [("C", 2); ("A", 2); ("B", 1)]%string%Z with
  | Ok scores1, Ok scores2 => Dict.equiv scores1 scores2
  | Raise e1, Raise e2 => e1 = e2
  | _, _ => False
  end.
Proof.
  apply (@actual_scores_order_independent
           [("A", 2); ("B", 1); ("C", 2)]%string%Z
           [("C", 2); ("A", 2); ("B", 1)]%string%Z).
  - unfold Dict.wf. simpl. repeat constructor; simpl; intuition discriminate.
  - unfold Dict.items. apply Permutation_sym.
    apply (Permutation_cons_append [("A", 2); ("B", 1)]%string%Z ("C", 2)%string%Z).
Defined.

(** * Further properties of the code *)

(** ** The exact value of the actual scores *)

Lemma extend_tie_run (tv : list bool) (pos : nat) :
  forall i, (pos < i <= extend_tie tv pos)%nat -> nth i tv false = true.
Proof.
  remember (length tv - pos)%nat as m eqn:Hm.
  revert pos Hm. induction m as [m IH] using lt_wf_ind. intros pos Hm i Hi.
  rewrite extend_tie_eq in Hi.
  destruct ((pos <? length tv - 1)%nat && nth (pos + 1) tv false) eqn:E; [| lia].
  apply andb_prop in E. destruct E as [E1 E2]. apply Nat.ltb_lt in E1.
  destruct (Nat.eq_dec i (pos + 1)) as [-> | Hne]; [exact E2 |].
  apply (IH (length tv - (pos + 1))%nat ltac:(lia) (pos + 1)%nat eq_refl). lia.
Qed.

Lemma collect_ties_full (tv : list bool) (pos : nat) (acc : list (nat * nat)) :
  exists ivs,
    collect_ties tv pos acc = acc ++ ivs /\ tie_blocks tv pos ivs /\ blocks_full tv ivs.
Proof.
  remember (length tv - pos)%nat as m eqn:Hm.
  revert pos acc Hm. induction m as [m IH] using lt_wf_ind. intros pos acc Hm.
  rewrite collect_ties_eq.
  destruct (pos <? length tv)%nat eqn:E.
  - apply Nat.ltb_lt in E.
    destruct (nth pos tv false) eqn:Et.
    + destruct (extend_tie_spec tv pos) as (H1 & H2 & H3).
      specialize (H2 E).
      destruct (IH (length tv - (extend_tie tv pos + 1))%nat ltac:(lia)
                   (extend_tie tv pos + 1)%nat
                   (acc ++ [(pos, extend_tie tv pos + 2)%nat]) eq_refl)
        as (ivs & Heq & Hb & Hf).
      exists ((pos, extend_tie tv pos + 2)%nat :: ivs). split; [| split].
      * rewrite Heq, <- app_assoc. reflexivity.
      * constructor; try lia; try assumption.
        -- replace (extend_tie tv pos + 2 - 1)%nat with (extend_tie tv pos + 1)%nat
             by lia. exact H3.
        -- replace (extend_tie tv pos + 2)%nat with (extend_tie tv pos + 1 + 1)%nat
             by lia. apply tie_blocks_skip; assumption.
      * constructor; [| exact Hf]. simpl. intros i Hi1 Hi2.
        destruct (Nat.eq_dec i pos) as [-> | Hne]; [exact Et |].
        apply (@extend_tie_run tv pos). lia.
    + destruct (IH (length tv - (pos + 1))%nat ltac:(lia) (pos + 1)%nat acc eq_refl)
        as (ivs & Heq & Hb & Hf).
      exists ivs. split; [exact Heq |]. split; [now apply tie_blocks_step | exact Hf].
  - apply Nat.ltb_ge in E. exists []. split; [now rewrite app_nil_r |].
    split; [| constructor].
    constructor. intros i Hi. apply nth_overflow. lia.
Qed.

Lemma sum_firstn_S (l : list R) (m : nat) :
  (m < length l)%nat -> sum (firstn (S m) l) = sum (firstn m l) + nth m l 0.
Proof.
  revert m. induction l as [| x l IH]; intros m Hm; simpl in Hm; [lia |].
  destruct m as [| m].
  - simpl. rewrite sum_cons, !sum_nil. lra.
  - rewrite (firstn_cons (S m)), (firstn_cons m), !sum_cons, IH by lia.
    change (nth (S m) (x :: l) 0) with (nth m l 0). lra.
Qed.

(** A block of equal scores adds up to its length times the score. *)
Lemma sum_firstn_block (l : list R) (c : R) (s e : nat) :
  (s <= e <= length l)%nat ->
  (forall j, (s <= j < e)%nat -> nth j l 0 = c) ->
  sum (firstn e l) = sum (firstn s l) + INR (e - s) * c.
Proof.
  intros [Hse He] Hc. induction e as [| e IH].
  - replace s with 0%nat by lia. simpl. lra.
  - destruct (Nat.eq_dec s (S e)) as [-> | Hne].
    + rewrite Nat.sub_diag. simpl. lra.
    + rewrite sum_firstn_S, IH by (try lia; intros; apply Hc; lia).
      rewrite Hc by lia.
      replace (S e - s)%nat with (S (e - s)) by lia. rewrite S_INR. lra.
Qed.

(** The raw scores [n-1, ..., 0] up to position [m]. *)
Lemma sum_firstn_scores_raw (n m : nat) :
  (m <= n)%nat ->
  sum (firstn m (map INR (rev (seq 0 n)))) = INR m * (2 * INR n - INR m - 1) / 2.
Proof.
  intros Hm. induction m as [| m IH].
  - simpl. rewrite sum_nil. lra.
  - rewrite sum_firstn_S by (rewrite length_map, length_rev, length_seq; lia).
    rewrite IH by lia.
    replace (nth m (map INR (rev (seq 0 n))) 0) with (INR (n - 1 - m)).
    + rewrite S_INR, !minus_INR by lia. simpl. lra.
    + change 0 with (INR 0). rewrite map_nth. f_equal.
      rewrite rev_nth by (rewrite length_seq; lia).
      rewrite length_seq, seq_nth by lia. lia.
Qed.

Lemma sum_firstn_ext (l l' : list R) (a m : nat) :
  length l = length l' -> (a <= m <= length l)%nat ->
  (forall j, (a <= j < m)%nat -> nth j l 0 = nth j l' 0) ->
  sum (firstn m l) - sum (firstn a l) = sum (firstn m l') - sum (firstn a l').
Proof.
  intros Hlen [Ham Hm] Hnth. induction m as [| m IH].
  - replace a with 0%nat by lia. simpl. lra.
  - destruct (Nat.eq_dec a (S m)) as [-> | Hne]; [lra |].
    rewrite !sum_firstn_S by lia.
    rewrite Hnth by lia.
    assert (sum (firstn m l) - sum (firstn a l)
            = sum (firstn m l') - sum (firstn a l'))
      by (apply IH; [lia | lia | intros; apply Hnth; lia]).
    lra.
Qed.

Lemma sum_firstn_slice (l : list R) (s e : nat) :
  (s <= e <= length l)%nat ->
  sum (firstn e l) = sum (firstn s l) + sum (slice l s e).
Proof.
  intros [Hse He]. unfold slice.
  rewrite <- (firstn_skipn s l) at 1.
  rewrite firstn_app, sum_app, firstn_firstn, length_firstn.
  rewrite (Nat.min_r e s), (Nat.min_l s (length l)) by lia. reflexivity.
Qed.

(** Writing its mean over a block keeps the sum of every prefix that does
    not end inside the block. *)
Lemma slice_assign_prefix (l : list R) (s e m : nat) :
  (s < e <= length l)%nat -> (m <= length l)%nat -> (m <= s \/ e <= m)%nat ->
  sum (firstn m (slice_assign l s e
                   (repeat (sum (slice l s e) / INR (length (slice l s e))) (e - s))))
  = sum (firstn m l).
Proof.
  intros Hse Hm Hcut.
  set (d := sum (slice l s e) / INR (length (slice l s e))).
  set (l' := slice_assign l s e (repeat d (e - s))).
  assert (Hlen : length l' = length l) by (apply slice_assign_length; lia).
  assert (Hnth : forall j, nth j l' 0
                           = if ((s <=? j) && (j <? e))%nat then d else nth j l 0)
    by (intros j; apply slice_assign_nth; lia).
  assert (Hlow : forall k, (k <= s)%nat -> sum (firstn k l') = sum (firstn k l)).
  { intros k Hk.
    pose proof (@sum_firstn_ext l' l 0 k Hlen ltac:(lia)) as H.
    simpl in H. rewrite sum_nil in H.
    assert (sum (firstn k l') - 0 = sum (firstn k l) - 0); [| lra].
    apply H. intros j Hj. rewrite Hnth.
    replace (s <=? j)%nat with false by (symmetry; apply Nat.leb_gt; lia).
    reflexivity. }
  assert (Hblock : sum (firstn e l') = sum (firstn e l)).
  { rewrite (@sum_firstn_block l' d s e) by
      (try lia; intros j Hj; rewrite Hnth;
       replace (s <=? j)%nat with true by (symmetry; apply Nat.leb_le; lia);
       replace (j <? e)%nat with true by (symmetry; apply Nat.ltb_lt; lia);
       reflexivity).
    rewrite Hlow by lia. rewrite (@sum_firstn_slice l s e) by lia.
    unfold d. rewrite slice_length by lia.
    assert (INR (e - s) <> 0) by (apply not_0_INR; lia).
    field. assumption. }
  destruct Hcut as [Hcut | Hcut]; [now apply Hlow |].
  pose proof (@sum_firstn_ext l' l e m Hlen ltac:(lia)) as H.
  assert (sum (firstn m l') - sum (firstn e l')
          = sum (firstn m l) - sum (firstn e l)); [| lra].
  apply H. intros j Hj. rewrite Hnth.
  replace (j <? e)%nat with false by (symmetry; apply Nat.ltb_ge; lia).
  now rewrite andb_false_r.
Qed.

(** The loop over the tie blocks keeps the sum of the scores in front of
    every position that does not follow a tie. *)
Lemma average_ties_prefix (tv : list bool) (lo : nat) (ivs : list (nat * nat)) :
  tie_blocks tv lo ivs -> blocks_full tv ivs ->
  forall scores res : list R,
    length scores = (length tv + 1)%nat ->
    average_ties ivs scores = Ok res ->
    forall m, (m <= length scores)%nat ->
              m = 0%nat \/ nth (m - 1) tv false = false ->
              sum (firstn m res) = sum (firstn m scores).
Proof.
  induction 1 as [lo Hall | lo start stop rest Hle Hgap Hs Hlen Hstop Hend Hrest IH];
    intros Hfull scores res Hlength Hres m Hm Hcut.
  - simpl in Hres. injection Hres as <-. reflexivity.
  - inversion Hfull as [| ? ? Hblock Hfull']; subst. simpl in Hblock.
    simpl in Hres.
    assert (Hne : slice scores start stop <> []).
    { intros E. apply (f_equal (@length R)) in E.
      rewrite slice_length in E by lia. simpl in E. lia. }
    rewrite (mean_ok Hne) in Hres. simpl in Hres.
    assert (Hl' : length (slice_assign scores start stop
                            (repeat (sum (slice scores start stop)
                                     / INR (length (slice scores start stop)))
                                    (stop - start))) = length scores)
      by (apply slice_assign_length; lia).
    assert (Hl'' := Hl'). rewrite Hlength in Hl''.
    rewrite (IH Hfull' _ res Hl'' Hres m); [| rewrite Hl'; exact Hm | exact Hcut].
    apply slice_assign_prefix; try lia.
    destruct Hcut as [-> | Hcut]; [lia |].
    destruct (Nat.le_gt_cases m start) as [H1 | H1]; [now left |].
    destruct (Nat.le_gt_cases stop m) as [H2 | H2]; [now right |].
    exfalso. rewrite Hblock in Hcut by lia. discriminate.
Qed.

(** In a sorted list the elements that satisfy a downward closed test
    are the first ones. *)
Lemma sorted_filter_prefix (p : Z -> bool) (l : list Z) :
  (forall a b, (a <= b)%Z -> p b = true -> p a = true) ->
  StronglySorted Z.le l ->
  forall j, (j < length l)%nat ->
            (j < length (filter p l))%nat <-> p (nth j l 0%Z) = true.
Proof.
  intros Hp Hs. induction Hs as [| a l Hs IH Hall]; intros j Hj; simpl in Hj; [lia |].
  rewrite Forall_forall in Hall. simpl.
  destruct (p a) eqn:Ea.
  - destruct j as [| j]; simpl; [split; [auto | lia] |].
    rewrite <- IH by lia. lia.
  - assert (Hnil : forall l', (forall x, In x l' -> (a <= x)%Z) -> filter p l' = []).
    { induction l' as [| b l' IHl']; intros H; [reflexivity |]. simpl.
      destruct (p b) eqn:Eb.
      - rewrite (Hp a b) in Ea; [discriminate | apply H; now left | exact Eb].
      - apply IHl'. intros x Hx. apply H. now right. }
    rewrite (Hnil l Hall). simpl. split; [lia |].
    intros H. exfalso. destruct j as [| j]; simpl in H; [congruence |].
    rewrite (Hp a (nth j l 0%Z)) in Ea; [discriminate | | exact H].
    apply Hall, nth_In. lia.
Qed.

Lemma filter_length_perm {A : Type} (p : A -> bool) (l l' : list A) :
  Permutation l l' -> length (filter p l) = length (filter p l').
Proof.
  induction 1 as [| x l l' _ IH | x y l | l l' l'' _ IH1 _ IH2]; simpl.
  - reflexivity.
  - destruct (p x); simpl; lia.
  - destruct (p x), (p y); reflexivity.
  - lia.
Qed.

Lemma rank_counts (ranks : Dict.t Z) (r : Z) :
  let rv := map snd (sorted_by_rank ranks) in
  (length (filter (fun x => (x <? r)%Z) rv) + tied_at ranks r + beaten_by ranks r
   = length ranks)%nat /\
  (length (filter (fun x => (x <=? r)%Z) rv)
   = length (filter (fun x => (x <? r)%Z) rv) + tied_at ranks r)%nat.
Proof.
  intros rv.
  assert (HP : Permutation rv (map snd ranks))
    by (apply Permutation_map, sorted_by_rank_perm).
  rewrite !(filter_length_perm _ HP). unfold tied_at, beaten_by.
  induction ranks as [| [k x] ranks IH]; simpl; [lia |].
  destruct IH as [IH1 IH2].
  { apply Permutation_map, sorted_by_rank_perm. }
  destruct (Z.ltb_spec x r), (Z.leb_spec x r), (Z.eqb_spec x r), (Z.ltb_spec r x);
    simpl; try lia.
Qed.

(** The averaged raw score at a position of the sorted rank vector, from
    the number of smaller ranks and the number of ranks not greater. *)
Lemma averaged_scores_value (rv : list Z) (raw : list R) (i : nat) :
  StronglySorted Z.le rv -> averaged_scores rv = Ok raw -> (i < length rv)%nat ->
  nth i raw 0
  = INR (length rv) - 1
    - (INR (length (filter (fun x => (x <? nth i rv 0)%Z) rv))
       + INR (length (filter (fun x => (x <=? nth i rv 0)%Z) rv)) - 1) / 2.
Proof.
  intros Hsorted Hraw Hi.
  set (n := length rv) in *. set (r := nth i rv 0%Z).
  set (s := length (filter (fun x => (x <? r)%Z) rv)).
  set (e := length (filter (fun x => (x <=? r)%Z) rv)).
  destruct (averaged_scores_spec Hsorted) as (raw' & Hraw' & Hlen & _ & Heq).
  rewrite Hraw in Hraw'. injection Hraw' as <-. fold n in Hlen, Heq.
  assert (Hlt : forall j, (j < n)%nat -> (j < s)%nat <-> (nth j rv 0 < r)%Z).
  { intros j Hj. unfold s.
    rewrite (@sorted_filter_prefix (fun x => (x <? r)%Z) rv) by
      (try assumption; intros a b Hab Hb; apply Z.ltb_lt in Hb; apply Z.ltb_lt; lia).
    apply Z.ltb_lt. }
  assert (Hle : forall j, (j < n)%nat -> (j < e)%nat <-> (nth j rv 0 <= r)%Z).
  { intros j Hj. unfold e.
    rewrite (@sorted_filter_prefix (fun x => (x <=? r)%Z) rv) by
      (try assumption; intros a b Hab Hb; apply Z.leb_le in Hb; apply Z.leb_le; lia).
    apply Z.leb_le. }
  assert (Hs : (s <= i)%nat).
  { destruct (Nat.le_gt_cases s i) as [H | H]; [exact H |].
    apply (Hlt i Hi) in H. unfold r in H. lia. }
  assert (He : (i < e)%nat) by (apply (Hle i Hi); unfold r; lia).
  assert (Hen : (e <= n)%nat) by (unfold e, n; apply filter_length_le).
  unfold averaged_scores in Hraw. fold n in Hraw.
  destruct (collect_ties_full (ties_vector_of rv) 0 []) as (ivs & Hivs & Hb & Hf).
  rewrite Hivs in Hraw. simpl in Hraw.
  assert (Hl0 : length (map INR (rev (seq 0 n)))
                = (length (ties_vector_of rv) + 1)%nat).
  { rewrite length_map, length_rev, length_seq, ties_vector_of_length. fold n. lia. }
  assert (Hl1 : length (map INR (rev (seq 0 n))) = n)
    by (now rewrite length_map, length_rev, length_seq).
  assert (Hcut : forall m, (m <= n)%nat ->
             m = 0%nat \/ (nth (m - 1) rv 0 < nth m rv 0)%Z \/ m = n ->
             sum (firstn m raw) = INR m * (2 * INR n - INR m - 1) / 2).
  { intros m Hm Hbd.
    rewrite (@average_ties_prefix (ties_vector_of rv) 0 ivs Hb Hf
               (map INR (rev (seq 0 n))) raw Hl0 Hraw m).
    - now apply sum_firstn_scores_raw.
    - rewrite Hl1. exact Hm.
    - destruct Hbd as [-> | [Hbd | ->]]; [now left | right | right].
      + destruct m as [| m]; [simpl in Hbd; lia |].
        replace (S m - 1)%nat with m in * by lia.
        destruct (Nat.eq_dec (S m) n) as [E | E].
        * apply nth_overflow. rewrite ties_vector_of_length. fold n. lia.
        * rewrite ties_vector_of_nth by (fold n; lia).
          replace (m + 1)%nat with (S m) by lia. apply Z.eqb_neq. lia.
      + apply nth_overflow. rewrite ties_vector_of_length. fold n. lia. }
  assert (Hsum_s : sum (firstn s raw) = INR s * (2 * INR n - INR s - 1) / 2).
  { apply Hcut; [lia |].
    destruct s as [| s'] eqn:Es; [now left |]. right. left.
    replace (S s' - 1)%nat with s' by lia.
    assert (H1 : (nth s' rv 0 < r)%Z) by (apply Hlt; lia).
    assert (H2 : ~ (nth (S s') rv 0 < r)%Z) by (rewrite <- Hlt; lia).
    lia. }
  assert (Hsum_e : sum (firstn e raw) = INR e * (2 * INR n - INR e - 1) / 2).
  { apply Hcut; [lia |].
    destruct (Nat.eq_dec e n) as [E | E]; [now right; right |]. right. left.
    assert (H1 : (nth (e - 1) rv 0 <= r)%Z) by (apply Hle; lia).
    assert (H2 : ~ (nth e rv 0 <= r)%Z) by (rewrite <- Hle; lia).
    lia. }
  assert (Hblock : sum (firstn e raw) = sum (firstn s raw) + INR (e - s) * nth i raw 0).
  { apply sum_firstn_block; [lia |].
    intros j Hj.
    assert (Hj1 : ~ (nth j rv 0 < r)%Z) by (rewrite <- Hlt; lia).
    assert (Hj2 : (nth j rv 0 <= r)%Z) by (apply Hle; lia).
    destruct (Nat.le_ge_cases i j).
    - symmetry. apply Heq; [lia | unfold r in *; lia].
    - apply Heq; [lia | unfold r in *; lia]. }
  rewrite Hsum_s, Hsum_e, minus_INR in Hblock by lia.
  assert (Hpos : 0 < INR e - INR s).
  { apply lt_INR in He. apply le_INR in Hs. lra. }
  apply Rmult_eq_reg_l with (INR e - INR s); [| lra].
  assert (Hx : (INR e - INR s) * nth i raw 0
               = INR e * (2 * INR n - INR e - 1) / 2
                 - INR s * (2 * INR n - INR s - 1) / 2) by lra.
  rewrite Hx. field.
Qed.

Lemma actual_score_of (ranks : Dict.t Z) (p : string) (r : Z) :
  Dict.wf ranks -> (2 <= length ranks)%nat -> Dict.get p ranks = Some r ->
  exists scores,
    get_actual_scores_multiplayer ranks = Ok scores /\
    Dict.get p scores
    = Some ((INR (beaten_by ranks r) + (INR (tied_at ranks r) - 1) / 2)
            / INR (comb (length ranks) 2)).
Proof.
  intros Hwf Hn Hget.
  destruct (get_actual_scores_ok Hwf Hn) as (raw & Hraw & Hlen & Hsum & Hres).
  eexists. split; [exact Hres |].
  destruct (@sorted_position ranks p Hwf (get_Some_key _ _ Hget))
    as (i & r' & Hi & Hk & Hr & Hg).
  rewrite Hget in Hg. injection Hg as <-.
  rewrite <- Hk at 1.
  rewrite (get_combine_nth _ 0) by
    (rewrite ?length_map, ?sorted_by_rank_length;
     try (apply sorted_by_rank_wf; exact Hwf); lia).
  f_equal. rewrite nth_normalized.
  rewrite (@averaged_scores_value (map snd (sorted_by_rank ranks)) raw i
             (sorted_by_rank_sorted ranks) Hraw)
    by (rewrite length_map, sorted_by_rank_length; exact Hi).
  rewrite Hr, Hsum, comb_2, length_map, sorted_by_rank_length.
  destruct (rank_counts ranks r) as [H1 H2]. cbv zeta in H1, H2.
  rewrite H2, plus_INR.
  apply (f_equal INR) in H1. rewrite !plus_INR in H1.
  f_equal. lra.
Qed.

Lemma actual_score_value (ranks : Dict.t Z) (scores : Dict.t R) (p : string) (r : Z) :
  Dict.wf ranks -> (2 <= length ranks)%nat ->
  get_actual_scores_multiplayer ranks = Ok scores ->
  Dict.get p ranks = Some r ->
  Dict.get p scores
  = Some ((INR (beaten_by ranks r) + (INR (tied_at ranks r) - 1) / 2)
          / INR (comb (length ranks) 2)).
Proof.
  intros Hwf Hn Hres Hget.
  destruct (actual_score_of p Hwf Hn Hget) as (scores' & Hs & Hp).
  rewrite Hres in Hs. injection Hs as <-. exact Hp.
Qed.

(** X1. For two or more participants with distinct names the actual score
    of a participant is the number of its pairwise results, a win over
    every participant of greater rank counting 1 and a tie with every
    other participant of the same rank counting 1/2, divided by the number
    [comb n 2] of pairs. *)
Theorem actual_scores_pairwise (ranks : Dict.t Z) :
  Dict.wf ranks -> (2 <= length ranks)%nat ->
  exists scores,
    get_actual_scores_multiplayer ranks = Ok scores /\
    forall p r,
      Dict.get p ranks = Some r ->
      Dict.get p scores
      = Some ((INR (beaten_by ranks r) + (INR (tied_at ranks r) - 1) / 2)
              / INR (comb (length ranks) 2)).
Proof.
  intros Hwf Hn.
  destruct (get_actual_scores_ok Hwf Hn) as (raw & _ & _ & _ & Hres).
  eexists. split; [exact Hres |].
  intros p r Hget. now apply actual_score_value.
Qed.

Lemma actual_scores_pairwise_witness :
  exists scores,
    get_actual_scores_multiplayer [("A", 1); ("B", 2); ("C", 2); ("D", 4)]%string%Z
    = Ok scores /\
    forall p r,
      Dict.get p [("A", 1); ("B", 2); ("C", 2); ("D", 4)]%string%Z = Some r ->
      Dict.get p scores
      = Some ((INR (beaten_by [("A", 1); ("B", 2); ("C", 2); ("D", 4)]%string%Z r)
               + (INR (tied_at [("A", 1); ("B", 2); ("C", 2); ("D", 4)]%string%Z r)
                  - 1) / 2)
              / INR (comb (length [("A", 1); ("B", 2); ("C", 2); ("D", 4)]%string%Z)
                          2)).
Proof.
  apply (@actual_scores_pairwise [("A", 1); ("B", 2); ("C", 2); ("D", 4)]%string%Z).
  - unfold Dict.wf. simpl. repeat constructor; simpl; intuition discriminate.
  - simpl. lia.
Defined.

(** ** Order and bounds of the actual scores *)

Lemma tied_at_pos (ranks : Dict.t Z) (p : string) (r : Z) :
  Dict.get p ranks = Some r -> (1 <= tied_at ranks r)%nat.
Proof.
  intros H. apply get_In in H. unfold tied_at.
  assert (Hin : In (p, r) (filter (fun q => (snd q =? r)%Z) ranks)).
  { apply filter_In. split; [exact H | apply Z.eqb_refl]. }
  destruct (filter _ ranks); [contradiction | simpl; lia].
Qed.

Lemma beaten_tied_le (ranks : Dict.t Z) (r : Z) :
  (beaten_by ranks r + tied_at ranks r <= length ranks)%nat.
Proof. destruct (rank_counts ranks r) as [H _]. cbv zeta in H. lia. Qed.

Lemma beaten_by_lt (ranks : Dict.t Z) (r1 r2 : Z) :
  (r1 < r2)%Z ->
  (beaten_by ranks r2 + tied_at ranks r2 <= beaten_by ranks r1)%nat.
Proof.
  intros Hlt. unfold beaten_by, tied_at.
  induction ranks as [| [k x] ranks IH]; simpl; [lia |].
  destruct (Z.ltb_spec r2 x), (Z.eqb_spec x r2), (Z.ltb_spec r1 x); simpl; lia.
Qed.

Lemma actual_score_range (ranks : Dict.t Z) (scores : Dict.t R) (p : string) (s : R) :
  Dict.wf ranks -> (2 <= length ranks)%nat ->
  get_actual_scores_multiplayer ranks = Ok scores ->
  Dict.get p scores = Some s ->
  0 <= s <= 2 / INR (length ranks).
Proof.
  intros Hwf Hn Hres Hs.
  assert (HC : 0 < INR (comb (length ranks) 2))
    by (rewrite comb_2; apply pair_sum_pos, Hn).
  assert (Hin : In p (Dict.keys ranks)).
  { destruct (@actual_scores_keys ranks Hwf Hn scores Hres) as [_ HP].
    eapply Permutation_in; [exact HP |]. eapply get_Some_key; exact Hs. }
  destruct (In_keys_get _ _ Hin) as [r Hr].
  rewrite (@actual_score_value ranks scores p r Hwf Hn Hres Hr) in Hs. injection Hs as <-.
  pose proof (tied_at_pos _ _ Hr) as H1.
  pose proof (beaten_tied_le ranks r) as H2.
  apply le_INR in H1, H2. rewrite plus_INR in H2. simpl in H1.
  pose proof (pos_INR (beaten_by ranks r)) as H3.
  assert (HN : 2 <= INR (length ranks)) by (apply le_INR in Hn; exact Hn).
  split.
  - apply Rmult_le_pos; [lra | apply Rlt_le, Rinv_0_lt_compat, HC].
  - rewrite comb_2.
    apply Rmult_le_reg_r with (INR (length ranks) * (INR (length ranks) - 1) / 2);
      [apply pair_sum_pos, Hn |].
    unfold Rdiv at 1. rewrite Rmult_assoc, Rinv_l
      by (apply Rgt_not_eq, Rlt_gt, pair_sum_pos, Hn).
    replace (2 / INR (length ranks)
             * (INR (length ranks) * (INR (length ranks) - 1) / 2))
      with (INR (length ranks) - 1) by (field; lra).
    lra.
Qed.

(** X2. For two or more participants with distinct names the actual scores
    follow the ranks: a participant of smaller rank has a strictly greater
    score, participants of equal rank have equal scores, and every score
    lies between 0 and [2 / n]. *)
Theorem actual_scores_follow_ranks (ranks : Dict.t Z) :
  Dict.wf ranks -> (2 <= length ranks)%nat ->
  exists scores,
    get_actual_scores_multiplayer ranks = Ok scores /\
    (forall p q rp rq sp sq,
        Dict.get p ranks = Some rp -> Dict.get q ranks = Some rq ->
        Dict.get p scores = Some sp -> Dict.get q scores = Some sq ->
        ((rp < rq)%Z -> sq < sp) /\ (rp = rq -> sp = sq)) /\
    (forall p s, Dict.get p scores = Some s -> 0 <= s <= 2 / INR (length ranks)).
Proof.
  intros Hwf Hn.
  destruct (get_actual_scores_ok Hwf Hn) as (raw & _ & _ & _ & Hres).
  eexists. split; [exact Hres |].
  assert (HC : 0 < INR (comb (length ranks) 2))
    by (rewrite comb_2; apply pair_sum_pos, Hn).
  split.
  - intros p q rp rq sp sq Hp Hq Hsp Hsq.
    rewrite (@actual_score_value _ _ p rp Hwf Hn Hres Hp) in Hsp.
    rewrite (@actual_score_value _ _ q rq Hwf Hn Hres Hq) in Hsq.
    injection Hsp as <-. injection Hsq as <-.
    split.
    + intros Hlt.
      pose proof (beaten_by_lt ranks Hlt) as H1.
      pose proof (tied_at_pos _ _ Hq) as H2.
      pose proof (tied_at_pos _ _ Hp) as H3.
      apply le_INR in H1, H2, H3. rewrite plus_INR in H1. simpl in H2, H3.
      unfold Rdiv at 1 3.
      apply Rmult_lt_compat_r; [now apply Rinv_0_lt_compat | lra].
    + intros ->. reflexivity.
  - intros p s Hs. exact (@actual_score_range _ _ p s Hwf Hn Hres Hs).
Qed.

Lemma actual_scores_follow_ranks_witness :
  exists scores,
    get_actual_scores_multiplayer [("A", 1); ("B", 2); ("C", 2); ("D", 4)]%string%Z
    = Ok scores /\
    (forall p q rp rq sp sq,
        Dict.get p [("A", 1); ("B", 2); ("C", 2); ("D", 4)]%string%Z = Some rp ->
        Dict.get q [("A", 1); ("B", 2); ("C", 2); ("D", 4)]%string%Z = Some rq ->
        Dict.get p scores = Some sp -> Dict.get q scores = Some sq ->
        ((rp < rq)%Z -> sq < sp) /\ (rp = rq -> sp = sq)) /\
    (forall p s,
        Dict.get p scores = Some s ->
        0 <= s <= 2 / INR (length [("A", 1); ("B", 2); ("C", 2); ("D", 4)]%string%Z)).
Proof.
  apply (@actual_scores_follow_ranks
           [("A", 1); ("B", 2); ("C", 2); ("D", 4)]%string%Z).
  - unfold Dict.wf. simpl. repeat constructor; simpl; intuition discriminate.
  - simpl. lia.
Defined.

Lemma length_one_iff {A : Type} (l : list A) (a : A) :
  NoDup l -> In a l -> (length l = 1%nat <-> forall b, In b l -> b = a).
Proof.
  intros Hnd Ha. split.
  - intros Hlen b Hb.
    destruct l as [| x [| y l]]; simpl in Hlen; try lia.
    destruct Ha as [<- | []]. destruct Hb as [<- | []]. reflexivity.
  - intros Hall. destruct l as [| x [| y l]]; [contradiction | reflexivity |].
    exfalso. inversion Hnd as [| ? ? Hx _]; subst. apply Hx.
    rewrite (Hall x (or_introl eq_refl)), <- (Hall y (or_intror (or_introl eq_refl))).
    now left.
Qed.

Lemma filter_length_0 {A : Type} (f : A -> bool) (l : list A) :
  length (filter f l) = 0%nat <-> forall a, In a l -> f a = false.
Proof.
  induction l as [| x l IH]; simpl.
  - split; [intros _ a [] | reflexivity].
  - destruct (f x) eqn:E; simpl.
    + split; [lia |]. intros H. specialize (H x (or_introl eq_refl)). congruence.
    + rewrite IH. split.
      * intros H a [<- | Ha]; [exact E | now apply H].
      * intros H a Ha. apply H. now right.
Qed.

(** X3. For two or more participants with distinct names a participant has
    the actual score 0 exactly when every other participant has a strictly
    smaller rank: only a sole last place scores nothing, participants tied
    for the last place do not. *)
Theorem actual_score_zero_iff_sole_last (ranks : Dict.t Z) :
  Dict.wf ranks -> (2 <= length ranks)%nat ->
  exists scores,
    get_actual_scores_multiplayer ranks = Ok scores /\
    forall p rp,
      Dict.get p ranks = Some rp ->
      (Dict.get p scores = Some 0 <->
       forall q rq, q <> p -> Dict.get q ranks = Some rq -> (rq < rp)%Z).
Proof.
  intros Hwf Hn.
  destruct (get_actual_scores_ok Hwf Hn) as (raw & _ & _ & _ & Hres).
  eexists. split; [exact Hres |].
  intros p rp Hp. rewrite (@actual_score_value _ _ p rp Hwf Hn Hres Hp).
  assert (HC : 0 < INR (comb (length ranks) 2))
    by (rewrite comb_2; apply pair_sum_pos, Hn).
  pose proof (tied_at_pos _ _ Hp) as Ht.
  assert (Hnd : NoDup ranks) by (eapply NoDup_map_inv; exact Hwf).
  assert (Hin : In (p, rp) (filter (fun q => (snd q =? rp)%Z) ranks)).
  { apply filter_In. split; [now apply get_In | apply Z.eqb_refl]. }
  assert (Hzero : (INR (beaten_by ranks rp) + (INR (tied_at ranks rp) - 1) / 2)
                  / INR (comb (length ranks) 2) = 0
                  <-> beaten_by ranks rp = 0%nat /\ tied_at ranks rp = 1%nat).
  { pose proof (pos_INR (beaten_by ranks rp)) as Hb.
    apply le_INR in Ht. simpl in Ht.
    split.
    - intros E.
      apply Rmult_eq_compat_r with (r := INR (comb (length ranks) 2)) in E.
      unfold Rdiv at 1 in E. rewrite Rmult_assoc, Rinv_l, Rmult_0_l in E by lra.
      split; [apply INR_eq | apply INR_eq]; simpl; lra.
    - intros [-> ->]. simpl. unfold Rdiv. ring. }
  split.
  - intros E. injection E as E. apply Hzero in E. destruct E as [Eb Et].
    intros q rq Hq Hgq.
    unfold beaten_by in Eb. rewrite filter_length_0 in Eb.
    specialize (Eb (q, rq) (get_In _ _ Hgq)). simpl in Eb. apply Z.ltb_ge in Eb.
    unfold tied_at in Et.
    rewrite (@length_one_iff _ _ (p, rp) (NoDup_filter _ Hnd) Hin) in Et.
    destruct (Z.eq_dec rq rp) as [-> | Hne]; [| lia].
    exfalso. apply Hq.
    assert (Hq' : In (q, rp) (filter (fun q => (snd q =? rp)%Z) ranks)).
    { apply filter_In. split; [now apply get_In | apply Z.eqb_refl]. }
    specialize (Et _ Hq'). congruence.
  - intros Hall. f_equal. apply Hzero. split.
    + unfold beaten_by. apply filter_length_0. intros [q rq] Hq. simpl.
      apply Z.ltb_ge.
      destruct (string_dec q p) as [-> | Hne].
      * rewrite (In_get _ _ Hwf Hq) in Hp. injection Hp as ->. lia.
      * specialize (Hall q rq Hne (In_get _ _ Hwf Hq)). lia.
    + unfold tied_at. apply (@length_one_iff _ _ (p, rp) (NoDup_filter _ Hnd) Hin).
      intros [q rq] Hq. apply filter_In in Hq. destruct Hq as [Hq Hr].
      simpl in Hr. apply Z.eqb_eq in Hr. subst rq.
      destruct (string_dec q p) as [-> | Hne]; [reflexivity |].
      specialize (Hall q rp Hne (In_get _ _ Hwf Hq)). lia.
Qed.

Lemma actual_score_zero_iff_sole_last_witness :
  exists scores,
    get_actual_scores_multiplayer [("A", 1); ("B", 3); ("C", 3)]%string%Z = Ok scores /\
    forall p rp,
      Dict.get p [("A", 1); ("B", 3); ("C", 3)]%string%Z = Some rp ->
      (Dict.get p scores = Some 0 <->
       forall q rq, q <> p ->
                    Dict.get q [("A", 1); ("B", 3); ("C", 3)]%string%Z = Some rq ->
                    (rq < rp)%Z).
Proof.
  apply (@actual_score_zero_iff_sole_last [("A", 1); ("B", 3); ("C", 3)]%string%Z).
  - unfold Dict.wf. simpl. repeat constructor; simpl; intuition discriminate.
  - simpl. lia.
Defined.

(** ** Insertion into dictionaries *)

Section DictSetFacts.
Context {V : Type}.
Implicit Types (d : Dict.t V) (k : string) (v : V).

Lemma get_set_any k k' v d :
  Dict.get k' (Dict.set k v d) = if String.eqb k' k then Some v else Dict.get k' d.
Proof.
  induction d as [| [k0 v0] d IH]; simpl.
  - destruct (String.eqb k' k); reflexivity.
  - destruct (String.eqb_spec k k0) as [-> | Hne]; simpl.
    + destruct (String.eqb_spec k' k0); reflexivity.
    + destruct (String.eqb_spec k' k0) as [-> | Hne'].
      * destruct (String.eqb_spec k0 k); [congruence | reflexivity].
      * exact IH.
Qed.

Lemma In_keys_iff k d : In k (Dict.keys d) <-> Dict.get k d <> None.
Proof.
  split.
  - intros H E. apply get_None in E. contradiction.
  - intros H. destruct (in_dec string_dec k (Dict.keys d)) as [Hi | Hni]; [exact Hi |].
    apply get_None in Hni. contradiction.
Qed.

Lemma set_wf k v d : Dict.wf d -> Dict.wf (Dict.set k v d).
Proof.
  unfold Dict.wf. intros Hwf.
  destruct (in_dec string_dec k (Dict.keys d)) as [Hi | Hni].
  - now rewrite keys_set.
  - rewrite set_fresh by exact Hni. unfold Dict.keys. rewrite map_app. simpl.
    apply NoDup_app; [exact Hwf | repeat constructor; intros [] |].
    intros x Hx [<- | []]. contradiction.
Qed.

Lemma fold_set_wf (l : list (string * V)) d :
  Dict.wf d ->
  Dict.wf (fold_left (fun acc kv => Dict.set (fst kv) (snd kv) acc) l d).
Proof.
  revert d. induction l as [| [k v] l IH]; intros d Hwf; simpl; [exact Hwf |].
  apply IH. now apply set_wf.
Qed.

Lemma get_app (d1 d2 : Dict.t V) k :
  Dict.get k (d1 ++ d2)
  = match Dict.get k d1 with
    | Some v => Some v
    | None => Dict.get k d2
    end.
Proof.
  induction d1 as [| [k1 v1] d1 IH]; simpl; [reflexivity |].
  destruct (String.eqb k k1); [reflexivity | exact IH].
Qed.

(** The last value inserted for a key wins. *)
Lemma get_fold_set (l : list (string * V)) d k :
  Dict.get k (fold_left (fun acc kv => Dict.set (fst kv) (snd kv) acc) l d)
  = match Dict.get k (rev l) with
    | Some v => Some v
    | None => Dict.get k d
    end.
Proof.
  revert d. induction l as [| [k0 v0] l IH]; intros d; simpl; [reflexivity |].
  rewrite IH, get_set_any, get_app. simpl.
  destruct (Dict.get k (rev l)); [reflexivity |].
  destruct (String.eqb k k0); reflexivity.
Qed.

Lemma of_items_any_wf (l : list (string * V)) : Dict.wf (Dict.of_items l).
Proof. apply fold_set_wf. constructor. Qed.

Lemma get_rev_wf d k : Dict.wf d -> Dict.get k (rev d) = Dict.get k d.
Proof.
  intros Hwf. symmetry. apply wf_perm_get; [exact Hwf | apply Permutation_rev].
Qed.

Lemma dict_update_wf d d' : Dict.wf d -> Dict.wf (dict_update d d').
Proof. apply fold_set_wf. Qed.

(** After [{**d, **d'}] a key has its value in [d'], or else its value in [d]. *)
Lemma get_dict_update d d' k :
  Dict.wf d' ->
  Dict.get k (dict_update d d')
  = match Dict.get k d' with
    | Some v => Some v
    | None => Dict.get k d
    end.
Proof.
  intros Hwf. unfold dict_update, Dict.items. rewrite get_fold_set.
  now rewrite get_rev_wf.
Qed.

End DictSetFacts.

(** ** Cleaning the rows *)

Lemma str_in_In (x : string) (l : list string) : str_in x l = true <-> In x l.
Proof.
  unfold str_in. rewrite existsb_exists. split.
  - intros [y [Hy E]]. apply String.eqb_eq in E. now subst.
  - intros H. exists x. split; [exact H | apply String.eqb_refl].
Qed.

Lemma str_in_not_In (x : string) (l : list string) : str_in x l = false <-> ~ In x l.
Proof.
  rewrite <- str_in_In. destruct (str_in x l); split; congruence.
Qed.

Lemma defective_false (row : poll_reply) :
  defective row = false <->
  In (reply_best row) (reply_all_options row) /\
  In (reply_worst row) (reply_all_options row).
Proof.
  unfold defective. rewrite orb_false_iff, !negb_false_iff, !str_in_In. tauto.
Qed.

Lemma In_defective_indices (data : list poll_reply) (i : string) :
  In i (defective_observation_indices data) <->
  exists row, In row data /\ reply_i row = i /\ defective row = true.
Proof.
  unfold defective_observation_indices. rewrite in_map_iff. split.
  - intros [row [E H]]. apply filter_In in H. exists row. tauto.
  - intros [row [H [E D]]]. exists row. split; [exact E |].
    apply filter_In. tauto.
Qed.

Lemma NoDup_map_inj {A B : Type} (f : A -> B) (l : list A) (a b : A) :
  NoDup (map f l) -> In a l -> In b l -> f a = f b -> a = b.
Proof.
  induction l as [| x l IH]; simpl; intros Hnd Ha Hb E; [contradiction |].
  inversion Hnd as [| ? ? Hx Hnd']; subst.
  destruct Ha as [-> | Ha], Hb as [-> | Hb]; try reflexivity.
  - exfalso. apply Hx. rewrite E. now apply in_map.
  - exfalso. apply Hx. rewrite <- E. now apply in_map.
  - now apply IH.
Qed.

Lemma data_cleaned_sound (data_formatted : list poll_reply) (row : poll_reply) :
  In row (data_cleaned data_formatted) ->
  In row data_formatted /\ defective row = false.
Proof.
  intros Hrow. unfold data_cleaned in Hrow. apply filter_In in Hrow.
  destruct Hrow as [Hin Hi]. split; [exact Hin |].
  apply negb_true_iff, str_in_not_In in Hi.
  destruct (defective row) eqn:D; [| reflexivity].
  exfalso. apply Hi. apply In_defective_indices. now exists row.
Qed.

(** X4. Every row that is kept has its best and its worst option among the
    options shown; a row is dropped as soon as some row with the same index
    is defective, so a sound row is lost when it shares its index with a
    defective one; when the indices are distinct the kept rows are exactly
    the sound rows, in their order. *)
Theorem data_cleaned_spec (data_formatted : list poll_reply) :
  (forall row,
      In row (data_cleaned data_formatted) ->
      In row data_formatted /\
      In (reply_best row) (reply_all_options row) /\
      In (reply_worst row) (reply_all_options row)) /\
  (forall row row',
      In row data_formatted -> In row' data_formatted ->
      reply_i row = reply_i row' ->
      ~ (In (reply_best row') (reply_all_options row') /\
         In (reply_worst row') (reply_all_options row')) ->
      ~ In row (data_cleaned data_formatted)) /\
  (NoDup (map reply_i data_formatted) ->
   data_cleaned data_formatted
   = filter (fun row => str_in (reply_best row) (reply_all_options row)
                        && str_in (reply_worst row) (reply_all_options row))
            data_formatted).
Proof.
  split; [| split].
  - intros row Hrow. destruct (data_cleaned_sound _ _ Hrow) as [Hin D].
    split; [exact Hin | now apply defective_false].
  - intros row row' Hrow Hrow' Ei Hdef Hc.
    unfold data_cleaned in Hc. apply filter_In in Hc. destruct Hc as [_ Hi].
    apply negb_true_iff, str_in_not_In in Hi. apply Hi.
    apply In_defective_indices. exists row'. repeat split; [exact Hrow' | now symmetry |].
    destruct (defective row') eqn:D; [reflexivity |].
    apply defective_false in D. contradiction.
  - intros Hnd. unfold data_cleaned. apply filter_ext_in. intros row Hrow.
    destruct (defective row) eqn:D.
    + assert (Hi : str_in (reply_i row) (defective_observation_indices data_formatted)
                   = true)
        by (apply str_in_In, In_defective_indices; now exists row).
      rewrite Hi. unfold defective in D. simpl.
      destruct (str_in (reply_best row) (reply_all_options row)),
               (str_in (reply_worst row) (reply_all_options row));
        simpl in *; congruence.
    + assert (Hi : str_in (reply_i row) (defective_observation_indices data_formatted)
                   = false).
      { apply str_in_not_In. intros Hi. apply In_defective_indices in Hi.
        destruct Hi as [row' [Hrow' [E D']]].
        rewrite (@NoDup_map_inj _ _ reply_i data_formatted row' row Hnd Hrow' Hrow E)
          in D'.
        congruence. }
      rewrite Hi. apply defective_false in D. destruct D as [D1 D2].
      apply str_in_In in D1, D2. rewrite D1, D2. reflexivity.
Qed.

Lemma data_cleaned_spec_witness :
  data_cleaned poll_example
  = filter (fun row => str_in (reply_best row) (reply_all_options row)
                       && str_in (reply_worst row) (reply_all_options row))
           poll_example.
Proof.
  apply (proj2 (proj2 (data_cleaned_spec poll_example))).
  simpl. repeat constructor; simpl; intuition discriminate.
Defined.

(** ** The ranks of a row *)

Example ranks_of_ex :
  ranks_of {| reply_i := "7"%string; reply_best := "b"%string;
              reply_worst := "d"%string;
              reply_all_options := ["a"; "b"; "c"; "d"; "e"]%string;
              reply_weight := 1 |}
  = [("b", 1); ("d", 6); ("a", 2); ("c", 2); ("e", 2)]%string%Z.
Proof. reflexivity. Qed.

Example ranks_of_same_best_worst :
  ranks_of {| reply_i := "7"%string; reply_best := "b"%string;
              reply_worst := "b"%string;
              reply_all_options := ["a"; "b"; "c"]%string; reply_weight := 1 |}
  = [("b", 4); ("a", 2); ("c", 2)]%string%Z.
Proof. reflexivity. Qed.

Lemma In_tied_of (row : poll_reply) (o : string) :
  In o (tied_of row) <->
  In o (reply_all_options row) /\ o <> reply_best row /\ o <> reply_worst row.
Proof.
  unfold tied_of. rewrite filter_In, andb_true_iff, !negb_true_iff, !String.eqb_neq.
  tauto.
Qed.

Lemma get_tied_dict (row : poll_reply) (k : string) :
  Dict.get k (Dict.of_items (map (fun i => (i, 2%Z)) (tied_of row)))
  = if in_dec string_dec k (tied_of row) then Some 2%Z else None.
Proof.
  unfold Dict.of_items. rewrite get_fold_set, <- map_rev. simpl.
  rewrite (get_map_pair (rev (tied_of row)) (fun _ => 2%Z) k).
  destruct (in_dec string_dec k (rev (tied_of row))) as [H | H],
           (in_dec string_dec k (tied_of row)) as [H' | H']; try reflexivity.
  - exfalso. apply H'. now apply in_rev.
  - exfalso. apply H. now apply in_rev in H'.
Qed.

Lemma get_ranks_of (row : poll_reply) (k : string) :
  Dict.get k (ranks_of row)
  = if in_dec string_dec k (tied_of row) then Some 2%Z
    else if String.eqb k (reply_worst row)
         then Some (Z.of_nat (length (reply_all_options row)) + 1)%Z
         else if String.eqb k (reply_best row) then Some 1%Z else None.
Proof.
  unfold ranks_of. rewrite get_dict_update by apply of_items_any_wf.
  rewrite get_tied_dict.
  destruct (in_dec string_dec k (tied_of row)); [reflexivity |].
  unfold Dict.of_items. rewrite get_fold_set. simpl.
  destruct (String.eqb k (reply_worst row)); [reflexivity |].
  destruct (String.eqb k (reply_best row)); reflexivity.
Qed.

Lemma NoDup_two {A : Type} (l : list A) (a b : A) :
  NoDup l -> In a l -> In b l -> a <> b -> (2 <= length l)%nat.
Proof.
  intros Hnd Ha Hb Hab.
  destruct l as [| x [| y l]]; simpl in *; try lia; try contradiction.
  destruct Ha as [<- | []], Hb as [<- | []]. congruence.
Qed.

Lemma ranks_of_wf (row : poll_reply) : Dict.wf (ranks_of row).
Proof. apply dict_update_wf, of_items_any_wf. Qed.

Lemma keys_ranks_of (row : poll_reply) (k : string) :
  In (reply_best row) (reply_all_options row) ->
  In (reply_worst row) (reply_all_options row) ->
  In k (Dict.keys (ranks_of row)) <-> In k (reply_all_options row).
Proof.
  intros Hbest Hworst. rewrite In_keys_iff, get_ranks_of.
  destruct (in_dec string_dec k (tied_of row)) as [Ht | Ht].
  - apply In_tied_of in Ht. split; [tauto | discriminate].
  - destruct (String.eqb_spec k (reply_worst row)) as [-> | Hw];
      [split; [auto | discriminate] |].
    destruct (String.eqb_spec k (reply_best row)) as [-> | Hb];
      [split; [auto | discriminate] |].
    split; [congruence |]. intros Hin. exfalso. apply Ht.
    apply In_tied_of. tauto.
Qed.

Lemma get_ranks_of_worst (row : poll_reply) :
  Dict.get (reply_worst row) (ranks_of row)
  = Some (Z.of_nat (length (reply_all_options row)) + 1)%Z.
Proof.
  rewrite get_ranks_of.
  destruct (in_dec string_dec _ (tied_of row)) as [Ht | _].
  - apply In_tied_of in Ht. tauto.
  - now rewrite String.eqb_refl.
Qed.

Lemma get_ranks_of_best (row : poll_reply) :
  reply_best row <> reply_worst row ->
  Dict.get (reply_best row) (ranks_of row) = Some 1%Z.
Proof.
  intros Hne. rewrite get_ranks_of.
  destruct (in_dec string_dec _ (tied_of row)) as [Ht | _].
  - apply In_tied_of in Ht. tauto.
  - destruct (String.eqb_spec (reply_best row) (reply_worst row)); [contradiction |].
    now rewrite String.eqb_refl.
Qed.

Lemma get_ranks_of_tied (row : poll_reply) (o : string) :
  In o (reply_all_options row) -> o <> reply_best row -> o <> reply_worst row ->
  Dict.get o (ranks_of row) = Some 2%Z.
Proof.
  intros Ho Hb Hw. rewrite get_ranks_of.
  destruct (in_dec string_dec o (tied_of row)) as [_ | Ht]; [reflexivity |].
  exfalso. apply Ht. apply In_tied_of. tauto.
Qed.

Lemma ranks_of_two (row : poll_reply) :
  In (reply_best row) (reply_all_options row) ->
  In (reply_worst row) (reply_all_options row) ->
  reply_best row <> reply_worst row ->
  (2 <= length (ranks_of row))%nat.
Proof.
  intros Hb Hw Hne. rewrite <- (length_map fst (ranks_of row)).
  apply (@NoDup_two _ _ (reply_best row) (reply_worst row));
    [apply ranks_of_wf | now apply keys_ranks_of | now apply keys_ranks_of
     | exact Hne].
Qed.


(** X5. For a row whose best and worst options are among the options shown,
    the ranks have distinct keys, which are the options shown; the worst
    option has the rank [len(all_options) + 1], every other option but the
    best has the rank 2, and when the best and the worst option differ the
    best has the rank 1 and there are two or more participants.  (When
    they are the same option, it keeps the rank of the worst.) *)
Theorem ranks_of_spec (row : poll_reply) :
  In (reply_best row) (reply_all_options row) ->
  In (reply_worst row) (reply_all_options row) ->
  Dict.wf (ranks_of row) /\
  (forall k, In k (Dict.keys (ranks_of row)) <-> In k (reply_all_options row)) /\
  Dict.get (reply_worst row) (ranks_of row)
  = Some (Z.of_nat (length (reply_all_options row)) + 1)%Z /\
  (forall o, In o (reply_all_options row) ->
             o <> reply_best row -> o <> reply_worst row ->
             Dict.get o (ranks_of row) = Some 2%Z) /\
  (reply_best row <> reply_worst row ->
   Dict.get (reply_best row) (ranks_of row) = Some 1%Z /\
   (2 <= length (ranks_of row))%nat) /\
  (NoDup (reply_all_options row) ->
   length (ranks_of row) = length (reply_all_options row)).
Proof.
  intros Hbest Hworst.
  split; [apply ranks_of_wf |].
  split; [intros k; now apply keys_ranks_of |].
  split; [apply get_ranks_of_worst |].
  split; [apply get_ranks_of_tied |].
  split.
  - intros Hne. split; [now apply get_ranks_of_best | now apply ranks_of_two].
  - intros Hnd. rewrite <- (length_map fst (ranks_of row)).
    apply Permutation_length, NoDup_Permutation;
      [apply ranks_of_wf | exact Hnd | intros k; now apply keys_ranks_of].
Qed.

Lemma ranks_of_spec_witness :
  Dict.wf (ranks_of reply_example) /\
  (forall k, In k (Dict.keys (ranks_of reply_example)) <-> In k (reply_all_options reply_example)) /\
  Dict.get (reply_worst reply_example) (ranks_of reply_example)
  = Some (Z.of_nat (length (reply_all_options reply_example)) + 1)%Z /\
  (forall o, In o (reply_all_options reply_example) ->
             o <> reply_best reply_example -> o <> reply_worst reply_example ->
             Dict.get o (ranks_of reply_example) = Some 2%Z) /\
  (reply_best reply_example <> reply_worst reply_example ->
   Dict.get (reply_best reply_example) (ranks_of reply_example) = Some 1%Z /\
   (2 <= length (ranks_of reply_example))%nat) /\
  (NoDup (reply_all_options reply_example) ->
   length (ranks_of reply_example) = length (reply_all_options reply_example)).
Proof.
  apply (@ranks_of_spec reply_example).
  - simpl. auto.
  - simpl. auto.
Defined.

(** ** The starting ratings *)

Lemma elo_ratings_initial_flat (data : list poll_reply) :
  elo_ratings_initial data
  = fold_left add_option (flat_map reply_all_options data) [].
Proof.
  unfold elo_ratings_initial. generalize (@nil (string * R)) as acc.
  induction data as [| row data IH]; intros acc; simpl; [reflexivity |].
  rewrite fold_left_app. apply IH.
Qed.

Lemma add_options_spec (l : list string) (d : Dict.t R) :
  Dict.wf d -> (forall k v, Dict.get k d = Some v -> v = elo_starting_score) ->
  Dict.wf (fold_left add_option l d) /\
  (forall k, In k (Dict.keys (fold_left add_option l d))
             <-> In k (Dict.keys d) \/ In k l) /\
  (forall k v, Dict.get k (fold_left add_option l d) = Some v ->
               v = elo_starting_score).
Proof.
  revert d. induction l as [| o l IH]; intros d Hwf Hval; simpl.
  - repeat split; [exact Hwf | tauto | tauto | exact Hval].
  - assert (Hwf' : Dict.wf (add_option d o)).
    { unfold add_option. destruct (Dict.get o d); [exact Hwf | now apply set_wf]. }
    assert (Hget : forall k, Dict.get k (add_option d o)
                             = match Dict.get k d with
                               | Some v => Some v
                               | None => if String.eqb k o
                                         then Some elo_starting_score else None
                               end).
    { intros k. unfold add_option. destruct (Dict.get o d) as [v |] eqn:Eo.
      - destruct (Dict.get k d) eqn:Ek; [reflexivity |].
        destruct (String.eqb_spec k o) as [-> | _]; [congruence | reflexivity].
      - rewrite get_set_any.
        destruct (String.eqb_spec k o) as [-> | _]; [now rewrite Eo |].
        now destruct (Dict.get k d). }
    assert (Hval' : forall k v, Dict.get k (add_option d o) = Some v ->
                                v = elo_starting_score).
    { intros k v. rewrite Hget. destruct (Dict.get k d) as [v' |] eqn:Ek.
      - intros E. injection E as <-. now apply (Hval k).
      - destruct (String.eqb k o); congruence. }
    destruct (IH _ Hwf' Hval') as (H1 & H2 & H3).
    split; [exact H1 |]. split; [| exact H3].
    intros k. rewrite H2, !In_keys_iff, Hget.
    destruct (Dict.get k d) eqn:Ek.
    + split; [left; discriminate | intros _; left; discriminate].
    + destruct (String.eqb_spec k o) as [-> | Hne].
      * split; [intros _; right; now left | intros _; left; discriminate].
      * split; [intros [H | H]; [congruence | tauto] |].
        intros [H | [H | H]]; [congruence | congruence | tauto].
Qed.

Lemma elo_ratings_initial_facts (data_cleaned : list poll_reply) :
  Dict.wf (elo_ratings_initial data_cleaned) /\
  (forall option,
      In option (Dict.keys (elo_ratings_initial data_cleaned)) <->
      exists row, In row data_cleaned /\ In option (reply_all_options row)) /\
  (forall option v,
      Dict.get option (elo_ratings_initial data_cleaned) = Some v ->
      v = elo_starting_score).
Proof.
  rewrite elo_ratings_initial_flat.
  destruct (@add_options_spec (flat_map reply_all_options data_cleaned) [])
    as (H1 & H2 & H3); [constructor | discriminate |].
  split; [exact H1 |]. split; [| exact H3].
  intros o. rewrite H2, in_flat_map. simpl. tauto.
Qed.

Lemma sum_values_const (d : Dict.t R) (c : R) :
  (forall k v, Dict.get k d = Some v -> v = c) -> Dict.wf d ->
  sum (Dict.values d) = INR (length d) * c.
Proof.
  intros Hval Hwf.
  assert (Hall : forall v, In v (Dict.values d) -> v = c).
  { intros v Hv. unfold Dict.values in Hv. apply in_map_iff in Hv.
    destruct Hv as [[k v'] [E Hin]]. simpl in E. subst v'.
    apply (Hval k). now apply In_get. }
  unfold Dict.values in *. rewrite <- (length_map snd d).
  induction (map snd d) as [| v l IH]; [simpl; rewrite sum_nil; lra |].
  rewrite sum_cons, IH by (intros; apply Hall; now right).
  rewrite (Hall v (or_introl eq_refl)). cbn [length]. rewrite S_INR. lra.
Qed.

(** X6. The starting ratings have distinct keys, which are the options shown
    in some row of the cleaned data, and every one of them has the rating
    [elo_starting_score]; so they add up to the number of options times
    [elo_starting_score]. *)
Theorem elo_ratings_initial_spec (data_cleaned : list poll_reply) :
  Dict.wf (elo_ratings_initial data_cleaned) /\
  (forall option,
      In option (Dict.keys (elo_ratings_initial data_cleaned)) <->
      exists row, In row data_cleaned /\ In option (reply_all_options row)) /\
  (forall option,
      In option (Dict.keys (elo_ratings_initial data_cleaned)) ->
      Dict.get option (elo_ratings_initial data_cleaned) = Some elo_starting_score) /\
  sum (Dict.values (elo_ratings_initial data_cleaned))
  = INR (length (elo_ratings_initial data_cleaned)) * elo_starting_score.
Proof.
  destruct (elo_ratings_initial_facts data_cleaned) as (H1 & H2 & H3).
  split; [exact H1 |]. split; [exact H2 |]. split.
  - intros o Ho. destruct (In_keys_get _ _ Ho) as [v Hv].
    rewrite Hv. f_equal. now apply (H3 o).
  - now apply sum_values_const.
Qed.

Lemma elo_ratings_initial_spec_witness :
  Dict.get "f"%string (elo_ratings_initial (data_cleaned poll_example))
  = Some elo_starting_score.
Proof.
  apply (proj1 (proj2 (proj2 (elo_ratings_initial_spec (data_cleaned poll_example))))).
  simpl. auto 10.
Defined.

(** ** The script as a whole *)



(** ** The actual scores of a row *)

Lemma three_rank_counts (ranks : Dict.t Z) (L : Z) :
  (2 <= L)%Z ->
  Forall (fun q => snd q = 1 \/ snd q = 2 \/ snd q = L + 1)%Z ranks ->
  (tied_at ranks 1 + tied_at ranks 2 + tied_at ranks (L + 1) = length ranks /\
   beaten_by ranks 1 = tied_at ranks 2 + tied_at ranks (L + 1) /\
   beaten_by ranks 2 = tied_at ranks (L + 1) /\
   beaten_by ranks (L + 1) = 0)%nat.
Proof.
  intros HL Hall. unfold tied_at, beaten_by.
  induction Hall as [| [k x] ranks Hx _ IH]; simpl; [lia |].
  simpl in Hx.
  destruct (Z.eqb_spec x 1), (Z.eqb_spec x 2), (Z.eqb_spec x (L + 1)),
           (Z.ltb_spec 1 x), (Z.ltb_spec 2 x), (Z.ltb_spec (L + 1) x);
    simpl; lia.
Qed.

Lemma tied_at_one (ranks : Dict.t Z) (p : string) (r : Z) :
  Dict.wf ranks -> Dict.get p ranks = Some r ->
  (forall q, Dict.get q ranks = Some r -> q = p) ->
  tied_at ranks r = 1%nat.
Proof.
  intros Hwf Hp Huniq. unfold tied_at.
  assert (Hnd : NoDup ranks) by (eapply NoDup_map_inv; exact Hwf).
  assert (Hin : In (p, r) (filter (fun q => (snd q =? r)%Z) ranks)).
  { apply filter_In. split; [now apply get_In | apply Z.eqb_refl]. }
  apply (@length_one_iff _ _ (p, r) (NoDup_filter _ Hnd) Hin).
  intros [q x] Hq. apply filter_In in Hq. destruct Hq as [Hq Hx].
  simpl in Hx. apply Z.eqb_eq in Hx. subst x.
  now rewrite (Huniq q (In_get _ _ Hwf Hq)).
Qed.

(** X8. For a row whose best and worst options are shown and differ, the
    actual scores are [2 / n] for the best option, 0 for the worst and
    [1 / n] for every other option, where [n] is the number of distinct
    options shown. *)
Theorem reply_actual_scores (row : poll_reply) :
  In (reply_best row) (reply_all_options row) ->
  In (reply_worst row) (reply_all_options row) ->
  reply_best row <> reply_worst row ->
  exists scores,
    get_actual_scores_multiplayer (ranks_of row) = Ok scores /\
    Dict.get (reply_best row) scores = Some (2 / INR (length (ranks_of row))) /\
    Dict.get (reply_worst row) scores = Some 0 /\
    forall o, In o (reply_all_options row) ->
              o <> reply_best row -> o <> reply_worst row ->
              Dict.get o scores = Some (1 / INR (length (ranks_of row))).
Proof.
  intros Hb Hw Hne.
  pose proof (ranks_of_wf row) as Hwf.
  pose proof (get_ranks_of_worst row) as Hgw.
  pose proof (@get_ranks_of_best row Hne) as Hgb.
  pose proof (@ranks_of_two row Hb Hw Hne) as Hn.
  set (L := Z.of_nat (length (reply_all_options row))) in *.
  assert (HL : (2 <= L)%Z).
  { unfold L.
    assert (2 <= length (reply_all_options row))%nat; [| lia].
    destruct (reply_all_options row) as [| x [| y l]]; simpl in *; try lia;
      try contradiction.
    destruct Hb as [E1 | []], Hw as [E2 | []]. congruence. }
  assert (Hall : Forall (fun q => snd q = 1 \/ snd q = 2 \/ snd q = L + 1)%Z
                        (ranks_of row)).
  { apply Forall_forall. intros [k x] Hk. simpl.
    apply (In_get _ _ Hwf) in Hk. rewrite get_ranks_of in Hk. fold L in Hk.
    destruct (in_dec string_dec k (tied_of row)); [injection Hk; lia |].
    destruct (String.eqb k (reply_worst row)); [injection Hk; lia |].
    destruct (String.eqb k (reply_best row)); [injection Hk; lia | discriminate]. }
  destruct (three_rank_counts HL Hall) as (C1 & C2 & C3 & C4).
  assert (T1 : tied_at (ranks_of row) 1 = 1%nat).
  { apply (tied_at_one (p := reply_best row) Hwf Hgb).
    intros q Hq. rewrite get_ranks_of in Hq. fold L in Hq.
    destruct (in_dec string_dec q (tied_of row)); [discriminate |].
    destruct (String.eqb q (reply_worst row)); [injection Hq; lia |].
    destruct (String.eqb_spec q (reply_best row)); [assumption | discriminate]. }
  assert (T3 : tied_at (ranks_of row) (L + 1) = 1%nat).
  { apply (tied_at_one (p := reply_worst row) Hwf Hgw).
    intros q Hq. rewrite get_ranks_of in Hq. fold L in Hq.
    destruct (in_dec string_dec q (tied_of row)); [injection Hq; lia |].
    destruct (String.eqb_spec q (reply_worst row)); [assumption |].
    destruct (String.eqb q (reply_best row)); [injection Hq; lia | discriminate]. }
  destruct (get_actual_scores_ok Hwf Hn) as (raw & _ & _ & _ & Hres).
  eexists. split; [exact Hres |].
  pose proof (fun p r => @actual_score_value (ranks_of row) _ p r Hwf Hn Hres) as Hval.
  set (d := length (ranks_of row)) in *.
  assert (Hd : 2 <= INR d) by (apply le_INR in Hn; exact Hn).
  assert (Hd2 : INR (tied_at (ranks_of row) 2) = INR d - 2).
  { rewrite T1, T3 in C1.
    replace d with (tied_at (ranks_of row) 2 + 2)%nat by lia.
    rewrite plus_INR. simpl. lra. }
  split; [| split].
  - rewrite (Hval _ _ Hgb), C2, T1, T3, plus_INR, Hd2, comb_2. simpl.
    f_equal. field. lra.
  - rewrite (Hval _ _ Hgw), C4, T3. simpl. f_equal. unfold Rdiv. ring.
  - intros o Ho Hob How.
    rewrite (Hval _ _ (@get_ranks_of_tied row o Ho Hob How)), C3, T3, Hd2, comb_2.
    simpl.
    f_equal. field. lra.
Qed.

Lemma reply_actual_scores_witness :
  exists scores,
    get_actual_scores_multiplayer (ranks_of reply_example) = Ok scores /\
    Dict.get (reply_best reply_example) scores = Some (2 / INR (length (ranks_of reply_example))) /\
    Dict.get (reply_worst reply_example) scores = Some 0 /\
    forall o, In o (reply_all_options reply_example) ->
              o <> reply_best reply_example -> o <> reply_worst reply_example ->
              Dict.get o scores = Some (1 / INR (length (ranks_of reply_example))).
Proof.
  apply (@reply_actual_scores reply_example).
  - simpl. auto.
  - simpl. auto.
  - simpl. discriminate.
Defined.

(** ** Participants without a rating *)

Lemma mapM_raise {A B : Type} (f : A -> result B) (l1 l2 : list A) (a : A) (e : exn) :
  (forall x, In x l1 -> exists b, f x = Ok b) -> f a = Raise e ->
  mapM f (l1 ++ a :: l2) = Raise e.
Proof.
  intros Hok Ha. induction l1 as [| x l1 IH]; simpl.
  - now rewrite Ha.
  - destruct (Hok x (or_introl eq_refl)) as [b ->]. simpl.
    rewrite IH by (intros; apply Hok; now right). reflexivity.
Qed.

(** X9. When a participant of the game has no rating, the rating changes
    are not computed: [get_rating_changes_multiplayer] raises [KeyError]
    with the first such participant, in the order of the ranks, and so does
    the loop body, whatever the ranks and the weight are. *)
Theorem unrated_participant_raises
        (P : R -> R) (K : R) (ratings : Dict.t R) (data_row : observation)
        (rated rest : list string) (p : string) :
  Dict.keys (row_ranks data_row) = rated ++ p :: rest ->
  (forall q, In q rated -> In q (Dict.keys ratings)) ->
  ~ In p (Dict.keys ratings) ->
  get_rating_changes_multiplayer P ratings (row_ranks data_row) K = Raise (KeyError p) /\
  update_ratings P K ratings data_row = Raise (KeyError p).
Proof.
  intros Hkeys Hrated Hp.
  assert (H : get_rating_changes_multiplayer P ratings (row_ranks data_row) K
              = Raise (KeyError p)).
  { unfold get_rating_changes_multiplayer, dict_comp. rewrite Hkeys.
    rewrite (@mapM_raise _ _ _ rated rest p (KeyError p)); [reflexivity | |].
    - intros q Hq. rewrite getitem_rating_of by (now apply Hrated). simpl. eauto.
    - unfold Dict.getitem. apply get_None in Hp. now rewrite Hp. }
  split; [exact H |]. unfold update_ratings. now rewrite H.
Qed.

Lemma unrated_participant_raises_witness :
  get_rating_changes_multiplayer p_function [("A", 0); ("B", 0)]%string
    [("A", 1); ("C", 2); ("B", 3)]%string%Z 32 = Raise (KeyError "C"%string) /\
  update_ratings p_function 32 [("A", 0); ("B", 0)]%string
    {| row_ranks := [("A", 1); ("C", 2); ("B", 3)]%string%Z; row_weight := 1 |}
  = Raise (KeyError "C"%string).
Proof.
  apply (@unrated_participant_raises p_function 32 [("A", 0); ("B", 0)]%string
           {| row_ranks := [("A", 1); ("C", 2); ("B", 3)]%string%Z; row_weight := 1 |}
           ["A"%string] ["B"%string] "C"%string).
  - reflexivity.
  - simpl. intuition.
  - simpl. intuition discriminate.
Defined.

(** ** The outcomes of the score functions *)

(** X10. On ranks with distinct names [get_actual_scores_multiplayer] fails
    only for a single participant, and then with [ZeroDivisionError]; in
    every other case, the empty game included, it returns scores with
    distinct names, which are the names of the participants. *)
Theorem actual_scores_outcome (ranks : Dict.t Z) :
  Dict.wf ranks ->
  match get_actual_scores_multiplayer ranks with
  | Ok scores =>
      length ranks <> 1%nat /\ Dict.wf scores /\
      Permutation (Dict.keys scores) (Dict.keys ranks)
  | Raise e => e = ZeroDivisionError /\ length ranks = 1%nat
  end.
Proof.
  intros Hwf.
  destruct ranks as [| [k r] [| kr ranks]].
  - change (get_actual_scores_multiplayer []) with (@Ok (Dict.t R) []).
    repeat split; [discriminate | constructor | constructor].
  - assert (E : get_actual_scores_multiplayer [(k, r)] = Raise ZeroDivisionError).
    { unfold get_actual_scores_multiplayer, Dict.of_items. simpl.
      vm_eval (collect_ties (ties_vector_of [r]) 0 []). simpl.
      unfold sum. simpl. rewrite Rplus_0_l, py_div_zero. reflexivity. }
    rewrite E. split; reflexivity.
  - set (ranks' := (k, r) :: kr :: ranks) in *.
    assert (Hn : (2 <= length ranks')%nat) by (simpl; lia).
    destruct (get_actual_scores_ok Hwf Hn) as (raw & _ & _ & _ & Hres).
    destruct (@actual_scores_keys ranks' Hwf Hn _ Hres) as [H1 H2].
    rewrite Hres. split; [simpl; lia |]. split; assumption.
Qed.

Lemma actual_scores_outcome_witness :
  match get_actual_scores_multiplayer [("A", 1); ("B", 1); ("C", 7)]%string%Z with
  | Ok scores =>
      length [("A", 1); ("B", 1); ("C", 7)]%string%Z <> 1%nat /\ Dict.wf scores /\
      Permutation (Dict.keys scores)
                  (Dict.keys [("A", 1); ("B", 1); ("C", 7)]%string%Z)
  | Raise e => e = ZeroDivisionError
               /\ length [("A", 1); ("B", 1); ("C", 7)]%string%Z = 1%nat
  end.
Proof.
  apply (@actual_scores_outcome [("A", 1); ("B", 1); ("C", 7)]%string%Z).
  unfold Dict.wf. simpl. repeat constructor; simpl; intuition discriminate.
Defined.

(** X11. The expected score of a player that is not among the ratings is
    not 0 but an error: [KeyError] with the name of the player when there
    are ratings, [ZeroDivisionError] when there are none. *)
Theorem expected_score_unrated_player
        (P : R -> R) (player : string) (ratings : Dict.t R) :
  ~ In player (Dict.keys ratings) ->
  get_expected_score_multiplayer P player ratings
  = match ratings with
    | [] => Raise ZeroDivisionError
    | _ :: _ => Raise (KeyError player)
    end.
Proof.
  intros Hp. unfold get_expected_score_multiplayer.
  destruct ratings as [| [k v] ratings].
  - simpl. apply py_div_zero.
  - fold (opponents player (Dict.keys ((k, v) :: ratings))).
    rewrite opponents_notin by exact Hp.
    apply get_None in Hp. simpl Dict.keys. cbn [map fst mapM].
    unfold Dict.getitem at 1. rewrite Hp. reflexivity.
Qed.

Lemma expected_score_unrated_player_witness :
  get_expected_score_multiplayer p_function "C"%string [("A", 0); ("B", 0)]%string
  = Raise (KeyError "C"%string).
Proof.
  apply (@expected_score_unrated_player p_function "C"%string
           [("A", 0); ("B", 0)]%string).
  simpl. intuition discriminate.
Defined.

(** ** Bounds on the expected scores and on the rating changes *)

Lemma opponents_length (p : string) (ks : list string) :
  NoDup ks -> In p ks -> (length (opponents p ks) + 1 = length ks)%nat.
Proof.
  induction 1 as [| k ks Hk Hnd IH]; simpl; [tauto |].
  intros [-> | Hin].
  - rewrite String.eqb_refl. simpl.
    fold (opponents p ks). rewrite opponents_notin by assumption. lia.
  - destruct (String.eqb_spec k p) as [-> | Hne]; [contradiction |].
    simpl. fold (opponents p ks). rewrite <- IH by assumption. lia.
Qed.

Lemma sum_map_bounds {A : Type} (f : A -> R) (l : list A) :
  l <> [] -> (forall a, In a l -> 0 < f a < 1) ->
  0 < sum (map f l) < INR (length l).
Proof.
  intros Hne Hf. induction l as [| a l IH]; [congruence |].
  cbn [map length]. rewrite sum_cons, S_INR.
  pose proof (Hf a (or_introl eq_refl)) as Ha.
  destruct l as [| b l].
  - simpl. rewrite sum_nil. lra.
  - assert (H : 0 < sum (map f (b :: l)) < INR (length (b :: l)))
      by (apply IH; [discriminate | intros; apply Hf; now right]).
    lra.
Qed.

Lemma pairwise_sum_bounds (P : R -> R) (r : string -> R) (ks : list string) (p : string) :
  (forall x, 0 < P x < 1) -> NoDup ks -> (2 <= length ks)%nat -> In p ks ->
  0 < pairwise_sum P r ks p < INR (length ks) - 1.
Proof.
  intros HP Hnd Hn Hp. unfold pairwise_sum. rewrite map_map.
  pose proof (@opponents_length p ks Hnd Hp) as Hlen.
  replace (INR (length ks) - 1) with (INR (length (opponents p ks)))
    by (rewrite <- Hlen, plus_INR; simpl; lra).
  apply sum_map_bounds.
  - intros E. rewrite E in Hlen. simpl in Hlen. lia.
  - intros o _. apply HP.
Qed.

(** X12. For a probability function with values strictly between 0 and 1
    and two or more ratings with distinct names, the expected score of a
    rated player lies strictly between 0 and [2 / n]. *)
Theorem expected_score_bounds (P : R -> R) (player : string) (ratings : Dict.t R) :
  (forall x, 0 < P x < 1) ->
  Dict.wf ratings -> (2 <= length ratings)%nat -> In player (Dict.keys ratings) ->
  exists expected_score,
    get_expected_score_multiplayer P player ratings = Ok expected_score /\
    0 < expected_score < 2 / INR (length ratings).
Proof.
  intros HP Hwf Hn Hp. eexists. split; [now apply expected_score_ok |].
  assert (Hlen : length (Dict.keys ratings) = length ratings)
    by (unfold Dict.keys; apply length_map).
  pose proof (@pairwise_sum_bounds P (rating_of ratings) (Dict.keys ratings) player
                HP Hwf ltac:(lia) Hp) as [H1 H2].
  rewrite Hlen in H2. rewrite comb_2.
  assert (HN : 2 <= INR (length ratings)) by (apply le_INR in Hn; exact Hn).
  pose proof (pair_sum_pos Hn) as HC.
  split.
  - apply Rdiv_lt_0_compat; assumption.
  - apply Rmult_lt_reg_r with (INR (length ratings) * (INR (length ratings) - 1) / 2);
      [exact HC |].
    unfold Rdiv at 1. rewrite Rmult_assoc, Rinv_l by lra.
    replace (2 / INR (length ratings)
             * (INR (length ratings) * (INR (length ratings) - 1) / 2))
      with (INR (length ratings) - 1) by (field; lra).
    lra.
Qed.

Lemma expected_score_bounds_witness :
  exists expected_score,
    get_expected_score_multiplayer p_function "A"%string
      [("A", 10); ("B", 0); ("C", -5)]%string = Ok expected_score /\
    0 < expected_score < 2 / INR 3.
Proof.
  apply (@expected_score_bounds p_function "A"%string
           [("A", 10); ("B", 0); ("C", -5)]%string).
  - intros x. unfold p_function. apply p_logistic_range.
  - unfold Dict.wf. simpl. repeat constructor; simpl; intuition discriminate.
  - simpl. lia.
  - simpl. intuition.
Defined.

(** X13. For a probability function with values strictly between 0 and 1, a
    positive [game_points_coef] and two or more rated participants, every
    rating change of a game is smaller in absolute value than
    [2 * K * (n - 1) / n]. *)
Theorem rating_change_bound
        (P : R -> R) (K : R) (ratings : Dict.t R) (ranks : Dict.t Z) :
  (forall x, 0 < P x < 1) -> 0 < K ->
  Dict.wf ranks -> (2 <= length ranks)%nat ->
  (forall p, In p (Dict.keys ranks) -> In p (Dict.keys ratings)) ->
  exists rating_changes,
    get_rating_changes_multiplayer P ratings ranks K = Ok rating_changes /\
    forall p change,
      Dict.get p rating_changes = Some change ->
      Rabs change < 2 * K * (INR (length ranks) - 1) / INR (length ranks).
Proof.
  intros HP HK Hwf Hn Hrated.
  destruct (get_actual_scores_ok Hwf Hn) as (raw & _ & _ & _ & Hact).
  set (actual := combine (map fst (sorted_by_rank ranks))
                         (map (fun i => i / sum raw) raw)) in *.
  eexists. split.
  { apply (@rating_changes_ok P K ratings ranks Hwf Hn Hrated _ Hact). }
  intros p change Hp.
  assert (Hin : In p (Dict.keys ranks)).
  { apply get_Some_key in Hp. unfold rating_changes_of in Hp.
    now rewrite keys_map_pair in Hp. }
  unfold rating_changes_of in Hp. rewrite get_map_pair in Hp.
  destruct (in_dec string_dec p (Dict.keys ranks)); [| contradiction].
  injection Hp as <-.
  assert (Ha : 0 <= rating_of actual p <= 2 / INR (length ranks)).
  { destruct (@actual_scores_keys ranks Hwf Hn _ Hact) as [_ HPerm].
    apply (@actual_score_range ranks actual p _ Hwf Hn Hact). apply get_rating_of.
    eapply Permutation_in; [apply Permutation_sym; exact HPerm | exact Hin]. }
  assert (Hlen : length (Dict.keys ranks) = length ranks)
    by (unfold Dict.keys; apply length_map).
  assert (He : 0 < rating_of (expected_scores_of P ratings ranks) p
               < 2 / INR (length ranks)).
  { unfold expected_scores_of. rewrite rating_of_map_pair by exact Hin.
    pose proof (@pairwise_sum_bounds P (rating_of ratings) (Dict.keys ranks) p
                  HP Hwf ltac:(lia) Hin) as [H1 H2].
    rewrite Hlen in H2. rewrite comb_2.
    assert (HN : 2 <= INR (length ranks)) by (apply le_INR in Hn; exact Hn).
    pose proof (pair_sum_pos Hn) as HC.
    split.
    - apply Rdiv_lt_0_compat; assumption.
    - apply Rmult_lt_reg_r with (INR (length ranks) * (INR (length ranks) - 1) / 2);
        [exact HC |].
      unfold Rdiv at 1. rewrite Rmult_assoc, Rinv_l by lra.
      replace (2 / INR (length ranks)
               * (INR (length ranks) * (INR (length ranks) - 1) / 2))
        with (INR (length ranks) - 1) by (field; lra).
      lra. }
  assert (HN : 2 <= INR (length ranks)) by (apply le_INR in Hn; exact Hn).
  set (N := INR (length ranks)) in *.
  set (a := rating_of actual p) in *.
  set (e := rating_of (expected_scores_of P ratings ranks) p) in *.
  assert (Hq : 0 < 2 / N) by (apply Rdiv_lt_0_compat; lra).
  replace (2 * K * (N - 1) / N) with ((N - 1) * K * (2 / N)) by (field; lra).
  replace ((N - 1) * (K * (a - e))) with ((N - 1) * K * (a - e)) by ring.
  rewrite Rabs_mult, (Rabs_pos_eq ((N - 1) * K)) by nra.
  apply Rmult_lt_compat_l; [nra |].
  apply Rabs_def1; lra.
Qed.

Lemma rating_change_bound_witness :
  exists rating_changes,
    get_rating_changes_multiplayer p_function [("A", 10); ("B", 0); ("C", -5)]%string
      [("A", 1); ("B", 2); ("C", 2)]%string%Z 32 = Ok rating_changes /\
    forall p change,
      Dict.get p rating_changes = Some change ->
      Rabs change < 2 * 32 * (INR 3 - 1) / INR 3.
Proof.
  apply (@rating_change_bound p_function 32 [("A", 10); ("B", 0); ("C", -5)]%string
           [("A", 1); ("B", 2); ("C", 2)]%string%Z).
  - intros x. unfold p_function. apply p_logistic_range.
  - lra.
  - unfold Dict.wf. simpl. repeat constructor; simpl; intuition discriminate.
  - simpl. lia.
  - simpl. intuition.
Defined.

(** ** Ratings enter through their differences *)


Lemma keys_shift_ratings (c : R) (ratings : Dict.t R) :
  Dict.keys (shift_ratings c ratings) = Dict.keys ratings.
Proof. unfold shift_ratings, Dict.keys. rewrite map_map. reflexivity. Qed.

Lemma rating_of_shift (c : R) (ratings : Dict.t R) (k : string) :
  In k (Dict.keys ratings) ->
  rating_of (shift_ratings c ratings) k = rating_of ratings k + c.
Proof.
  unfold rating_of, shift_ratings.
  induction ratings as [| [k0 v0] ratings IH]; simpl; [tauto |].
  intros H. destruct (String.eqb_spec k k0) as [-> | Hne]; [reflexivity |].
  apply IH. destruct H; [congruence | assumption].
Qed.

(** X14. The rating changes depend on the differences of the ratings only:
    adding the same amount to every rating leaves the changes of a game of
    two or more rated participants as they are. *)
Theorem rating_changes_shift_invariant
        (P : R -> R) (K c : R) (ratings : Dict.t R) (ranks : Dict.t Z) :
  Dict.wf ranks -> (2 <= length ranks)%nat ->
  (forall p, In p (Dict.keys ranks) -> In p (Dict.keys ratings)) ->
  exists rating_changes,
    get_rating_changes_multiplayer P ratings ranks K = Ok rating_changes /\
    get_rating_changes_multiplayer P (shift_ratings c ratings) ranks K
    = Ok rating_changes.
Proof.
  intros Hwf Hn Hrated.
  destruct (get_actual_scores_ok Hwf Hn) as (raw & _ & _ & _ & Hact).
  eexists. split.
  { apply (@rating_changes_ok P K ratings ranks Hwf Hn Hrated _ Hact). }
  rewrite (@rating_changes_ok P K (shift_ratings c ratings) ranks Hwf Hn) with
    (actual := combine (map fst (sorted_by_rank ranks))
                       (map (fun i => i / sum raw) raw));
    [| intros p Hp; rewrite keys_shift_ratings; now apply Hrated | exact Hact].
  f_equal. unfold rating_changes_of. apply map_ext_in. intros p Hp.
  do 4 f_equal. unfold expected_scores_of.
  rewrite !rating_of_map_pair by exact Hp. f_equal.
  unfold pairwise_sum. f_equal. f_equal. apply map_ext_in. intros o Ho.
  apply filter_In in Ho. destruct Ho as [Ho _].
  rewrite !rating_of_shift by (now apply Hrated). ring.
Qed.

Lemma rating_changes_shift_invariant_witness :
  exists rating_changes,
    get_rating_changes_multiplayer p_function [("A", 10); ("B", 0); ("C", -5)]%string
      [("A", 1); ("B", 2); ("C", 2)]%string%Z 32 = Ok rating_changes /\
    get_rating_changes_multiplayer p_function
      (shift_ratings 1500 [("A", 10); ("B", 0); ("C", -5)]%string)
      [("A", 1); ("B", 2); ("C", 2)]%string%Z 32 = Ok rating_changes.
Proof.
  apply (@rating_changes_shift_invariant p_function 32 1500
           [("A", 10); ("B", 0); ("C", -5)]%string
           [("A", 1); ("B", 2); ("C", 2)]%string%Z).
  - unfold Dict.wf. simpl. repeat constructor; simpl; intuition discriminate.
  - simpl. lia.
  - simpl. intuition.
Defined.

(** ** Who gains and who loses *)

Lemma expected_score_of_range (P : R -> R) (ratings : Dict.t R) (ranks : Dict.t Z)
      (p : string) :
  (forall x, 0 < P x < 1) -> Dict.wf ranks -> (2 <= length ranks)%nat ->
  In p (Dict.keys ranks) ->
  0 < rating_of (expected_scores_of P ratings ranks) p < 2 / INR (length ranks).
Proof.
  intros HP Hwf Hn Hin.
  assert (Hlen : length (Dict.keys ranks) = length ranks)
    by (unfold Dict.keys; apply length_map).
  unfold expected_scores_of. rewrite rating_of_map_pair by exact Hin.
  pose proof (@pairwise_sum_bounds P (rating_of ratings) (Dict.keys ranks) p
                HP Hwf ltac:(lia) Hin) as [H1 H2].
  rewrite Hlen in H2. rewrite comb_2.
  assert (HN : 2 <= INR (length ranks)) by (apply le_INR in Hn; exact Hn).
  pose proof (pair_sum_pos Hn) as HC.
  split.
  - apply Rdiv_lt_0_compat; assumption.
  - apply Rmult_lt_reg_r with (INR (length ranks) * (INR (length ranks) - 1) / 2);
      [exact HC |].
    unfold Rdiv at 1. rewrite Rmult_assoc, Rinv_l by lra.
    replace (2 / INR (length ranks)
             * (INR (length ranks) * (INR (length ranks) - 1) / 2))
      with (INR (length ranks) - 1) by (field; lra).
    lra.
Qed.

Lemma sole_best_counts (ranks : Dict.t Z) (p : string) (rp : Z) :
  Dict.wf ranks -> Dict.get p ranks = Some rp ->
  (forall q rq, q <> p -> Dict.get q ranks = Some rq -> (rp < rq)%Z) ->
  (beaten_by ranks rp + 1 = length ranks)%nat /\ tied_at ranks rp = 1%nat.
Proof.
  intros Hwf Hp Hbest.
  assert (Hnd : NoDup ranks) by (eapply NoDup_map_inv; exact Hwf).
  split.
  - unfold beaten_by.
    rewrite <- (filter_length (fun q => (rp <? snd q)%Z) ranks). f_equal.
    assert (Hin : In (p, rp) (filter (fun q => negb (rp <? snd q)%Z) ranks)).
    { apply filter_In. split; [now apply get_In |]. simpl.
      now rewrite Z.ltb_irrefl. }
    symmetry. apply (@length_one_iff _ _ (p, rp) (NoDup_filter _ Hnd) Hin).
    intros [q x] Hq. apply filter_In in Hq. destruct Hq as [Hq Hx].
    simpl in Hx. apply negb_true_iff, Z.ltb_ge in Hx.
    destruct (string_dec q p) as [-> | Hne].
    + rewrite (In_get _ _ Hwf Hq) in Hp. congruence.
    + specialize (Hbest q x Hne (In_get _ _ Hwf Hq)). lia.
  - apply (@tied_at_one ranks p rp Hwf Hp). intros q Hq.
    destruct (string_dec q p) as [-> | Hne]; [reflexivity |].
    specialize (Hbest q rp Hne Hq). lia.
Qed.

Lemma sole_last_counts (ranks : Dict.t Z) (p : string) (rp : Z) :
  Dict.wf ranks -> Dict.get p ranks = Some rp ->
  (forall q rq, q <> p -> Dict.get q ranks = Some rq -> (rq < rp)%Z) ->
  beaten_by ranks rp = 0%nat /\ tied_at ranks rp = 1%nat.
Proof.
  intros Hwf Hp Hlast. split.
  - unfold beaten_by. apply filter_length_0. intros [q x] Hq. simpl.
    apply Z.ltb_ge.
    destruct (string_dec q p) as [-> | Hne].
    + rewrite (In_get _ _ Hwf Hq) in Hp. injection Hp as ->. lia.
    + specialize (Hlast q x Hne (In_get _ _ Hwf Hq)). lia.
  - apply (@tied_at_one ranks p rp Hwf Hp). intros q Hq.
    destruct (string_dec q p) as [-> | Hne]; [reflexivity |].
    specialize (Hlast q rp Hne Hq). lia.
Qed.

(** X15. For a probability function with values strictly between 0 and 1, a
    positive [game_points_coef] and two or more rated participants, the
    participant whose rank is strictly smaller than every other rank gains
    rating, and the participant whose rank is strictly greater than every
    other rank loses rating, whatever the ratings are. *)
Theorem sole_winner_gains_sole_loser_loses
        (P : R -> R) (K : R) (ratings : Dict.t R) (ranks : Dict.t Z) :
  (forall x, 0 < P x < 1) -> 0 < K ->
  Dict.wf ranks -> (2 <= length ranks)%nat ->
  (forall p, In p (Dict.keys ranks) -> In p (Dict.keys ratings)) ->
  exists rating_changes,
    get_rating_changes_multiplayer P ratings ranks K = Ok rating_changes /\
    forall p rp,
      Dict.get p ranks = Some rp ->
      exists change,
        Dict.get p rating_changes = Some change /\
        ((forall q rq, q <> p -> Dict.get q ranks = Some rq -> (rp < rq)%Z) ->
         0 < change) /\
        ((forall q rq, q <> p -> Dict.get q ranks = Some rq -> (rq < rp)%Z) ->
         change < 0).
Proof.
  intros HP HK Hwf Hn Hrated.
  destruct (get_actual_scores_ok Hwf Hn) as (raw & _ & _ & _ & Hact).
  set (actual := combine (map fst (sorted_by_rank ranks))
                         (map (fun i => i / sum raw) raw)) in *.
  eexists. split.
  { apply (@rating_changes_ok P K ratings ranks Hwf Hn Hrated _ Hact). }
  intros p rp Hp.
  assert (Hin : In p (Dict.keys ranks)) by (eapply get_Some_key; exact Hp).
  eexists. split.
  { apply get_rating_of. unfold rating_changes_of. now rewrite keys_map_pair. }
  unfold rating_changes_of. rewrite rating_of_map_pair by exact Hin.
  pose proof (@expected_score_of_range P ratings ranks p HP Hwf Hn Hin) as He.
  pose proof (@actual_score_value ranks actual p rp Hwf Hn Hact Hp) as Ha.
  assert (HN : 2 <= INR (length ranks)) by (apply le_INR in Hn; exact Hn).
  set (N := INR (length ranks)) in *.
  set (e := rating_of (expected_scores_of P ratings ranks) p) in *.
  split.
  - intros Hbest.
    destruct (@sole_best_counts ranks p rp Hwf Hp Hbest) as [Hb Ht].
    assert (HA : rating_of actual p = 2 / N).
    { unfold rating_of. rewrite Ha, Ht, comb_2. fold N.
      apply (f_equal INR) in Hb. rewrite plus_INR in Hb. simpl in Hb. fold N in Hb.
      replace (INR (beaten_by ranks rp)) with (N - 1) by lra. simpl. field. lra. }
    rewrite HA.
    apply Rmult_lt_0_compat; [lra |]. apply Rmult_lt_0_compat; lra.
  - intros Hlast.
    destruct (@sole_last_counts ranks p rp Hwf Hp Hlast) as [Hb Ht].
    assert (HA : rating_of actual p = 0).
    { unfold rating_of. rewrite Ha, Hb, Ht. simpl. unfold Rdiv. ring. }
    rewrite HA.
    assert (0 < (N - 1) * (K * e)); [| lra].
    apply Rmult_lt_0_compat; [lra |]. apply Rmult_lt_0_compat; lra.
Qed.

Lemma sole_winner_gains_sole_loser_loses_witness :
  exists rating_changes,
    get_rating_changes_multiplayer p_function [("A", 10); ("B", 0); ("C", -5)]%string
      [("A", 1); ("B", 2); ("C", 2)]%string%Z 32 = Ok rating_changes /\
    forall p rp,
      Dict.get p [("A", 1); ("B", 2); ("C", 2)]%string%Z = Some rp ->
      exists change,
        Dict.get p rating_changes = Some change /\
        ((forall q rq, q <> p ->
                       Dict.get q [("A", 1); ("B", 2); ("C", 2)]%string%Z = Some rq ->
                       (rp < rq)%Z) ->
         0 < change) /\
        ((forall q rq, q <> p ->
                       Dict.get q [("A", 1); ("B", 2); ("C", 2)]%string%Z = Some rq ->
                       (rq < rp)%Z) ->
         change < 0).
Proof.
  apply (@sole_winner_gains_sole_loser_loses p_function 32
           [("A", 10); ("B", 0); ("C", -5)]%string
           [("A", 1); ("B", 2); ("C", 2)]%string%Z).
  - intros x. unfold p_function. apply p_logistic_range.
  - lra.
  - unfold Dict.wf. simpl. repeat constructor; simpl; intuition discriminate.
  - simpl. lia.
  - simpl. intuition.
Defined.

(** ** Ties *)

Lemma all_tied_counts (ranks : Dict.t Z) (r : Z) :
  (forall q rq, In (q, rq) ranks -> rq = r) ->
  beaten_by ranks r = 0%nat /\ tied_at ranks r = length ranks.
Proof.
  intros Hall. unfold beaten_by, tied_at.
  induction ranks as [| [k x] ranks IH]; simpl; [split; reflexivity |].
  rewrite (Hall k x (or_introl eq_refl)), Z.ltb_irrefl, Z.eqb_refl. simpl.
  destruct IH as [IH1 IH2]; [intros q rq Hq; apply (Hall q); now right |].
  rewrite IH1, IH2. split; reflexivity.
Qed.

Lemma all_tied_actual_score
      (ranks : Dict.t Z) (actual : Dict.t R) (r : Z) (p : string) :
  Dict.wf ranks -> (2 <= length ranks)%nat ->
  (forall q rq, Dict.get q ranks = Some rq -> rq = r) ->
  get_actual_scores_multiplayer ranks = Ok actual ->
  In p (Dict.keys ranks) ->
  Dict.get p actual = Some (1 / INR (length ranks)).
Proof.
  intros Hwf Hn Hall Hact Hin.
  destruct (In_keys_get _ _ Hin) as [rp Hp].
  rewrite (@actual_score_value ranks actual p rp Hwf Hn Hact Hp).
  rewrite (Hall p rp Hp).
  destruct (@all_tied_counts ranks r) as [Hb Ht].
  { intros q rq Hq. apply (Hall q). now apply In_get. }
  rewrite Hb, Ht, comb_2. simpl.
  assert (HN : 2 <= INR (length ranks)) by (apply le_INR in Hn; exact Hn).
  f_equal. field. lra.
Qed.

(** X16. When two rated participants have the same rank, each has the
    actual score 1/2, and the rating changes are [K * (1/2 - P (ra - rb))]
    and [K * (1/2 - P (rb - ra))]: the draw of the two-player Elo system. *)
Theorem two_player_draw
        (P : R -> R) (K ra rb : R) (a b : string) (r : Z) (ratings : Dict.t R) :
  a <> b ->
  Dict.get a ratings = Some ra -> Dict.get b ratings = Some rb ->
  exists rating_changes,
    get_rating_changes_multiplayer P ratings [(a, r); (b, r)] K = Ok rating_changes /\
    Dict.get a rating_changes = Some (K * (1 / 2 - P (ra - rb))) /\
    Dict.get b rating_changes = Some (K * (1 / 2 - P (rb - ra))).
Proof.
  intros Hab Ha Hb.
  set (ranks := [(a, r); (b, r)]).
  assert (Hwf : Dict.wf ranks).
  { unfold Dict.wf. simpl. repeat constructor; simpl; intuition congruence. }
  assert (Hn : (2 <= length ranks)%nat) by (simpl; lia).
  assert (Hrated : forall p, In p (Dict.keys ranks) -> In p (Dict.keys ratings)).
  { intros p [<- | [<- | []]]; eapply get_Some_key; eassumption. }
  destruct (get_actual_scores_ok Hwf Hn) as (raw & _ & _ & _ & Hact).
  set (actual := combine (map fst (sorted_by_rank ranks))
                         (map (fun i => i / sum raw) raw)) in *.
  assert (Hall : forall q rq, Dict.get q ranks = Some rq -> rq = r).
  { intros q rq Hq. apply get_In in Hq.
    destruct Hq as [E | [E | []]]; congruence. }
  assert (Hact_a : rating_of actual a = 1 / 2).
  { unfold rating_of.
    rewrite (@all_tied_actual_score ranks actual r a Hwf Hn Hall Hact)
      by (simpl; auto).
    simpl. lra. }
  assert (Hact_b : rating_of actual b = 1 / 2).
  { unfold rating_of.
    rewrite (@all_tied_actual_score ranks actual r b Hwf Hn Hall Hact)
      by (simpl; auto).
    simpl. lra. }
  assert (Hne : String.eqb b a = false) by (apply String.eqb_neq; congruence).
  assert (Hne' : String.eqb a b = false) by (apply String.eqb_neq; congruence).
  assert (Hra : rating_of ratings a = ra) by (unfold rating_of; now rewrite Ha).
  assert (Hrb : rating_of ratings b = rb) by (unfold rating_of; now rewrite Hb).
  eexists. split.
  { apply (@rating_changes_ok P K ratings ranks Hwf Hn Hrated _ Hact). }
  unfold rating_changes_of. rewrite !get_map_pair.
  destruct (in_dec string_dec a (Dict.keys ranks)) as [Hia | Hna];
    [| exfalso; apply Hna; simpl; auto].
  destruct (in_dec string_dec b (Dict.keys ranks)) as [Hib | Hnb];
    [| exfalso; apply Hnb; simpl; auto].
  unfold expected_scores_of. rewrite !rating_of_map_pair by assumption.
  rewrite Hact_a, Hact_b.
  assert (Hpa : pairwise_sum P (rating_of ratings) (Dict.keys ranks) a = P (ra - rb)).
  { unfold pairwise_sum, opponents. simpl.
    rewrite String.eqb_refl, Hne. simpl. rewrite sum_cons, sum_nil, Hra, Hrb. lra. }
  assert (Hpb : pairwise_sum P (rating_of ratings) (Dict.keys ranks) b = P (rb - ra)).
  { unfold pairwise_sum, opponents. simpl.
    rewrite String.eqb_refl, Hne'. simpl. rewrite sum_cons, sum_nil, Hra, Hrb. lra. }
  rewrite Hpa, Hpb. simpl. split; f_equal; field.
Qed.

Lemma two_player_draw_witness :
  exists rating_changes,
    get_rating_changes_multiplayer p_function [("A", 100); ("B", 0)]%string
      [("A", 1); ("B", 1)]%string%Z 32 = Ok rating_changes /\
    Dict.get "A"%string rating_changes = Some (32 * (1 / 2 - p_function (100 - 0))) /\
    Dict.get "B"%string rating_changes = Some (32 * (1 / 2 - p_function (0 - 100))).
Proof.
  apply (@two_player_draw p_function 32 100 0 "A"%string "B"%string 1%Z
           [("A", 100); ("B", 0)]%string).
  - discriminate.
  - reflexivity.
  - reflexivity.
Defined.

(** X17. When all participants of a game of two or more have the same rank
    and the same rating, and the probability function gives 1/2 at 0, every
    rating change is 0. *)
Theorem complete_tie_of_equals_changes_nothing
        (P : R -> R) (K : R) (ratings : Dict.t R) (ranks : Dict.t Z) (r : Z) (v : R) :
  P 0 = 1 / 2 ->
  Dict.wf ranks -> (2 <= length ranks)%nat ->
  (forall p rp, Dict.get p ranks = Some rp -> rp = r /\ Dict.get p ratings = Some v) ->
  exists rating_changes,
    get_rating_changes_multiplayer P ratings ranks K = Ok rating_changes /\
    Dict.keys rating_changes = Dict.keys ranks /\
    forall p, In p (Dict.keys ranks) -> Dict.get p rating_changes = Some 0.
Proof.
  intros HP0 Hwf Hn Hall.
  assert (Hrated : forall p, In p (Dict.keys ranks) -> In p (Dict.keys ratings)).
  { intros p Hp. destruct (In_keys_get _ _ Hp) as [rp Hrp].
    destruct (Hall p rp Hrp) as [_ Hv]. eapply get_Some_key; exact Hv. }
  assert (Hval : forall p, In p (Dict.keys ranks) -> rating_of ratings p = v).
  { intros p Hp. destruct (In_keys_get _ _ Hp) as [rp Hrp].
    destruct (Hall p rp Hrp) as [_ Hv]. unfold rating_of. now rewrite Hv. }
  destruct (get_actual_scores_ok Hwf Hn) as (raw & _ & _ & _ & Hact).
  set (actual := combine (map fst (sorted_by_rank ranks))
                         (map (fun i => i / sum raw) raw)) in *.
  eexists. split.
  { apply (@rating_changes_ok P K ratings ranks Hwf Hn Hrated _ Hact). }
  split; [unfold rating_changes_of; apply keys_map_pair |].
  intros p Hp. unfold rating_changes_of. rewrite get_map_pair.
  destruct (in_dec string_dec p (Dict.keys ranks)); [| contradiction].
  f_equal.
  assert (Ha : rating_of actual p = 1 / INR (length ranks)).
  { unfold rating_of.
    rewrite (@all_tied_actual_score ranks actual r p Hwf Hn) by
      (try assumption; intros q rq Hq; apply (Hall q rq Hq)).
    reflexivity. }
  assert (He : rating_of (expected_scores_of P ratings ranks) p
               = 1 / INR (length ranks)).
  { unfold expected_scores_of. rewrite rating_of_map_pair by exact Hp.
    unfold pairwise_sum. rewrite map_map.
    rewrite (sum_map_ext _ (fun _ => 1 / 2)).
    - rewrite sum_map_const.
      pose proof (@opponents_length p (Dict.keys ranks) Hwf Hp) as Hlen.
      assert (Hk : length (Dict.keys ranks) = length ranks)
        by (unfold Dict.keys; apply length_map).
      rewrite Hk in Hlen. apply (f_equal INR) in Hlen.
      rewrite plus_INR in Hlen. simpl in Hlen.
      replace (INR (length (opponents p (Dict.keys ranks))))
        with (INR (length ranks) - 1) by lra.
      rewrite comb_2.
      assert (HN : 2 <= INR (length ranks)) by (apply le_INR in Hn; exact Hn).
      field. lra.
    - intros o Ho. apply filter_In in Ho. destruct Ho as [Ho _].
      rewrite (Hval p Hp), (Hval o Ho), Rminus_diag. exact HP0. }
  rewrite Ha, He. ring.
Qed.

Lemma complete_tie_of_equals_changes_nothing_witness :
  exists rating_changes,
    get_rating_changes_multiplayer p_function
      [("A", 7); ("B", 7); ("C", 7); ("D", 0)]%string
      [("A", 2); ("B", 2); ("C", 2)]%string%Z 32 = Ok rating_changes /\
    Dict.keys rating_changes = Dict.keys [("A", 2); ("B", 2); ("C", 2)]%string%Z /\
    forall p, In p (Dict.keys [("A", 2); ("B", 2); ("C", 2)]%string%Z) ->
              Dict.get p rating_changes = Some 0.
Proof.
  apply (@complete_tie_of_equals_changes_nothing p_function 32
           [("A", 7); ("B", 7); ("C", 7); ("D", 0)]%string
           [("A", 2); ("B", 2); ("C", 2)]%string%Z 2%Z 7).
  - rewrite p_function_0. lra.
  - unfold Dict.wf. simpl. repeat constructor; simpl; intuition discriminate.
  - simpl. lia.
  - intros p rp. simpl.
    destruct (String.eqb p "A"); [intros E; injection E as <-; split; reflexivity |].
    destruct (String.eqb p "B"); [intros E; injection E as <-; split; reflexivity |].
    destruct (String.eqb p "C"); [intros E; injection E as <-; split; reflexivity |].
    discriminate.
Defined.

(** ** Only the order of the ranks matters *)


Lemma keys_relabel_ranks (f : Z -> Z) (ranks : Dict.t Z) :
  Dict.keys (relabel_ranks f ranks) = Dict.keys ranks.
Proof. unfold relabel_ranks, Dict.keys. rewrite map_map. reflexivity. Qed.

Lemma get_relabel_ranks (f : Z -> Z) (ranks : Dict.t Z) (p : string) :
  Dict.get p (relabel_ranks f ranks) = option_map f (Dict.get p ranks).
Proof.
  unfold relabel_ranks.
  induction ranks as [| [k x] ranks IH]; simpl; [reflexivity |].
  destruct (String.eqb p k); [reflexivity | exact IH].
Qed.

Lemma counts_relabel_ranks (f : Z -> Z) (ranks : Dict.t Z) (r : Z) :
  (forall x y, (x < y)%Z -> (f x < f y)%Z) ->
  beaten_by (relabel_ranks f ranks) (f r) = beaten_by ranks r /\
  tied_at (relabel_ranks f ranks) (f r) = tied_at ranks r.
Proof.
  intros Hf. unfold beaten_by, tied_at, relabel_ranks.
  induction ranks as [| [k x] ranks [IH1 IH2]]; simpl; [split; reflexivity |].
  assert (H1 : (f r <? f x)%Z = (r <? x)%Z).
  { destruct (Z.ltb_spec r x) as [H | H].
    - apply Z.ltb_lt. now apply Hf.
    - apply Z.ltb_ge. destruct (Z.eq_dec x r) as [-> | Hne]; [lia |].
      assert (f x < f r)%Z by (apply Hf; lia). lia. }
  assert (H2 : (f x =? f r)%Z = (x =? r)%Z).
  { destruct (Z.eqb_spec x r) as [-> | H]; [apply Z.eqb_refl |].
    apply Z.eqb_neq.
    destruct (Z.lt_ge_cases x r) as [Hlt | Hge].
    - assert (f x < f r)%Z by (now apply Hf). lia.
    - assert (f r < f x)%Z by (apply Hf; lia). lia. }
  rewrite H1, H2. destruct (r <? x)%Z, (x =? r)%Z; simpl; rewrite ?IH1, ?IH2;
    split; reflexivity.
Qed.

(** X18. The actual scores depend on the order of the ranks only: renaming
    the ranks by a strictly increasing function leaves the actual score of
    every participant as it is.  (So the rank [len(all_options) + 1] that
    the script gives to the worst option could be any rank above 2.) *)
Theorem actual_scores_depend_on_order_only (f : Z -> Z) (ranks : Dict.t Z) :
  (forall x y, (x < y)%Z -> (f x < f y)%Z) ->
  Dict.wf ranks -> (2 <= length ranks)%nat ->
  exists scores scores',
    get_actual_scores_multiplayer ranks = Ok scores /\
    get_actual_scores_multiplayer (relabel_ranks f ranks) = Ok scores' /\
    forall p, Dict.get p scores' = Dict.get p scores.
Proof.
  intros Hf Hwf Hn.
  assert (Hwf' : Dict.wf (relabel_ranks f ranks))
    by (unfold Dict.wf; rewrite keys_relabel_ranks; exact Hwf).
  assert (Hlen : length (relabel_ranks f ranks) = length ranks)
    by (unfold relabel_ranks; apply length_map).
  assert (Hn' : (2 <= length (relabel_ranks f ranks))%nat) by (rewrite Hlen; exact Hn).
  destruct (get_actual_scores_ok Hwf Hn) as (raw & _ & _ & _ & Hact).
  destruct (get_actual_scores_ok Hwf' Hn') as (raw' & _ & _ & _ & Hact').
  set (scores := combine (map fst (sorted_by_rank ranks))
                         (map (fun i => i / sum raw) raw)) in *.
  set (scores' := combine (map fst (sorted_by_rank (relabel_ranks f ranks)))
                          (map (fun i => i / sum raw') raw')) in *.
  exists scores, scores'. split; [exact Hact |]. split; [exact Hact' |].
  intros p.
  destruct (@actual_scores_keys ranks Hwf Hn scores Hact) as [_ HP].
  destruct (@actual_scores_keys (relabel_ranks f ranks) Hwf' Hn' scores' Hact')
    as [_ HP'].
  rewrite keys_relabel_ranks in HP'.
  destruct (Dict.get p ranks) as [r |] eqn:Hp.
  - rewrite (@actual_score_value ranks scores p r Hwf Hn Hact Hp).
    assert (Hp' : Dict.get p (relabel_ranks f ranks) = Some (f r))
      by (rewrite get_relabel_ranks, Hp; reflexivity).
    rewrite (@actual_score_value _ scores' p (f r) Hwf' Hn' Hact' Hp').
    destruct (@counts_relabel_ranks f ranks r Hf) as [-> ->].
    now rewrite Hlen.
  - apply get_None in Hp.
    assert (H1 : Dict.get p scores = None).
    { apply get_None. intros H. apply Hp. eapply Permutation_in; [exact HP | exact H]. }
    assert (H2 : Dict.get p scores' = None).
    { apply get_None. intros H. apply Hp. eapply Permutation_in; [exact HP' | exact H]. }
    congruence.
Qed.

Lemma actual_scores_depend_on_order_only_witness :
  exists scores scores',
    get_actual_scores_multiplayer [("A", 1); ("B", 2); ("C", 2); ("D", 6)]%string%Z
    = Ok scores /\
    get_actual_scores_multiplayer
      (relabel_ranks (fun x => 10 * x)%Z [("A", 1); ("B", 2); ("C", 2); ("D", 6)]%string%Z)
    = Ok scores' /\
    forall p, Dict.get p scores' = Dict.get p scores.
Proof.
  apply (@actual_scores_depend_on_order_only (fun x => 10 * x)%Z
           [("A", 1); ("B", 2); ("C", 2); ("D", 6)]%string%Z).
  - intros x y H. lia.
  - unfold Dict.wf. simpl. repeat constructor; simpl; intuition discriminate.
  - simpl. lia.
Defined.

(** ** The expected scores follow the ratings *)

Lemma opponents_comm (p q : string) (ks : list string) :
  opponents q (opponents p ks) = opponents p (opponents q ks).
Proof.
  unfold opponents. induction ks as [| k ks IH]; simpl; [reflexivity |].
  destruct (String.eqb k p) eqn:Ep, (String.eqb k q) eqn:Eq; simpl;
    rewrite ?Ep, ?Eq; simpl; rewrite IH; reflexivity.
Qed.

Lemma opponents_perm (q : string) (ks : list string) :
  NoDup ks -> In q ks -> Permutation ks (q :: opponents q ks).
Proof.
  induction 1 as [| k ks Hk Hnd IH]; simpl; [tauto |].
  intros [-> | Hin].
  - rewrite String.eqb_refl. simpl. fold (opponents q ks).
    now rewrite opponents_notin.
  - destruct (String.eqb_spec k q) as [-> | Hne]; [contradiction |]. simpl.
    fold (opponents q ks).
    eapply perm_trans; [apply perm_skip, IH, Hin | apply perm_swap].
Qed.

Lemma sum_map_le {A : Type} (f g : A -> R) (l : list A) :
  (forall a, In a l -> f a <= g a) -> sum (map f l) <= sum (map g l).
Proof.
  induction l as [| a l IH]; intros H; simpl; [rewrite sum_nil; lra |].
  rewrite !sum_cons.
  pose proof (H a (or_introl eq_refl)).
  assert (sum (map f l) <= sum (map g l)) by (apply IH; intros; apply H; now right).
  lra.
Qed.

Lemma pairwise_sum_split (P : R -> R) (r : string -> R) (ks : list string)
      (p q : string) :
  NoDup ks -> In q ks -> q <> p ->
  pairwise_sum P r ks p
  = P (r p - r q)
    + sum (map (fun o => P (r p - r o)) (opponents q (opponents p ks))).
Proof.
  intros Hnd Hq Hne. unfold pairwise_sum. rewrite map_map.
  assert (Hin : In q (opponents p ks)).
  { apply filter_In. split; [exact Hq |]. apply negb_true_iff, String.eqb_neq, Hne. }
  rewrite (@sum_Permutation _
             (map (fun o => P (r p - r o)) (q :: opponents q (opponents p ks)))).
  - cbn [map]. now rewrite sum_cons.
  - apply Permutation_map, opponents_perm; [| exact Hin].
    apply NoDup_filter, Hnd.
Qed.

(** X19. For a strictly increasing probability function and ratings with
    distinct names, a player with a strictly greater rating has a strictly
    greater expected score. *)
Theorem expected_scores_follow_ratings
        (P : R -> R) (ratings : Dict.t R) (p q : string) (rp rq : R) :
  (forall x y, x < y -> P x < P y) ->
  Dict.wf ratings ->
  Dict.get p ratings = Some rp -> Dict.get q ratings = Some rq -> rq < rp ->
  exists expected_p expected_q,
    get_expected_score_multiplayer P p ratings = Ok expected_p /\
    get_expected_score_multiplayer P q ratings = Ok expected_q /\
    expected_q < expected_p.
Proof.
  intros HP Hwf Hp Hq Hlt.
  assert (Hip : In p (Dict.keys ratings)) by (eapply get_Some_key; exact Hp).
  assert (Hiq : In q (Dict.keys ratings)) by (eapply get_Some_key; exact Hq).
  assert (Hne : p <> q) by (intros ->; rewrite Hp in Hq; injection Hq; lra).
  assert (Hn : (2 <= length ratings)%nat).
  { rewrite <- (length_map fst ratings).
    apply (@NoDup_two _ _ p q Hwf Hip Hiq Hne). }
  eexists. eexists.
  split; [apply (@expected_score_ok P ratings p Hip Hn) |].
  split; [apply (@expected_score_ok P ratings q Hiq Hn) |].
  assert (Hrp : rating_of ratings p = rp) by (unfold rating_of; now rewrite Hp).
  assert (Hrq : rating_of ratings q = rq) by (unfold rating_of; now rewrite Hq).
  rewrite (@pairwise_sum_split P (rating_of ratings) (Dict.keys ratings) p q Hwf Hiq)
    by congruence.
  rewrite (@pairwise_sum_split P (rating_of ratings) (Dict.keys ratings) q p Hwf Hip)
    by congruence.
  rewrite (opponents_comm q p), Hrp, Hrq.
  pose proof (@sum_map_le _ (fun o => P (rq - rating_of ratings o))
                (fun o => P (rp - rating_of ratings o))
                (opponents q (opponents p (Dict.keys ratings)))) as Hle.
  assert (H1 : P (rq - rp) < P (rp - rq)) by (apply HP; lra).
  assert (HC : 0 < INR (comb (length ratings) 2))
    by (rewrite comb_2; apply pair_sum_pos, Hn).
  unfold Rdiv. apply Rmult_lt_compat_r; [now apply Rinv_0_lt_compat |].
  assert (H2 : sum (map (fun o => P (rq - rating_of ratings o))
                        (opponents q (opponents p (Dict.keys ratings))))
               <= sum (map (fun o => P (rp - rating_of ratings o))
                           (opponents q (opponents p (Dict.keys ratings))))).
  { apply Hle. intros o _. apply Rlt_le, HP. lra. }
  lra.
Qed.

Lemma expected_scores_follow_ratings_witness :
  exists expected_p expected_q,
    get_expected_score_multiplayer p_function "A"%string
      [("A", 10); ("B", 0); ("C", -5)]%string = Ok expected_p /\
    get_expected_score_multiplayer p_function "C"%string
      [("A", 10); ("B", 0); ("C", -5)]%string = Ok expected_q /\
    expected_q < expected_p.
Proof.
  apply (@expected_scores_follow_ratings p_function
           [("A", 10); ("B", 0); ("C", -5)]%string "A"%string "C"%string 10 (-5)).
  - intros x y. unfold p_function. apply p_logistic_increasing.
    + exact std_dev_coefficient_pos.
    + exact log_base_gt_1.
  - unfold Dict.wf. simpl. repeat constructor; simpl; intuition discriminate.
  - reflexivity.
  - reflexivity.
  - lra.
Defined.

(** ** The probability function of the script *)

(** X20. With the configuration of the script ([p_logistic], base
    [sqrt 10], coefficient 200) the probability function is the expected
    score of chess Elo, [1 / (1 + 10 ^ (- x / 400))]. *)
Theorem p_function_is_chess_elo (x : R) :
  p_function x = 1 / (1 + Rpower 10 (- x / 400)).
Proof.
  unfold p_function, p_logistic, log_base, std_dev_coefficient.
  do 2 f_equal. unfold Rpower. f_equal.
  assert (H : ln 10 = 2 * ln (sqrt 10)).
  { rewrite <- (sqrt_sqrt 10) at 1 by lra.
    rewrite ln_mult by (apply sqrt_lt_R0; lra). lra. }
  rewrite H. field.
Qed.

(** ** Linear weights against games played again *)

Section WeighingFacts.

Variable P : R -> R.
Variable K : R.

Lemma winner_loser_changes (a b : R) :
  get_rating_changes_multiplayer P [("winner", a); ("loser", b)]%string
    [("winner", 1); ("loser", 2)]%string%Z K
  = Ok [("winner", (INR 2 - 1) * (K * (1 - P (a - b) / INR (comb 2 2))));
        ("loser", (INR 2 - 1) * (K * (0 - P (b - a) / INR (comb 2 2))))]%string.
Proof.
  rewrite (@rating_changes_ok P K [("winner", a); ("loser", b)]%string
             [("winner", 1); ("loser", 2)]%string%Z)
    with (actual := [("winner", 1); ("loser", 0)]%string).
  - unfold rating_changes_of, expected_scores_of, pairwise_sum, opponents, rating_of.
    simpl. rewrite !sum_cons, !sum_nil, !Rplus_0_r. reflexivity.
  - unfold Dict.wf. simpl. repeat constructor; simpl; intuition discriminate.
  - simpl. lia.
  - intros p Hp. exact Hp.
  - apply (@two_player_actual_scores "winner" "loser" 1 2)%string%Z;
      [discriminate | lia | now left].
Qed.

Lemma replay_loop (n s : nat) (a b : R) :
  exists a' b',
    foldM (fun ratings (i : nat) =>
             rating_changes <-
               get_rating_changes_multiplayer P ratings
                 [("winner", 1); ("loser", 2)]%string%Z K ;;
             foldM (fun ratings (kv : string * R) =>
                      r <- Dict.getitem (fst kv) ratings ;;
                      Ok (Dict.set (fst kv) (r + snd kv) ratings))
                   (Dict.items rating_changes) ratings)
          (seq s n) [("winner", a); ("loser", b)]%string
    = Ok [("winner", a'); ("loser", b')]%string /\
    a' = fst (replayed P K n a b) /\ b' = snd (replayed P K n a b).
Proof.
  revert s a b. induction n as [| n IH]; intros s a b.
  - exists a, b. repeat split.
  - cbn [seq foldM]. rewrite winner_loser_changes. cbn [bind].
    unfold Dict.items, Dict.getitem. simpl.
    destruct (IH (S s) (a + (INR 2 - 1) * (K * (1 - P (a - b) / INR (comb 2 2))))
                 (b + (INR 2 - 1) * (K * (0 - P (b - a) / INR (comb 2 2)))))
      as (a' & b' & Hf & Ha & Hb).
    exists a', b'. split; [exact Hf |].
    assert (E1 : a + (INR 2 - 1) * (K * (1 - P (a - b) / INR (comb 2 2)))
                 = a + K * (1 - P (a - b))) by (simpl; field).
    assert (E2 : b + (INR 2 - 1) * (K * (0 - P (b - a) / INR (comb 2 2)))
                 = b + K * (0 - P (b - a))) by (simpl; field).
    rewrite E1, E2 in Ha, Hb. split; assumption.
Qed.

Hypothesis P_range : forall x, 0 < P x < 1.
Hypothesis P_increasing : forall x y, x < y -> P x < P y.
Hypothesis K_pos : 0 < K.

Lemma P_monotone (x y : R) : x <= y -> P x <= P y.
Proof.
  intros [H | ->]; [apply Rlt_le, P_increasing, H | apply Rle_refl].
Qed.

(** From a rating difference of [d] or more, [n] further games give the
    winner between nothing and [n] times the gain at the difference [d]. *)
Lemma replayed_bounds (d : R) (n : nat) :
  forall a b, d <= a - b ->
    0 <= fst (replayed P K n a b) - a <= INR n * (K * (1 - P d)).
Proof.
  induction n as [| n IH]; intros a b Hd.
  - simpl. lra.
  - cbn [replayed]. rewrite S_INR.
    pose proof (P_range (a - b)) as H1. pose proof (P_range (b - a)) as H2.
    pose proof (P_range d) as H3.
    pose proof (P_monotone Hd) as H4.
    assert (Hg : 0 < K * (1 - P (a - b)) <= K * (1 - P d)) by nra.
    assert (Hl : 0 < K * P (b - a)) by nra.
    specialize (IH (a + K * (1 - P (a - b))) (b + K * (0 - P (b - a)))
                   ltac:(lra)).
    lra.
Qed.

Lemma replayed_strict (d : R) (n : nat) :
  forall a b, d < a - b -> (1 <= n)%nat ->
    fst (replayed P K n a b) - a < INR n * (K * (1 - P d)).
Proof.
  intros a b Hd Hn. destruct n as [| n]; [lia |].
  cbn [replayed]. rewrite S_INR.
  pose proof (P_range (a - b)) as H1. pose proof (P_range (b - a)) as H2.
  pose proof (P_increasing Hd) as H4.
  assert (Hg : 0 < K * (1 - P (a - b)) < K * (1 - P d)) by nra.
  assert (Hl : 0 < K * P (b - a)) by nra.
  pose proof (@replayed_bounds d n (a + K * (1 - P (a - b)))
                (b + K * (0 - P (b - a))) ltac:(lra)) as H.
  lra.
Qed.

Lemma replayed_from_start (d : R) (n : nat) :
  0 <= fst (replayed P K n d 0) - d <= INR n * (K * (1 - P d)) /\
  ((1 <= n)%nat -> 0 < fst (replayed P K n d 0) - d) /\
  ((2 <= n)%nat -> fst (replayed P K n d 0) - d < INR n * (K * (1 - P d))) /\
  (n = 1%nat -> fst (replayed P K n d 0) - d = K * (1 - P d)).
Proof.
  split; [apply replayed_bounds; lra |].
  pose proof (P_range d) as H1. pose proof (P_range (0 - d)) as H2.
  assert (Hg : 0 < K * (1 - P (d - 0))) by (replace (d - 0) with d by lra; nra).
  assert (Hl : 0 < K * P (0 - d)) by nra.
  split; [| split].
  - intros Hn. destruct n as [| n]; [lia |]. cbn [replayed].
    pose proof (@replayed_bounds d n (d + K * (1 - P (d - 0)))
                  (0 + K * (0 - P (0 - d))) ltac:(lra)) as H.
    lra.
  - intros Hn. destruct n as [| n]; [lia |]. cbn [replayed]. rewrite S_INR.
    pose proof (@replayed_strict d n (d + K * (1 - P (d - 0)))
                  (0 + K * (0 - P (0 - d))) ltac:(lra) ltac:(lia)) as H.
    replace (d - 0) with d in * by lra. lra.
  - intros ->. simpl. replace (d - 0) with d by lra. lra.
Qed.

(** X21. For a strictly increasing probability function with values strictly
    between 0 and 1 and a positive [game_points_coefficient], the test of
    single observations runs without raising for every list of rating
    differences, and gives one difference for each of them; the winner's
    total gain over the replayed games is not negative, and no difference
    (linear minus replayed) is negative; the differences are all 0 for an
    [option_max_weight] of 0 or 1 and all strictly positive from 2 on: the
    linear weight overstates the gain of the winner. *)
Theorem linear_weights_overstate_replays
        (option_max_weight : nat) (possible_rating_differences : list Z) :
  exists obs_linear obs_true differences,
    obs_linear_rating_changes P K option_max_weight possible_rating_differences
    = Ok obs_linear /\
    obs_true_rating_changes P K option_max_weight possible_rating_differences
    = Ok obs_true /\
    per_observation_rating_change_differences P K option_max_weight
      possible_rating_differences = Ok differences /\
    length differences = length possible_rating_differences /\
    Forall (fun change => 0 <= change) obs_true /\
    Forall (fun difference => 0 <= difference) differences /\
    ((option_max_weight <= 1)%nat ->
     Forall (fun difference => difference = 0) differences) /\
    ((2 <= option_max_weight)%nat ->
     Forall (fun difference => 0 < difference) differences).
Proof.
  unfold per_observation_rating_change_differences.
  induction possible_rating_differences as [| d l IH].
  - exists [], [], []. simpl. repeat split; try constructor.
  - destruct IH as (lin & tru & diff & Hlin & Htru & Hdiff & Hlen & Hpos & Hnn
                    & Hz & Hp).
    rewrite Hlin, Htru in Hdiff. cbn [bind] in Hdiff. injection Hdiff as <-.
    unfold obs_linear_rating_changes, obs_true_rating_changes in *.
    cbn [mapM]. rewrite Hlin, Htru.
    rewrite winner_loser_changes. cbn [bind].
    destruct (@replay_loop option_max_weight 0 (IZR d) 0)
      as (a' & b' & Hloop & Ha & _).
    rewrite Hloop. cbn [bind].
    unfold Dict.getitem. simpl.
    destruct (@replayed_from_start (IZR d) option_max_weight)
      as (H1 & H2 & H3 & H4).
    rewrite <- Ha in H1, H2, H3, H4.
    assert (E : (INR 2 - 1) * (K * (1 - P (IZR d - 0) / INR (comb 2 2)))
                * INR option_max_weight
                = INR option_max_weight * (K * (1 - P (IZR d))))
      by (replace (IZR d - 0) with (IZR d) by lra; simpl; field).
    eexists. eexists. eexists.
    split; [reflexivity |]. split; [reflexivity |]. split; [reflexivity |].
    cbn [combine map length fst snd]. simpl in E. rewrite E.
    split; [now rewrite Hlen |].
    split; [constructor; [lra | exact Hpos] |].
    split; [constructor; [lra | exact Hnn] |].
    split.
    + intros Hw. constructor; [| now apply Hz].
      destruct option_max_weight as [| [| w]]; [| | lia].
      * simpl in *. lra.
      * rewrite (H4 eq_refl). simpl. lra.
    + intros Hw. constructor; [| now apply Hp].
      specialize (H3 Hw). lra.
Qed.

End WeighingFacts.

Lemma linear_weights_overstate_replays_witness :
  exists obs_linear obs_true differences,
    obs_linear_rating_changes p_function game_points_coefficient option_max_weight
      [0; 1; 2]%Z = Ok obs_linear /\
    obs_true_rating_changes p_function game_points_coefficient option_max_weight
      [0; 1; 2]%Z = Ok obs_true /\
    per_observation_rating_change_differences p_function game_points_coefficient
      option_max_weight [0; 1; 2]%Z = Ok differences /\
    length differences = length [0; 1; 2]%Z /\
    Forall (fun change => 0 <= change) obs_true /\
    Forall (fun difference => 0 <= difference) differences /\
    ((option_max_weight <= 1)%nat ->
     Forall (fun difference => difference = 0) differences) /\
    ((2 <= option_max_weight)%nat ->
     Forall (fun difference => 0 < difference) differences).
Proof.
  apply (@linear_weights_overstate_replays p_function game_points_coefficient).
  - intros x. unfold p_function. apply p_logistic_range.
  - intros x y. unfold p_function. apply p_logistic_increasing.
    + exact std_dev_coefficient_pos.
    + exact log_base_gt_1.
  - unfold game_points_coefficient. lra.
Defined.

(** ** Rows that show a single option *)





